(** * Whisper realtime transcriber: segmenter, validity filter, ordered queue, hub

    A shallow embedding of
      - [backend/lib/audio_processing.py]  ([AudioBuffer], [WhisperTranscriber]),
      - [backend/lib/ai_integration.py]    ([GeminiSummarizer.summarize]),
      - [backend/services/websocket_service.py] ([WebSocketServer]),
    followed by the properties of the design document that can be stated on it.

    Conventions.  Python [int]s are [Z]; a Python [str] is the list of its
    Unicode code points; a Python exception is the [Raise] branch of [result];
    object fields are record fields and a method is a function from the old
    object to the new one. *)

From Stdlib Require Import ZArith NArith QArith Bool List String Ascii Lia.
From Stdlib Require Import Sorting.Sorted.
Import ListNotations.
Local Open Scope Z_scope.

Set Implicit Arguments.
Set Warnings "-register-all".

(* ================================================================== *)
(** * Part I.  Definitions                                             *)
(* ================================================================== *)

(** ** Exceptions and results *)

Inductive exn : Type :=
| IndexError
| AttributeError
| ConnectionClosed
| OtherException (msg : list N).

Inductive result (A : Type) : Type :=
| Ok (a : A)
| Raise (e : exn).

Arguments Ok {A} a.
Arguments Raise {A} e.

Definition rbind {A B} (m : result A) (k : A -> result B) : result B :=
  match m with
  | Ok a => k a
  | Raise e => Raise e
  end.

Declare Scope result_scope.
Delimit Scope result_scope with result.
Notation "x <- m ;; k" := (rbind m (fun x => k))
  (at level 61, m at next level, right associativity) : result_scope.

(** ** Python strings *)

Definition char := N.
Definition str := list char.

(** An ASCII literal as a Python string. *)
Definition u (s : string) : str := map N_of_ascii (list_ascii_of_string s).

Definition len {A} (l : list A) : Z := Z.of_nat (List.length l).

Definition in_ranges (tbl : list (N * N)) (c : char) : bool :=
  existsb (fun r => (fst r <=? c)%N && (c <=? snd r)%N) tbl.

(** [str.isspace] for one code point, which is also what [\s] matches in a
    [str] pattern. *)
Definition whitespace_table : list (N * N) :=
  [ (9, 13); (28, 32); (133, 133); (160, 160); (5760, 5760);
    (8192, 8202); (8232, 8233); (8239, 8239); (8287, 8287);
    (12288, 12288) ]%N.

Definition isspace (c : char) : bool := in_ranges whitespace_table c.

Fixpoint lstrip (t : str) : str :=
  match t with
  | c :: t' => if isspace c then lstrip t' else t
  | [] => []
  end.

Definition rstrip (t : str) : str := rev (lstrip (rev t)).

(** [text.strip()] *)
Definition strip (t : str) : str := rstrip (lstrip t).

(** [text.split()]: maximal runs of non-whitespace characters.  [cur] holds
    the word being read, reversed. *)
Fixpoint split_aux (cur : str) (t : str) : list str :=
  match t with
  | [] => match cur with [] => [] | _ => [rev cur] end
  | c :: t' =>
      if isspace c
      then match cur with
           | [] => split_aux [] t'
           | _ => rev cur :: split_aux [] t'
           end
      else split_aux (c :: cur) t'
  end.

Definition split (t : str) : list str := split_aux [] t.

Fixpoint str_eqb (a b : str) : bool :=
  match a, b with
  | [], [] => true
  | x :: a', y :: b' => (x =? y)%N && str_eqb a' b'
  | _, _ => false
  end.

(** [" ".join(parts)] *)
Fixpoint join_space (parts : list str) : str :=
  match parts with
  | [] => []
  | [p] => p
  | p :: rest => p ++ 32%N :: join_space rest
  end.

(** [l[i]], with Python's negative indices and [IndexError]. *)
Definition getitem {A} (d : A) (l : list A) (i : Z) : result A :=
  let j := if i <? 0 then i + len l else i in
  if (0 <=? j) && (j <? len l) then Ok (nth (Z.to_nat j) l d) else Raise IndexError.

(** [range(n)] and [range(a, b)] *)
Definition range (n : Z) : list Z := map Z.of_nat (seq 0 (Z.to_nat n)).
Definition range2 (a b : Z) : list Z := map (fun k => a + k) (range (b - a)).

(** ** Regular expressions ([re.match] on the patterns the filter uses) *)

Inductive regex : Type :=
| Void
| Eps
| Cls (p : char -> bool)
| Cat (r s : regex)
| Alt (r s : regex)
| Star (r : regex).

Fixpoint nullable (r : regex) : bool :=
  match r with
  | Void => false
  | Eps => true
  | Cls _ => false
  | Cat r s => nullable r && nullable s
  | Alt r s => nullable r || nullable s
  | Star _ => true
  end.

Fixpoint deriv (c : char) (r : regex) : regex :=
  match r with
  | Void => Void
  | Eps => Void
  | Cls p => if p c then Eps else Void
  | Cat r s =>
      if nullable r then Alt (Cat (deriv c r) s) (deriv c s)
      else Cat (deriv c r) s
  | Alt r s => Alt (deriv c r) (deriv c s)
  | Star r' => Cat (deriv c r') (Star r')
  end.

Fixpoint derivs (t : str) (r : regex) : regex :=
  match t with
  | [] => r
  | c :: t' => derivs t' (deriv c r)
  end.

Definition fullmatch (r : regex) (t : str) : bool := nullable (derivs t r).

Definition Plus (r : regex) : regex := Cat r (Star r).

Fixpoint AltL (rs : list regex) : regex :=
  match rs with
  | [] => Void
  | [r] => r
  | r :: rs' => Alt r (AltL rs')
  end.

Definition exactly (c : char) : char -> bool := fun x => (x =? c)%N.

(** One ASCII letter under [re.IGNORECASE]. *)
Definition ci (c : char) : char -> bool :=
  fun x =>
    (x =? c)%N
    || (if in_ranges [(97, 122)]%N c then (x =? c - 32)%N else false)
    || (if in_ranges [(65, 90)]%N c then (x =? c + 32)%N else false).

Fixpoint Lit (f : char -> char -> bool) (t : str) : regex :=
  match t with
  | [] => Eps
  | c :: t' => Cat (Cls (f c)) (Lit f t')
  end.

(** [re.match("^" + r + "$", text)]: [$] matches at the end of the text and
    just before a newline that ends it. *)
Definition re_match_anchored (r : regex) (t : str) : bool :=
  fullmatch (Cat r (Alt Eps (Cls (exactly 10%N)))) t.

(** [[a-zA-Z]] under [re.IGNORECASE]: the 52 ASCII letters and the four
    letters that case-fold onto them. *)
Definition ascii_letter_i (c : char) : bool :=
  in_ranges [(65, 90); (97, 122); (304, 305); (383, 383); (8490, 8490)]%N c.

(** [\d] in a [str] pattern: Unicode category Nd (Unicode 14.0, the table of
    CPython 3.11). *)
Definition decimal_table : list (N * N) :=
  [ (48, 57); (1632, 1641); (1776, 1785); (1984, 1993); (2406, 2415);
    (2534, 2543); (2662, 2671); (2790, 2799); (2918, 2927); (3046, 3055);
    (3174, 3183); (3302, 3311); (3430, 3439); (3558, 3567); (3664, 3673);
    (3792, 3801); (3872, 3881); (4160, 4169); (4240, 4249); (6112, 6121);
    (6160, 6169); (6470, 6479); (6608, 6617); (6784, 6793); (6800, 6809);
    (6992, 7001); (7088, 7097); (7232, 7241); (7248, 7257); (42528, 42537);
    (43216, 43225); (43264, 43273); (43472, 43481); (43504, 43513);
    (43600, 43609); (44016, 44025); (65296, 65305); (66720, 66729);
    (68912, 68921); (69734, 69743); (69872, 69881); (69942, 69951);
    (70096, 70105); (70384, 70393); (70736, 70745); (70864, 70873);
    (71248, 71257); (71360, 71369); (71472, 71481); (71904, 71913);
    (72016, 72025); (72784, 72793); (73040, 73049); (73120, 73129);
    (92768, 92777); (92864, 92873); (93008, 93017); (120782, 120831);
    (123200, 123209); (123632, 123641); (125264, 125273);
    (130032, 130041) ]%N.

Definition is_decimal (c : char) : bool := in_ranges decimal_table c.

(** The characters of the symbol class, by code point:
    ! @ # $ % ^ & * ( ) , . ? double-quote : { } | < > *)
Definition symbol_table : list char :=
  [33; 64; 35; 36; 37; 94; 38; 42; 40; 41; 44; 46; 63; 34; 58; 123; 125;
   124; 60; 62]%N.

Definition is_symbol (c : char) : bool := existsb (N.eqb c) symbol_table.

(** あ い う え お ん っ 。 、 *)
Definition kana_single_table : list char :=
  [12354; 12356; 12358; 12360; 12362; 12435; 12387; 12290; 12289]%N.

Definition is_kana_single (c : char) : bool :=
  existsb (N.eqb c) kana_single_table.

(** えー あー うー んー あの その まあ *)
Definition kana_fillers : list str :=
  [ [12360; 12540]; [12354; 12540]; [12358; 12540]; [12435; 12540];
    [12354; 12398]; [12381; 12398]; [12414; 12354] ]%N.

Definition english_fillers : list str :=
  [u "um"; u "uh"; u "ah"; u "oh"; u "mm"; u "hmm"].

(** [noise_patterns], in the order of the source; each entry is the body
    between [^] and [$]. *)
Definition noise_patterns : list regex :=
  [ Cls ascii_letter_i;
    Plus (Cls is_decimal);
    Plus (Cls is_symbol);
    Plus (Cls is_kana_single);
    Cat (AltL (map (Lit ci) english_fillers)) (Star (Cls isspace));
    Cat (AltL (map (Lit exactly) kana_fillers)) (Star (Cls isspace));
    Star (Cls isspace) ].

(** ** The numerical substrate

    Samples are [numpy.float32] values and levels are floating-point numbers;
    [rms x] is [np.sqrt(np.mean(x ** 2))] and [flt] is [<] on levels (false
    as soon as one side is not a number).  The segmenter and the server only
    move samples around and compare levels, so the arithmetic stays behind
    this interface. *)

Class Numpy : Type := {
  sample : Type;
  level : Type;
  rms : list sample -> level;
  flt : level -> level -> bool
}.

(** [time.time()] values are only stored and forwarded. *)
Definition timestamp := Z.

(** ** [WhisperTranscriber]: the validity filter *)

Record WhisperTranscriber `{Numpy} : Type := {
  (** [self.model.transcribe(audio_chunk, ...)] with the segments' texts *)
  model : list sample -> result (list str);
  min_text_length : Z;
  max_text_length : Z;
  max_repetition_chars : Z;
  max_repetition_words : Z
}.

(** The values [main.py] passes, taken from [config.py]. *)
Definition configured_transcriber `{Numpy}
    (whisper : list sample -> result (list str)) : WhisperTranscriber :=
  {| model := whisper;
     min_text_length := 2;
     max_text_length := 2000;
     max_repetition_chars := 4;
     max_repetition_words := 2 |}.

Section Transcriber.
Context `{Numpy}.

Local Open Scope result_scope.

(** The default of [nth] behind [getitem]; never read. *)
Definition no_char : char := 0%N.
Definition no_word : str := [].

(** [text[i] == text[i + 1] == text[i + 2] == text[i + 3]], evaluated left
    to right and stopping at the first comparison that fails. *)
Definition same4_at (text : str) (i : Z) : result bool :=
  a <- getitem no_char text i ;;
  b <- getitem no_char text (i + 1) ;;
  if negb (a =? b)%N then Ok false else
  c <- getitem no_char text (i + 2) ;;
  if negb (b =? c)%N then Ok false else
  d <- getitem no_char text (i + 3) ;;
  Ok (c =? d)%N.

(** The character loop; [Ok true] stands for its [return False]. *)
Fixpoint char_repetition_loop (self : WhisperTranscriber) (text : str)
    (indices : list Z) : result bool :=
  match indices with
  | [] => Ok false
  | i :: rest =>
      same <- same4_at text i ;;
      if same && (max_repetition_chars self =? 4)
      then Ok true
      else char_repetition_loop self text rest
  end.

(** [all(words[i] == words[i + j] for j in js)] *)
Fixpoint all_same_as (words : list str) (i : Z) (js : list Z) : result bool :=
  match js with
  | [] => Ok true
  | j :: rest =>
      a <- getitem no_word words i ;;
      b <- getitem no_word words (i + j) ;;
      if str_eqb a b then all_same_as words i rest else Ok false
  end.

(** The word loop; [Ok true] stands for its [return False]. *)
Fixpoint word_repetition_loop (self : WhisperTranscriber) (words : list str)
    (indices : list Z) : result bool :=
  match indices with
  | [] => Ok false
  | i :: rest =>
      same <- all_same_as words i (range2 1 (max_repetition_words self + 1)) ;;
      if same then Ok true else word_repetition_loop self words rest
  end.

Definition is_valid_transcription (self : WhisperTranscriber) (text : str)
  : result bool :=
  if match text with [] => true | _ => false end
     || (len (strip text) <? min_text_length self)
  then Ok false else
  let text := strip text in
  if len text >? max_text_length self then Ok false else
  hit <- char_repetition_loop self text
           (range (len text - max_repetition_chars self)) ;;
  if hit then Ok false else
  let words := split text in
  hit <- (if len words >=? max_repetition_words self * 2
          then word_repetition_loop self words
                 (range (len words - max_repetition_words self))
          else Ok false) ;;
  if hit then Ok false else
  if existsb (fun pattern => re_match_anchored pattern text) noise_patterns
  then Ok false
  else Ok true.


(** [WhisperTranscriber.transcribe]: the segments are concatenated and
    stripped; whatever goes wrong on the way yields the empty string. *)
Definition transcribe (self : WhisperTranscriber) (audio_chunk : list sample)
  : str :=
  match (segments <- model self audio_chunk ;;
         let text := strip (List.concat segments) in
         valid <- is_valid_transcription self text ;;
         Ok (if valid then text else []))
  with
  | Ok text => text
  | Raise _ => []
  end.

End Transcriber.

(** ** [AudioBuffer]: the segmenter *)

Record AudioBuffer `{Numpy} : Type := {
  sample_rate : Z;
  silence_threshold : level;
  min_audio_level : level;
  max_audio_chunk_duration : Z;
  silence_frames : Z;
  current_silence_count : Z;
  audio_chunk : list sample;
  min_chunk_length : Z
}.

Section Segmenter.
Context `{Numpy}.

(** [self.audio_chunk = chunk; self.current_silence_count = count] *)
Definition with_buffer (self : AudioBuffer) (chunk : list sample) (count : Z)
  : AudioBuffer :=
  {| sample_rate := sample_rate self;
     silence_threshold := silence_threshold self;
     min_audio_level := min_audio_level self;
     max_audio_chunk_duration := max_audio_chunk_duration self;
     silence_frames := silence_frames self;
     current_silence_count := count;
     audio_chunk := chunk;
     min_chunk_length := min_chunk_length self |}.

(** The tail of [add_audio]: the forced split. *)
Definition force_split (self : AudioBuffer)
  : AudioBuffer * option (list sample) :=
  let max_chunk_length := sample_rate self * max_audio_chunk_duration self in
  if len (audio_chunk self) >? max_chunk_length
  then (with_buffer self [] 0, Some (audio_chunk self))
  else (self, None).

Definition add_audio (self : AudioBuffer) (audio_data : list sample)
  : AudioBuffer * option (list sample) :=
  let audio_level := rms audio_data in
  let count :=
    if flt audio_level (silence_threshold self)
    then current_silence_count self + len audio_data
    else 0 in
  let self := with_buffer self (audio_chunk self ++ audio_data) count in
  if (current_silence_count self >=? silence_frames self)
     && (len (audio_chunk self) >=? min_chunk_length self)
  then
    let chunk := audio_chunk self in
    let chunk_level := rms chunk in
    if flt (min_audio_level self) chunk_level
    then (with_buffer self [] 0, Some chunk)
    else force_split (with_buffer self [] 0)
  else force_split self.

(** One call per inbound batch; the chunks that come out, in order. *)
Fixpoint feed (self : AudioBuffer) (batches : list (list sample))
  : AudioBuffer * list (list sample) :=
  match batches with
  | [] => (self, [])
  | audio_data :: rest =>
      let '(self', out) := add_audio self audio_data in
      let '(self'', outs) := feed self' rest in
      (self'', match out with Some chunk => chunk :: outs | None => outs end)
  end.

End Segmenter.

(** [AudioBuffer.__init__].  [silence_duration] is given as a rational and
    [int(...)] truncates; for the configured [0.7] and [16000] the product is
    [11200] in floating point as well, and [int(0.5 * 16000)] is [8000]. *)
Definition int_of_Q (q : Q) : Z := Z.quot (Qnum q) (Zpos (Qden q)).

Definition new_AudioBuffer `{Numpy} (sample_rate : Z) (silence_threshold : level)
    (silence_duration : Q) (min_audio_level : level)
    (max_audio_chunk_duration : Z) : AudioBuffer :=
  {| sample_rate := sample_rate;
     silence_threshold := silence_threshold;
     min_audio_level := min_audio_level;
     max_audio_chunk_duration := max_audio_chunk_duration;
     silence_frames := int_of_Q (silence_duration * inject_Z sample_rate);
     current_silence_count := 0;
     audio_chunk := [];
     min_chunk_length := int_of_Q ((1 # 2) * inject_Z sample_rate) |}.

(** ** JSON values and wire messages *)

Inductive json : Type :=
| JNone
| JBool (b : bool)
| JInt (n : Z)
| JFloat (t : timestamp)
| JStr (s : str)
| JDict (d : list (string * json)).

Definition message := list (string * json).

(** [d.get(key)] *)
Fixpoint dict_get (key : string) (d : message) : option json :=
  match d with
  | [] => None
  | (k, v) :: rest => if String.eqb k key then Some v else dict_get key rest
  end.

(** Truth value of a Python object. *)
Definition truthy (v : json) : bool :=
  match v with
  | JNone => false
  | JBool b => b
  | JInt n => negb (n =? 0)
  | JFloat t => negb (t =? 0)
  | JStr s => match s with [] => false | _ => true end
  | JDict d => match d with [] => false | _ => true end
  end.

(** [v.strip()]: only strings have the method. *)
Definition py_strip (v : json) : result str :=
  match v with
  | JStr s => Ok (strip s)
  | _ => Raise AttributeError
  end.

(** [str(e)], up to the type name a built-in message mentions. *)
Definition exn_str (e : exn) : str :=
  match e with
  | IndexError => u "string index out of range"
  | AttributeError => u "object has no attribute 'strip'"
  | ConnectionClosed => u "no close frame received or sent"
  | OtherException msg => msg
  end.

Definition nonempty {A} (l : list A) : bool :=
  match l with [] => false | _ => true end.

(** ** [GeminiSummarizer] *)

Record GeminiSummarizer : Type := {
  (** [self.model]: [None], or [generate_content_async(prompt)] followed by
      [response.text] *)
  gemini_model : option (str -> result str)
}.

(** The default prompt of [summarize], by code point. *)
Definition default_prompt : str :=
  [
    10; 20197; 19979; 12398; 25991; 23383; 36215; 12371; 12375; 12486;
    12461; 12473; 12488; 12434; 35201; 32004; 12375; 12390; 12367; 12384;
    12373; 12356; 12290; 10; 10; 35201; 32004; 12398; 12523; 12540; 12523;
    58; 10; 49; 46; 32; 42; 42; 12479; 12452; 12488; 12523; 42; 42; 58; 32;
    31777; 28500; 12391; 20998; 12363; 12426; 12420; 12377; 12356; 12479;
    12452; 12488; 12523; 12434; 26368; 21021; 12398; 34892; 12395; 32; 35;
    32; 12391; 35352; 36617; 10; 50; 46; 32; 42; 42; 27083; 36896; 21270;
    42; 42; 58; 32; 35211; 20986; 12375; 12392; 31623; 26465; 26360; 12365;
    12434; 20351; 12387; 12390; 25972; 29702; 10; 51; 46; 32; 42; 42; 37325;
    35201; 12509; 12452; 12531; 12488; 42; 42; 58; 32; 22826; 25991; 23383;
    40; 42; 42; 116; 101; 120; 116; 42; 42; 41; 12391; 24375; 35519; 10; 52;
    46; 32; 42; 42; 35443; 32048; 24773; 22577; 42; 42; 58; 32; 24517;
    35201; 12395; 24540; 12376; 12390; 12493; 12473; 12488; 12375; 12383;
    31623; 26465; 26360; 12365; 12391; 35443; 32048; 12434; 35352; 36617;
    10; 10; 20986; 21147; 24418; 24335; 12399; 12510; 12540; 12463; 12480;
    12454; 12531; 12391; 12289; 20197; 19979; 12398; 12424; 12358; 12394;
    27083; 36896; 12395; 12375; 12390; 12367; 12384; 12373; 12356; 58; 10;
    10; 35; 32; 91; 36969; 20999; 12394; 12479; 12452; 12488; 12523; 93; 10;
    10; 35; 35; 32; 27010; 35201; 10; 45; 32; 20027; 35201; 12394; 35441;
    38988; 12398; 27010; 35201; 10; 10; 35; 35; 32; 37325; 35201; 12394;
    12509; 12452; 12531; 12488; 10; 45; 32; 42; 42; 37325; 35201; 20107;
    38917; 49; 42; 42; 58; 32; 35443; 32048; 35500; 26126; 10; 32; 32; 32;
    32; 45; 32; 35036; 36275; 24773; 22577; 10; 32; 32; 32; 32; 45; 32;
    20855; 20307; 20363; 10; 45; 32; 42; 42; 37325; 35201; 20107; 38917; 50;
    42; 42; 58; 32; 35443; 32048; 35500; 26126; 10; 10; 35; 35; 32; 32080;
    35542; 12539; 12414; 12392; 12417; 10; 45; 32; 26368; 32066; 30340;
    12394; 32080; 35542; 12420; 12414; 12392; 12417; 10
  ]%N.

(** The text between the prompt and the transcript in [full_prompt]. *)
Definition prompt_separator : str :=
  [10; 10; 25991; 23383; 36215; 12371; 12375; 12486; 12461; 12473; 12488;
   58; 10]%N.

Definition summarize (self : GeminiSummarizer) (text : str)
    (custom_prompt : json) : str :=
  match gemini_model self with
  | None => u "AI summarization not available (API key missing)"
  | Some generate_content =>
      match (stripped <- py_strip custom_prompt ;;
             let custom_prompt :=
               match stripped, custom_prompt with
               | _ :: _, JStr p => p
               | _, _ => default_prompt
               end in
             let full_prompt := custom_prompt ++ prompt_separator ++ text in
             generate_content full_prompt)%result
      with
      | Ok response_text => response_text
      | Raise e => u "Summarization error: " ++ exn_str e
      end
  end.

(** ** [NotionClient], at its boundary *)

Record NotionClient : Type := {
  (** [self.client is not None and self.parent_page_id is not None] *)
  is_available : bool;
  (** title extraction, block conversion and [_create_page]: the page's
      [url] and [title] *)
  create_page : str -> result (str * str)
}.

Definition save_summary (self : NotionClient) (summary_text : str) : json :=
  if negb (is_available self)
  then JDict [("success", JBool false);
              ("message", JStr (u "Notion not configured"))]%string
  else match create_page self summary_text with
       | Ok (url, title) =>
           JDict [("success", JBool true); ("url", JStr url);
                  ("title", JStr title)]%string
       | Raise e =>
           JDict [("success", JBool false);
                  ("message", JStr (exn_str e))]%string
       end.

(** ** The environment of the server *)

Definition client := nat.

Class World : Type := {
  (** [await client.send(json.dumps(message))]: delivered, or the exception
      it raises *)
  socket_send : client -> message -> result unit;
  (** the value of the [n]-th call of [time.time()] *)
  wall_clock : nat -> timestamp
}.

(** ** [WebSocketServer] *)

Section Server.
Context `{Numpy} `{World}.

(** [task_data], the dictionary the queue carries. *)
Record task : Type := {
  task_audio_chunk : list sample;
  task_server_timestamp : timestamp;
  task_queue_id : Z
}.

(** An entry of [full_transcription]. *)
Record TranscriptionRecord : Type := {
  item_text : str;
  item_timestamp : timestamp
}.

Record WebSocketServer : Type := {
  clients : list client;
  audio_buffer : AudioBuffer;
  transcriber : WhisperTranscriber;
  summarizer : GeminiSummarizer;
  notion_client : NotionClient;
  full_transcription : list TranscriptionRecord;
  transcription_queue : list task;
  currently_processing : bool;
  queue_id_counter : Z
}.

Inductive log_line : Type :=
| ClientConnected (c : client)
| ClientDisconnected (c : client)
| TranscriptionHistoryCleared
| SummarizationError (e : exn)
| NotionSaveError (e : exn)
| ProcessingAudioChunk (length : Z)
| AudioDataProcessingError (e : exn)
| TaskAdded (queue_id : Z)
| CompletedTask (queue_id : Z)
| InvalidJSON
| ClientConnectionClosed
| ClientProcessingError (e : exn)
| ProcessingTask (queue_id : Z)
| TranscriptionResult (text : str)
| EmptyTranscription (queue_id : Z)
| TranscriptionError (e : exn)
| QueueWorkerError (e : exn).

(** What the handlers do to the world around them, in the order they do it. *)
Inductive effect : Type :=
| Logged (line : log_line)
| Sent (c : client) (m : message)
| Put (task_data : task)
| Got (task_data : task)
| Submitted (task_data : task)
| Finished (outcome : result str)
| Appended (item : TranscriptionRecord) (queue_id : option Z)
| Cleared
| TaskDone.

(** Where the [queue_worker] coroutine is suspended. *)
Inductive worker_state : Type :=
| Waiting
| Transcribing (task_data : task)
| Stopped.

Record system : Type := {
  server : WebSocketServer;
  worker : worker_state;
  ticks : nat;
  history : list effect
}.

(** *** The monad of the handlers: state and exceptions *)

Definition M (A : Type) : Type := system -> result A * system.

Definition ret {A} (a : A) : M A := fun s => (Ok a, s).

Definition bind {A B} (m : M A) (k : A -> M B) : M B :=
  fun s =>
    match m s with
    | (Ok a, s') => k a s'
    | (Raise e, s') => (Raise e, s')
    end.

Definition raise {A} (e : exn) : M A := fun s => (Raise e, s).

Definition try_except {A} (m : M A) (handler : exn -> M A) : M A :=
  fun s =>
    match m s with
    | (Ok a, s') => (Ok a, s')
    | (Raise e, s') => handler e s'
    end.

Definition self : M WebSocketServer := fun s => (Ok (server s), s).

Definition update (f : WebSocketServer -> WebSocketServer) : M unit :=
  fun s =>
    (Ok tt, {| server := f (server s); worker := worker s;
               ticks := ticks s; history := history s |}).

Definition set_worker (w : worker_state) : M unit :=
  fun s =>
    (Ok tt, {| server := server s; worker := w;
               ticks := ticks s; history := history s |}).

Definition emit (e : effect) : M unit :=
  fun s =>
    (Ok tt, {| server := server s; worker := worker s;
               ticks := ticks s; history := history s ++ [e] |}).

Definition logger (line : log_line) : M unit := emit (Logged line).

Definition time_time : M timestamp :=
  fun s =>
    (Ok (wall_clock (ticks s)),
     {| server := server s; worker := worker s;
        ticks := S (ticks s); history := history s |}).

Definition lift {A} (r : result A) : M A := fun s => (r, s).

End Server.

Declare Scope monad_scope.
Delimit Scope monad_scope with monad.
Notation "x <- m ;; k" := (bind m (fun x => k))
  (at level 61, m at next level, right associativity) : monad_scope.
Notation "m ;;; k" := (bind m (fun _ => k))
  (at level 61, right associativity) : monad_scope.

Section Handlers.
Context `{Numpy} `{World}.
Local Open Scope monad_scope.

(** *** Field assignments *)

Definition set_clients (v : list client) (sv : WebSocketServer) :=
  {| clients := v; audio_buffer := audio_buffer sv;
     transcriber := transcriber sv; summarizer := summarizer sv;
     notion_client := notion_client sv;
     full_transcription := full_transcription sv;
     transcription_queue := transcription_queue sv;
     currently_processing := currently_processing sv;
     queue_id_counter := queue_id_counter sv |}.

Definition set_audio_buffer (v : AudioBuffer) (sv : WebSocketServer) :=
  {| clients := clients sv; audio_buffer := v;
     transcriber := transcriber sv; summarizer := summarizer sv;
     notion_client := notion_client sv;
     full_transcription := full_transcription sv;
     transcription_queue := transcription_queue sv;
     currently_processing := currently_processing sv;
     queue_id_counter := queue_id_counter sv |}.

Definition set_full_transcription (v : list TranscriptionRecord)
    (sv : WebSocketServer) :=
  {| clients := clients sv; audio_buffer := audio_buffer sv;
     transcriber := transcriber sv; summarizer := summarizer sv;
     notion_client := notion_client sv;
     full_transcription := v;
     transcription_queue := transcription_queue sv;
     currently_processing := currently_processing sv;
     queue_id_counter := queue_id_counter sv |}.

Definition set_transcription_queue (v : list task) (sv : WebSocketServer) :=
  {| clients := clients sv; audio_buffer := audio_buffer sv;
     transcriber := transcriber sv; summarizer := summarizer sv;
     notion_client := notion_client sv;
     full_transcription := full_transcription sv;
     transcription_queue := v;
     currently_processing := currently_processing sv;
     queue_id_counter := queue_id_counter sv |}.

Definition set_currently_processing (v : bool) (sv : WebSocketServer) :=
  {| clients := clients sv; audio_buffer := audio_buffer sv;
     transcriber := transcriber sv; summarizer := summarizer sv;
     notion_client := notion_client sv;
     full_transcription := full_transcription sv;
     transcription_queue := transcription_queue sv;
     currently_processing := v;
     queue_id_counter := queue_id_counter sv |}.

Definition set_queue_id_counter (v : Z) (sv : WebSocketServer) :=
  {| clients := clients sv; audio_buffer := audio_buffer sv;
     transcriber := transcriber sv; summarizer := summarizer sv;
     notion_client := notion_client sv;
     full_transcription := full_transcription sv;
     transcription_queue := transcription_queue sv;
     currently_processing := currently_processing sv;
     queue_id_counter := v |}.

(** [self.clients] is a set: [add] and [discard] on a duplicate-free list,
    whose order stands for the set's iteration order. *)
Definition set_add (c : client) (cs : list client) : list client :=
  if existsb (Nat.eqb c) cs then cs else cs ++ [c].

Definition set_discard (c : client) (cs : list client) : list client :=
  filter (fun x => negb (Nat.eqb x c)) cs.

(** *** Connection hub *)

Definition register_client (websocket : client) : M unit :=
  update (fun sv => set_clients (set_add websocket (clients sv)) sv) ;;;
  logger (ClientConnected websocket).

Definition unregister_client (websocket : client) : M unit :=
  update (fun sv => set_clients (set_discard websocket (clients sv)) sv) ;;;
  logger (ClientDisconnected websocket).

(** [await client.send(json.dumps(message, ensure_ascii=False))] *)
Definition send (c : client) (m : message) : M unit :=
  _ <- lift (socket_send c m) ;; emit (Sent c m).

(** The first loop of [broadcast_message]. *)
Fixpoint send_to_each (m : message) (cs : list client)
    (disconnected : list client) : M (list client) :=
  match cs with
  | [] => ret disconnected
  | c :: rest =>
      disconnected <-
        try_except (send c m ;;; ret disconnected)
          (fun e => match e with
                    | ConnectionClosed => ret (disconnected ++ [c])
                    | _ => raise e
                    end) ;;
      send_to_each m rest disconnected
  end.

(** The second loop of [broadcast_message]. *)
Fixpoint discard_each (disconnected : list client) : M unit :=
  match disconnected with
  | [] => ret tt
  | c :: rest =>
      update (fun sv => set_clients (set_discard c (clients sv)) sv) ;;;
      discard_each rest
  end.

Definition broadcast_message (m : message) : M unit :=
  sv <- self ;;
  if negb (nonempty (clients sv)) then ret tt else
  disconnected <- send_to_each m (clients sv) [] ;;
  discard_each disconnected.

Definition finish_transcription_task (queue_id : Z) : M unit :=
  logger (CompletedTask queue_id).

Definition transcription_message (text : str) (server_timestamp : timestamp)
    (client_timestamp : timestamp) (queue_id : option Z) : message :=
  [ ("type", JStr (u "transcription"));
    ("text", JStr text);
    ("server_timestamp", JFloat server_timestamp);
    ("client_timestamp", JFloat client_timestamp) ]%string
  ++ match queue_id with
     | Some q => [("queue_id", JInt q)]%string
     | None => []
     end.

Definition broadcast_transcription (text : str)
    (server_timestamp : option timestamp) (queue_id : option Z) : M unit :=
  sv <- self ;;
  (if nonempty (clients sv) && nonempty (strip text)
   then
     server_timestamp <-
       match server_timestamp with
       | None => time_time
       | Some t => ret t
       end ;;
     let item := {| item_text := text; item_timestamp := server_timestamp |} in
     update (fun sv =>
       set_full_transcription (full_transcription sv ++ [item]) sv) ;;;
     emit (Appended item queue_id) ;;;
     client_timestamp <- time_time ;;
     broadcast_message
       (transcription_message text server_timestamp client_timestamp queue_id)
   else ret tt) ;;;
  match queue_id with
  | Some q => finish_transcription_task q
  | None => ret tt
  end.

Definition joined_transcription (sv : WebSocketServer) : str :=
  join_space (map item_text (full_transcription sv)).

Definition send_full_transcription (websocket : client) : M unit :=
  sv <- self ;;
  let full_text := joined_transcription sv in
  let m := [ ("type", JStr (u "full_transcription"));
             ("text", JStr full_text);
             ("count", JInt (len (full_transcription sv))) ]%string in
  try_except (send websocket m)
    (fun e => match e with
              | ConnectionClosed => ret tt
              | _ => raise e
              end).

Definition clear_transcription : M unit :=
  update (set_full_transcription []) ;;;
  emit Cleared ;;;
  logger TranscriptionHistoryCleared.

Definition summary_failure (text : str) : message :=
  [ ("type", JStr (u "summary_result"));
    ("success", JBool false);
    ("message", JStr text) ]%string.

Definition summary_response (summary : str) (notion_result : json) : message :=
  [ ("type", JStr (u "summary_result"));
    ("success", JBool true);
    ("summary", JStr summary);
    ("notion_result", notion_result) ]%string.

Definition summary_processing_notice : message :=
  [ ("type", JStr (u "summary_processing"));
    ("message", JStr (u "AI summarization in progress...")) ]%string.

Definition notion_processing_notice : message :=
  [ ("type", JStr (u "notion_processing"));
    ("message", JStr (u "Saving to Notion...")) ]%string.

Definition handle_summarize_request (websocket : client)
    (custom_prompt client_text : json) : M unit :=
  try_except
    (sv <- self ;;
     use_client_text <-
       (if truthy client_text
        then stripped <- lift (py_strip client_text) ;; ret (nonempty stripped)
        else ret false) ;;
     let full_text :=
       match use_client_text, client_text with
       | true, JStr t => t
       | _, _ => joined_transcription sv
       end in
     if negb (nonempty (strip full_text))
     then send websocket
            (summary_failure (u "No text available for summarization."))
     else
       send websocket summary_processing_notice ;;;
       let summary := summarize (summarizer sv) full_text custom_prompt in
       notion_result <-
         (if is_available (notion_client sv)
          then
            try_except
              (send websocket notion_processing_notice ;;;
               ret (save_summary (notion_client sv) summary))
              (fun e =>
                 logger (NotionSaveError e) ;;;
                 ret (JDict [ ("success", JBool false);
                              ("message", JStr (exn_str e)) ]%string))
          else ret JNone) ;;
       send websocket (summary_response summary notion_result))
    (fun e =>
       logger (SummarizationError e) ;;;
       send websocket (summary_failure (exn_str e))).

(** *** Transcription queue *)

Definition queue_status_message (pending_tasks : Z) (processing : bool)
    (now : timestamp) : message :=
  let total_tasks := pending_tasks + (if processing then 1 else 0) in
  [ ("type", JStr (u "queue_status"));
    ("processing_count", JInt total_tasks);
    ("pending_count", JInt pending_tasks);
    ("currently_processing", JBool processing);
    ("timestamp", JFloat now) ]%string.

Definition broadcast_queue_status : M unit :=
  sv <- self ;;
  let pending_tasks := len (transcription_queue sv) in
  now <- time_time ;;
  broadcast_message
    (queue_status_message pending_tasks (currently_processing sv) now).

Definition add_transcription_task (audio_chunk : list sample)
    (server_timestamp : timestamp) (queue_id : Z) : M unit :=
  let task_data := {| task_audio_chunk := audio_chunk;
                      task_server_timestamp := server_timestamp;
                      task_queue_id := queue_id |} in
  update (fun sv =>
    set_transcription_queue (transcription_queue sv ++ [task_data]) sv) ;;;
  emit (Put task_data) ;;;
  logger (TaskAdded queue_id).

(** [audio_data] is the frame after [np.frombuffer]. *)
Definition handle_audio_data (audio_data : list sample) : M unit :=
  try_except
    (sv <- self ;;
     let '(buffer, audio_chunk) := add_audio (audio_buffer sv) audio_data in
     update (set_audio_buffer buffer) ;;;
     match audio_chunk with
     | Some audio_chunk =>
         server_timestamp <- time_time ;;
         logger (ProcessingAudioChunk (len audio_chunk)) ;;;
         update (fun sv => set_queue_id_counter (queue_id_counter sv + 1) sv) ;;;
         sv <- self ;;
         let queue_id := queue_id_counter sv in
         add_transcription_task audio_chunk server_timestamp queue_id ;;;
         broadcast_queue_status
     | None => ret tt
     end)
    (fun e => logger (AudioDataProcessingError e)).

(** *** [handle_client] *)

Inductive inbound : Type :=
| Binary (audio_data : list sample)
| Text (data : json)
| Malformed.

(** The body of the [async for] loop. *)
Definition on_message (websocket : client) (m : inbound) : M unit :=
  match m with
  | Binary audio_data => handle_audio_data audio_data
  | Malformed => logger InvalidJSON
  | Text (JDict data) =>
      let message_type := dict_get "type" data in
      let default v := match v with Some x => x | None => JStr [] end in
      match message_type with
      | Some (JStr t) =>
          if str_eqb t (u "ping")
          then send websocket [("type", JStr (u "pong"))]%string
          else if str_eqb t (u "get_full_transcription")
          then send_full_transcription websocket
          else if str_eqb t (u "summarize")
          then handle_summarize_request websocket
                 (default (dict_get "prompt" data))
                 (default (dict_get "text" data))
          else if str_eqb t (u "clear_transcription")
          then clear_transcription ;;;
               broadcast_message
                 [ ("type", JStr (u "transcription_cleared"));
                   ("message", JStr (u "Transcription history cleared")) ]%string
          else ret tt
      | _ => ret tt
      end
  | Text _ => raise AttributeError
  end.

(** One message of one connection; an exception ends the connection's
    handler, whose [finally] unregisters it. *)
Definition receive (websocket : client) (m : inbound) : M unit :=
  try_except (on_message websocket m)
    (fun e =>
       logger (match e with
               | ConnectionClosed => ClientConnectionClosed
               | _ => ClientProcessingError e
               end) ;;;
       unregister_client websocket).

(** *** [queue_worker] *)

(** The handler of the outer [try] of the loop body. *)
Definition worker_recover (e : exn) : M unit :=
  logger (QueueWorkerError e) ;;;
  update (set_currently_processing false) ;;;
  broadcast_queue_status.

(** From [transcription_queue.get()] to the point where the engine call is
    awaited. *)
Definition worker_take : M unit :=
  sv <- self ;;
  match transcription_queue sv with
  | [] => ret tt
  | task_data :: rest =>
      try_except
        (update (set_transcription_queue rest) ;;;
         emit (Got task_data) ;;;
         logger (ProcessingTask (task_queue_id task_data)) ;;;
         update (set_currently_processing true) ;;;
         broadcast_queue_status ;;;
         emit (Submitted task_data) ;;;
         set_worker (Transcribing task_data))
        (fun e =>
           try_except (worker_recover e ;;; set_worker Waiting)
             (fun e' => set_worker Stopped ;;; raise e'))
  end.

(** From the completion of the engine call to the end of the loop body. *)
Definition worker_resume (task_data : task) (outcome : result str) : M unit :=
  emit (Finished outcome) ;;;
  try_except
    (try_except
       (text <- lift outcome ;;
        if nonempty text && nonempty (strip text)
        then logger (TranscriptionResult text) ;;;
             broadcast_transcription text
               (Some (task_server_timestamp task_data))
               (Some (task_queue_id task_data))
        else logger (EmptyTranscription (task_queue_id task_data)))
       (fun e => logger (TranscriptionError e)) ;;;
     update (set_currently_processing false) ;;;
     broadcast_queue_status ;;;
     emit TaskDone ;;;
     set_worker Waiting)
    (fun e =>
       try_except (worker_recover e ;;; set_worker Waiting)
         (fun e' => set_worker Stopped ;;; raise e')).

(** *** The server as a transition system

    The event loop runs one coroutine at a time.  A handler is taken to run
    to completion once it has started (a [send] suspends only when the
    socket's buffer is full); the worker, however, is suspended for the whole
    engine call, and connections are served meanwhile: its loop body is split
    at that [await]. *)

Inductive event : Type :=
| Connect (c : client)
| Receive (c : client) (m : inbound)
| Disconnect (c : client)
| WorkerTakes
| EngineReturns (outcome : result str).

Definition handle (ev : event) : M unit :=
  match ev with
  | Connect c => register_client c
  | Receive c m => receive c m
  | Disconnect c => unregister_client c
  | WorkerTakes =>
      fun s => match worker s with
               | Waiting => worker_take s
               | _ => (Ok tt, s)
               end
  | EngineReturns outcome =>
      fun s => match worker s with
               | Transcribing task_data => worker_resume task_data outcome s
               | _ => (Ok tt, s)
               end
  end.

Definition step (s : system) (ev : event) : system := snd (handle ev s).

Definition run (s : system) (evs : list event) : system :=
  fold_left step evs s.

(** [WebSocketServer.__init__] followed by [start_server]. *)
Definition start (audio_buffer : AudioBuffer) (transcriber : WhisperTranscriber)
    (summarizer : GeminiSummarizer) (notion_client : NotionClient) : system :=
  {| server := {| clients := [];
                  audio_buffer := audio_buffer;
                  transcriber := transcriber;
                  summarizer := summarizer;
                  notion_client := notion_client;
                  full_transcription := [];
                  transcription_queue := [];
                  currently_processing := false;
                  queue_id_counter := 0 |};
     worker := Waiting;
     ticks := 0;
     history := [] |}.

(** The engine outcome the real transcriber produces for a task. *)
Definition engine_outcome (sv : WebSocketServer) (task_data : task)
  : result str :=
  Ok (transcribe (transcriber sv) (task_audio_chunk task_data)).

End Handlers.

(** ** Observations on a history *)

Section Observations.
Context `{Numpy}.

(** Tasks in the order they were put on the queue. *)
Definition puts (h : list effect) : list task :=
  flat_map (fun e => match e with Put t => [t] | _ => [] end) h.

(** Tasks in the order the worker took them off the queue. *)
Definition gots (h : list effect) : list task :=
  flat_map (fun e => match e with Got t => [t] | _ => [] end) h.

(** The [queue_id]s under which entries were appended to the transcript. *)
Definition appended_ids (h : list effect) : list Z :=
  flat_map (fun e => match e with Appended _ (Some q) => [q] | _ => [] end) h.

(** The transcript that the appends and clears of a history leave behind. *)
Definition replay (log : list TranscriptionRecord) (h : list effect)
  : list TranscriptionRecord :=
  fold_left (fun log e => match e with
                          | Appended item _ => log ++ [item]
                          | Cleared => []
                          | _ => log
                          end) h log.

(** Whether an engine call is pending after a history. *)
Definition busy_after (busy : bool) (h : list effect) : bool :=
  fold_left (fun busy e => match e with
                           | Submitted _ => true
                           | Finished _ => false
                           | _ => busy
                           end) h busy.

(** Engine calls never overlap: a call is submitted only when none is
    pending, and only a pending call finishes. *)
Fixpoint serial (busy : bool) (h : list effect) : Prop :=
  match h with
  | [] => True
  | Submitted _ :: rest => busy = false /\ serial true rest
  | Finished _ :: rest => busy = true /\ serial false rest
  | _ :: rest => serial busy rest
  end.

(** The messages delivered to one client, in order. *)
Definition delivered_to (c : client) (h : list effect) : list message :=
  flat_map (fun e => match e with
                     | Sent c' m => if Nat.eqb c' c then [m] else []
                     | _ => []
                     end) h.

End Observations.

Inductive subseq {A : Type} : list A -> list A -> Prop :=
| subseq_nil : subseq [] []
| subseq_skip : forall x l l', subseq l l' -> subseq l (x :: l')
| subseq_keep : forall x l l', subseq l l' -> subseq (x :: l) (x :: l').

(** Whether [send] delivers [m] to [c]. *)
Definition delivers `{World} (m : message) (c : client) : bool :=
  match socket_send c m with
  | Ok _ => true
  | Raise _ => false
  end.

(** A connection on which [send] fails only because the peer has closed. *)
Definition closes_only `{World} (m : message) (c : client) : Prop :=
  forall e, socket_send c m = Raise e -> e = ConnectionClosed.

(** The relation a [queue_status] message keeps between its fields. *)
Definition status_consistent (m : message) : Prop :=
  dict_get "type" m = Some (JStr (u "queue_status")) ->
  exists pending processing,
    dict_get "pending_count" m = Some (JInt pending)
    /\ dict_get "currently_processing" m = Some (JBool processing)
    /\ dict_get "processing_count" m
       = Some (JInt (pending + if processing then 1 else 0))
    /\ 0 <= pending.

(** ** Concrete instances, for evaluating the model *)

(** Exact arithmetic: a sample is a multiple of 1/10000, and a level is
    represented by its square ([None] is not-a-number), which preserves the
    order of non-negative levels. *)
Definition sum_squares (xs : list Z) : Z :=
  fold_right (fun x acc => x * x + acc) 0 xs.

Definition exact_rms (xs : list Z) : option Q :=
  match xs with
  | [] => None
  | _ => Some (sum_squares xs # Z.to_pos (len xs * 100000000))
  end.

Definition exact_flt (a b : option Q) : bool :=
  match a, b with
  | Some x, Some y => negb (Qle_bool y x)
  | _, _ => false
  end.

#[global] Instance exact_numpy : Numpy :=
  {| sample := Z; level := option Q; rms := exact_rms; flt := exact_flt |}.

(** The buffer [main.py] builds: thresholds 0.01 and 0.005, squared. *)
Definition configured_audio_buffer : AudioBuffer :=
  new_AudioBuffer 16000 (Some (1 # 10000)) (7 # 10) (Some (1 # 40000)) 30.

(** The same thresholds at ten samples per second. *)
Definition small_audio_buffer : AudioBuffer :=
  new_AudioBuffer 10 (Some (1 # 10000)) (7 # 10) (Some (1 # 40000)) 30.

(** A network in which connection 1 has been closed by its peer. *)
#[global] Instance sample_world : World :=
  {| socket_send := fun c _ =>
       match c with
       | 1%nat => Raise ConnectionClosed
       | _ => Ok tt
       end;
     wall_clock := fun n => 1700000000 + Z.of_nat n |}.

(** An engine that hears "hello world" in every chunk. *)
Definition sample_transcriber : WhisperTranscriber :=
  configured_transcriber (fun _ => Ok [u " hello"; u " world"]).

(** A summarizer whose model fails, and one without a model. *)
Definition failing_summarizer : GeminiSummarizer :=
  {| gemini_model := Some (fun _ => Raise (OtherException (u "quota exceeded"))) |}.

Definition absent_notion : NotionClient :=
  {| is_available := false; create_page := fun _ => Raise (OtherException []) |}.


Definition sample_system : system :=
  start small_audio_buffer sample_transcriber failing_summarizer absent_notion.

(** Half a second of speech at level 0.5, then 0.7 s of digital silence. *)
Definition speech : list Z := repeat 5000 5.
Definition silence : list Z := repeat 0 7.

(** The buffer after the half second of speech. *)
Definition small_after_speech : AudioBuffer :=
  fst (add_audio small_audio_buffer speech).

(** Thirty seconds of speech at 16 kHz, and a little more of silence. *)
Definition thirty_seconds_of_speech : list Z := repeat 5000 (Z.to_nat 480000).
Definition long_silence : list Z := repeat 0 (Z.to_nat 480001).

(** A viewer connects and streams one utterance; the worker has taken the
    task and awaits the engine. *)
Definition first_utterance : list event :=
  [ Connect 7%nat; Receive 7%nat (Binary speech);
    Receive 7%nat (Binary silence); WorkerTakes ].

Definition listening : system := run sample_system first_utterance.

Definition first_task : task :=
  {| task_audio_chunk := speech ++ silence;
     task_server_timestamp := 1700000000;
     task_queue_id := 1 |}.

(** The same, but the viewer has left before the engine returns. *)
Definition abandoned : system := step listening (Disconnect 7%nat).

(** Three viewers, the second of which has closed its connection. *)
Definition three_viewers : system :=
  run sample_system [Connect 0%nat; Connect 1%nat; Connect 3%nat].

Definition cleared_notice : message :=
  [ ("type", JStr (u "transcription_cleared"));
    ("message", JStr (u "Transcription history cleared")) ]%string.

(** A summarizer whose model answers, and a server around it. *)
Definition working_summarizer : GeminiSummarizer :=
  {| gemini_model := Some (fun _ => Ok (u "# Notes")) |}.

Definition summarizing_system : system :=
  start small_audio_buffer sample_transcriber working_summarizer absent_notion.


(** ** Reasoning vocabulary *)

Section Vocabulary.
Context `{Numpy} `{World}.

(** Effects that only talk: log lines, and messages that keep the
    [queue_status] relation. *)
Definition chatter (e : effect) : Prop :=
  match e with
  | Logged _ => True
  | Sent _ m => status_consistent m
  | _ => False
  end.

(** The system after some talking: the set of clients, the clock and the
    history moved on, everything else stayed. *)
Definition after_talk (s : system) (cs : list client) (n : nat)
    (l : list effect) : system :=
  {| server := set_clients cs (server s);
     worker := worker s;
     ticks := n + ticks s;
     history := history s ++ l |}.

Definition talk_only {A} (m : M A) : Prop :=
  forall s, exists cs n l,
    snd (m s) = after_talk s cs n l /\ Forall chatter l.

(** Postconditions of a handler run from [s], on its result and final
    state. *)
Definition post {A} (m : M A) (s : system)
    (P : result A -> system -> Prop) : Prop :=
  P (fst (m s)) (snd (m s)).

Definition in_flight (w : worker_state) : list task :=
  match w with
  | Transcribing task_data => [task_data]
  | _ => []
  end.

Definition is_busy (w : worker_state) : bool :=
  match w with
  | Transcribing _ => true
  | _ => false
  end.

(** The engine call raised, or returned no usable text. *)
Definition no_text (outcome : result str) : Prop :=
  match outcome with
  | Raise _ => True
  | Ok text => nonempty text && nonempty (strip text) = false
  end.

(** What the worker logs in that case. *)
Definition failure_line (task_data : task) (outcome : result str) : log_line :=
  match outcome with
  | Raise e => TranscriptionError e
  | Ok _ => EmptyTranscription (task_queue_id task_data)
  end.

(** What every reachable state of the server satisfies. *)
Record invariant (s : system) : Prop := {
  inv_fifo :
    puts (history s) = gots (history s) ++ transcription_queue (server s);
  inv_ids :
    map task_queue_id (puts (history s))
    = map Z.of_nat (seq 1 (List.length (puts (history s))));
  inv_counter :
    queue_id_counter (server s) = Z.of_nat (List.length (puts (history s)));
  inv_log :
    full_transcription (server s) = replay [] (history s);
  inv_serial :
    serial false (history s);
  inv_busy :
    busy_after false (history s) = is_busy (worker s);
  inv_appended :
    exists settled,
      gots (history s) = settled ++ in_flight (worker s)
      /\ subseq (appended_ids (history s)) (map task_queue_id settled);
  inv_status :
    forall c m, In (Sent c m) (history s) -> status_consistent m
}.

End Vocabulary.

(** ** The language of a pattern *)

(** [matches r t]: the text [t] belongs to the language of [r]. *)
Inductive matches : regex -> str -> Prop :=
| matches_eps : matches Eps []
| matches_cls : forall (p : char -> bool) (c : char),
    p c = true -> matches (Cls p) [c]
| matches_cat : forall (r s : regex) (t t' : str),
    matches r t -> matches s t' -> matches (Cat r s) (t ++ t')
| matches_alt_l : forall (r s : regex) (t : str),
    matches r t -> matches (Alt r s) t
| matches_alt_r : forall (r s : regex) (t : str),
    matches s t -> matches (Alt r s) t
| matches_star_nil : forall (r : regex), matches (Star r) []
| matches_star_more : forall (r : regex) (t t' : str),
    matches r t -> matches (Star r) t' -> matches (Star r) (t ++ t').

(** A text is clean when [strip] has nothing to remove from it. *)
Definition clean (t : str) : Prop := lstrip t = t /\ lstrip (rev t) = rev t.

(** ** Further vocabulary for the server *)

Section ServerVocabulary.
Context `{Numpy} `{World}.

(** The reply that [send_full_transcription] builds from a server. *)
Definition full_transcription_message (sv : WebSocketServer) : message :=
  [ ("type", JStr (u "full_transcription"));
    ("text", JStr (joined_transcription sv));
    ("count", JInt (len (full_transcription sv))) ]%string.

(** A system with another history. *)
Definition with_history (s : system) (h : list effect) : system :=
  {| server := server s; worker := worker s; ticks := ticks s; history := h |}.

(** A system after the connection handler of [c] has ended. *)
Definition disconnected (s : system) (c : client) (lines : list effect)
  : system :=
  {| server := set_clients (set_discard c (clients (server s))) (server s);
     worker := worker s;
     ticks := ticks s;
     history := history s ++ lines ++ [Logged (ClientDisconnected c)] |}.

(** The [type] of a control message is none of the four the server knows. *)
Definition unknown_type (data : message) : Prop :=
  match dict_get "type" data with
  | Some (JStr t) =>
      str_eqb t (u "ping") = false
      /\ str_eqb t (u "get_full_transcription") = false
      /\ str_eqb t (u "summarize") = false
      /\ str_eqb t (u "clear_transcription") = false
  | _ => True
  end.


End ServerVocabulary.

(** The answer to a [ping]. *)
Definition pong : message := [("type", JStr (u "pong"))]%string.

(** A control message with only a [type]. *)
Definition request (message_type : string) : message :=
  [("type", JStr (u message_type))]%string.

(** ** Vocabulary for the set of clients *)

Section HubVocabulary.
Context `{Numpy} `{World}.

(** A handler that registers nobody: the clients it leaves are among those
    it found, in the same order. *)
Definition keeps_hub {A} (m : M A) : Prop :=
  forall s, subseq (clients (server (snd (m s)))) (clients (server s)).

(** Among the events [evs], connection [c] was opened and has not been
    ended by its peer since. *)
Definition still_connected (c : client) (evs : list event) : Prop :=
  exists before after,
    evs = before ++ Connect c :: after /\ ~ In (Disconnect c) after.

End HubVocabulary.

(** ** [NotionClient._extract_title_from_summary] *)

(** [t.startswith(p)] *)
Fixpoint startswith (p t : str) : bool :=
  match p, t with
  | [], _ => true
  | x :: p', y :: t' => (x =? y)%N && startswith p' t'
  | _ :: _, [] => false
  end.

(** [p in t], for strings *)
Fixpoint contains (p t : str) : bool :=
  startswith p t
  || match t with
     | [] => false
     | _ :: t' => contains p t'
     end.

(** [t.replace(old, "")], left to right; [skip] characters of the occurrence
    just found are still to be dropped. *)
Fixpoint remove_from (old : str) (skip : nat) (t : str) : str :=
  match t with
  | [] => []
  | c :: t' =>
      match skip with
      | S k => remove_from old k t'
      | O =>
          if startswith old t
          then remove_from old (List.length old - 1) t'
          else c :: remove_from old 0 t'
      end
  end.

Definition remove (old t : str) : str :=
  match old with
  | [] => t
  | _ => remove_from old 0 t
  end.

(** [t.split("\n")] *)
Fixpoint split_lines (t : str) : list str :=
  match t with
  | [] => [[]]
  | c :: t' =>
      if (c =? 10)%N then [] :: split_lines t'
      else match split_lines t' with
           | line :: lines => (c :: line) :: lines
           | [] => [[c]]
           end
  end.

(** [t.lstrip(chars)] and [t.rstrip(chars)] *)
Fixpoint lstrip_chars (chars t : str) : str :=
  match t with
  | c :: t' => if existsb (N.eqb c) chars then lstrip_chars chars t' else t
  | [] => []
  end.

Definition rstrip_chars (chars t : str) : str :=
  rev (lstrip_chars chars (rev t)).

(** The literals of the function, by code point where they are not ASCII. *)
Definition katakana_title : str := [12479; 12452; 12488; 12523]%N.

Definition generic_titles : list str :=
  [ [12414; 12392; 12417]%N; u "Summary"; [35201; 32004]%N;
    u "Transcription"; [25991; 23383; 36215; 12371; 12375]%N; u "Content" ].

Definition skip_patterns : list str :=
  [ [20197; 19979]%N; u "following"; u "Rules"; [12523; 12540; 12523]%N;
    u "Template"; [12486; 12531; 12503; 12524; 12540; 12488]%N;
    [20966; 29702]%N; u "process" ].

Definition end_punctuation : str :=
  [12290; 65281; 65311; 46; 33; 63; 58; 65306]%N.

(** The clean-up of a heading line: [line[2:].strip()] and the four
    [replace ... strip] statements. *)
Definition clean_heading (line : str) : str :=
  let title := strip (skipn 2 line) in
  let title := strip (remove (u "Title") (remove katakana_title title)) in
  let title := strip (remove [65306%N] (remove (u ":") title)) in
  let title := strip (remove (u ">") (remove (u "<") title)) in
  strip (remove (katakana_title ++ [21517%N]) title).

(** The [for] loop over the lines; [continue] and the end of the body are the
    recursive call. *)
Fixpoint extract_title_loop (lines : list str) : option str :=
  match lines with
  | [] => None
  | line :: rest =>
      let line := strip line in
      if negb (nonempty line) then extract_title_loop rest else
      let plain_line :=
        if negb (startswith (u "#") line) && negb (startswith (u "*") line)
           && negb (startswith (u "-") line)
        then
          if existsb (fun pattern => contains pattern line) skip_patterns
          then extract_title_loop rest
          else if (len line >? 5) && (len line <? 80)
               then let title := rstrip_chars end_punctuation line in
                    if nonempty title then Some title
                    else extract_title_loop rest
               else extract_title_loop rest
        else extract_title_loop rest in
      if startswith (u "# ") line
      then
        let title := clean_heading line in
        if existsb (fun generic => contains generic title) generic_titles
        then extract_title_loop rest
        else if nonempty title && (len title >? 2) && (len title <? 100)
             then Some title
             else plain_line
      else plain_line
  end.

(** [None] is [None]; the title otherwise. *)
Definition _extract_title_from_summary (summary_text : str) : option str :=
  extract_title_loop (split_lines summary_text).

(* ================================================================== *)
(** * Part II.  Properties                                             *)
(* ================================================================== *)

Unset Implicit Arguments.

(** ** Lists, ranges, indexing *)

Lemma len_app {A} (l l' : list A) : len (l ++ l') = len l + len l'.
Proof. unfold len. rewrite length_app. lia. Qed.

Lemma len_nonneg {A} (l : list A) : 0 <= len l.
Proof. unfold len. lia. Qed.

Lemma len_repeat {A} (x : A) (n : nat) : len (repeat x n) = Z.of_nat n.
Proof. unfold len. now rewrite repeat_length. Qed.

Lemma in_range (n i : Z) : In i (range n) <-> 0 <= i < n.
Proof.
  unfold range. rewrite in_map_iff. split.
  - intros (k & <- & Hk). apply in_seq in Hk. lia.
  - intros Hi. exists (Z.to_nat i). split; [lia|]. apply in_seq. lia.
Qed.

Lemma in_range2 (a b j : Z) : In j (range2 a b) <-> a <= j < b.
Proof.
  unfold range2. rewrite in_map_iff. split.
  - intros (k & <- & Hk). apply in_range in Hk. lia.
  - intros Hj. exists (j - a). split; [lia|]. apply in_range. lia.
Qed.

Lemma getitem_inside {A} (d : A) (l : list A) (i : Z) :
  0 <= i < len l -> getitem d l i = Ok (nth (Z.to_nat i) l d).
Proof.
  intros Hi. unfold getitem.
  destruct (i <? 0) eqn:Hneg; [apply Z.ltb_lt in Hneg; lia|].
  destruct (0 <=? i) eqn:H0; [|apply Z.leb_gt in H0; lia].
  destruct (i <? len l) eqn:H1; [|apply Z.ltb_ge in H1; lia].
  reflexivity.
Qed.

Lemma str_eqb_refl (a : str) : str_eqb a a = true.
Proof. induction a; simpl; [reflexivity|]. now rewrite N.eqb_refl. Qed.

(** ** The segmenter *)

Section SegmenterFacts.
Context `{Numpy}.

(** The silence rule of [add_audio], once its two thresholds are met. *)
Lemma add_audio_silence_rule (self : AudioBuffer) (audio_data : list sample) :
  let count := if flt (rms audio_data) (silence_threshold self)
               then current_silence_count self + len audio_data else 0 in
  let chunk := audio_chunk self ++ audio_data in
  silence_frames self <= count ->
  min_chunk_length self <= len chunk ->
  add_audio self audio_data =
    if flt (min_audio_level self) (rms chunk)
    then (with_buffer self [] 0, Some chunk)
    else force_split (with_buffer self [] 0).
Proof.
  intros count chunk Hcount Hlen. unfold add_audio. cbn [current_silence_count
    audio_chunk silence_frames min_chunk_length min_audio_level with_buffer].
  fold count. fold chunk.
  replace (count >=? silence_frames self) with true
    by (symmetry; apply Z.geb_le; lia).
  replace (len chunk >=? min_chunk_length self) with true
    by (symmetry; apply Z.geb_le; lia).
  reflexivity.
Qed.

(** When the silence rule does not apply, only the forced split remains. *)
Lemma add_audio_no_silence_rule (self : AudioBuffer) (audio_data : list sample) :
  let count := if flt (rms audio_data) (silence_threshold self)
               then current_silence_count self + len audio_data else 0 in
  let chunk := audio_chunk self ++ audio_data in
  count < silence_frames self \/ len chunk < min_chunk_length self ->
  add_audio self audio_data = force_split (with_buffer self chunk count).
Proof.
  intros count chunk Hno. unfold add_audio. cbn [current_silence_count
    audio_chunk silence_frames min_chunk_length min_audio_level with_buffer].
  fold count. fold chunk.
  destruct Hno as [Hc | Hl].
  - replace (count >=? silence_frames self) with false; [reflexivity|].
    symmetry. rewrite Z.geb_leb. apply Z.leb_gt. lia.
  - replace (len chunk >=? min_chunk_length self) with false;
      [now rewrite andb_false_r|].
    symmetry. rewrite Z.geb_leb. apply Z.leb_gt. lia.
Qed.

Lemma force_split_empty (self : AudioBuffer) :
  0 <= sample_rate self * max_audio_chunk_duration self ->
  force_split (with_buffer self [] 0) = (with_buffer self [] 0, None).
Proof.
  intros Hmax. unfold force_split. cbn [audio_chunk sample_rate
    max_audio_chunk_duration with_buffer].
  change (len (@nil sample)) with 0.
  destruct (0 >? sample_rate self * max_audio_chunk_duration self) eqn:E;
    [|reflexivity].
  apply Z.gtb_lt in E. lia.
Qed.

Lemma force_split_over (self : AudioBuffer) (chunk : list sample) (count : Z) :
  sample_rate self * max_audio_chunk_duration self < len chunk ->
  force_split (with_buffer self chunk count) = (with_buffer self [] 0, Some chunk).
Proof.
  intros Hover. unfold force_split. cbn [audio_chunk sample_rate
    max_audio_chunk_duration with_buffer].
  replace (len chunk >? sample_rate self * max_audio_chunk_duration self)
    with true; [reflexivity|].
  symmetry. apply Z.gtb_lt. lia.
Qed.

Lemma force_split_within (self : AudioBuffer) :
  len (audio_chunk self) <= sample_rate self * max_audio_chunk_duration self ->
  force_split self = (self, None).
Proof.
  intros Hin. unfold force_split.
  replace (len (audio_chunk self) >?
           sample_rate self * max_audio_chunk_duration self) with false;
    [reflexivity|].
  symmetry. rewrite Z.gtb_ltb. apply Z.ltb_ge. lia.
Qed.

(** C6.  When the silence run has reached [silence_frames] and the buffer
    holds at least [min_chunk_length] samples, [add_audio] empties the buffer,
    zeroes the counter, and returns the whole accumulated buffer if its level
    exceeds [min_audio_level], and nothing otherwise.  The maximum chunk
    length is assumed not to be negative. *)
Theorem add_audio_silence_boundary (self : AudioBuffer)
    (audio_data : list sample) :
  let count := if flt (rms audio_data) (silence_threshold self)
               then current_silence_count self + len audio_data else 0 in
  let chunk := audio_chunk self ++ audio_data in
  silence_frames self <= count ->
  min_chunk_length self <= len chunk ->
  0 <= sample_rate self * max_audio_chunk_duration self ->
  add_audio self audio_data =
    (with_buffer self [] 0,
     if flt (min_audio_level self) (rms chunk) then Some chunk else None)
  /\ audio_chunk (fst (add_audio self audio_data)) = []
  /\ current_silence_count (fst (add_audio self audio_data)) = 0.
Proof.
  intros count chunk Hcount Hlen Hmax.
  assert (E : add_audio self audio_data =
    (with_buffer self [] 0,
     if flt (min_audio_level self) (rms chunk) then Some chunk else None)).
  { rewrite add_audio_silence_rule by assumption. fold chunk.
    destruct (flt (min_audio_level self) (rms chunk)); [reflexivity|].
    now apply force_split_empty. }
  rewrite E. repeat split.
Qed.

(** C7, as the code has it.  Let [chunk] be the accumulated buffer, the
    batch included, and let the silence rule apply when the silence run has
    reached [silence_frames] and [chunk] holds at least [min_chunk_length]
    samples.
    - When [chunk] is strictly longer than
      [sample_rate * max_audio_chunk_duration] samples, [add_audio] returns
      the whole of it and resets buffer and counter, whatever the silence
      run, unless the silence rule applies in the same call to a buffer whose
      level does not exceed [min_audio_level];
    - in that case the buffer is discarded and nothing is returned (the
      maximum not being negative);
    - when [chunk] is not longer than the maximum (in particular when it has
      exactly the maximum length) there is no forced split: if the silence
      rule does not apply in this call, buffer and counter are kept and
      nothing is returned;
    - if it does apply, buffer and counter are reset, and the whole buffer is
      returned when its level exceeds [min_audio_level] and discarded
      otherwise. *)
Theorem add_audio_forced_split (self : AudioBuffer) (audio_data : list sample) :
  let count := if flt (rms audio_data) (silence_threshold self)
               then current_silence_count self + len audio_data else 0 in
  let chunk := audio_chunk self ++ audio_data in
  let max_chunk_length := sample_rate self * max_audio_chunk_duration self in
  (max_chunk_length < len chunk ->
   (silence_frames self <= count -> min_chunk_length self <= len chunk ->
    flt (min_audio_level self) (rms chunk) = true) ->
   add_audio self audio_data = (with_buffer self [] 0, Some chunk))
  /\ (max_chunk_length < len chunk ->
      0 <= max_chunk_length ->
      silence_frames self <= count -> min_chunk_length self <= len chunk ->
      flt (min_audio_level self) (rms chunk) = false ->
      add_audio self audio_data = (with_buffer self [] 0, None))
  /\ (len chunk <= max_chunk_length ->
      count < silence_frames self \/ len chunk < min_chunk_length self ->
      add_audio self audio_data = (with_buffer self chunk count, None))
  /\ (len chunk <= max_chunk_length ->
      silence_frames self <= count -> min_chunk_length self <= len chunk ->
      add_audio self audio_data
      = (with_buffer self [] 0,
         if flt (min_audio_level self) (rms chunk) then Some chunk else None)).
Proof.
  intros count chunk max_chunk_length. split; [|split; [|split]].
  - intros Hover Hlevel.
    destruct (Z_lt_le_dec count (silence_frames self)) as [Hc | Hc].
    { rewrite add_audio_no_silence_rule by (left; exact Hc).
      now apply force_split_over. }
    destruct (Z_lt_le_dec (len chunk) (min_chunk_length self)) as [Hl | Hl].
    { rewrite add_audio_no_silence_rule by (right; exact Hl).
      now apply force_split_over. }
    rewrite add_audio_silence_rule by assumption.
    fold chunk. now rewrite (Hlevel Hc Hl).
  - intros _ Hmax Hc Hl Hlow.
    rewrite add_audio_silence_rule by assumption.
    fold chunk. rewrite Hlow. now apply force_split_empty.
  - intros Hin Hno.
    rewrite add_audio_no_silence_rule by exact Hno.
    now apply force_split_within.
  - intros Hin Hc Hl.
    rewrite add_audio_silence_rule by assumption. fold chunk.
    destruct (flt (min_audio_level self) (rms chunk)); [reflexivity|].
    apply force_split_empty. pose proof (len_nonneg chunk).
    subst max_chunk_length. lia.
Qed.

End SegmenterFacts.

(** *** The segmenter on exact samples *)

Ltac decide_order :=
  first [ apply Z.leb_le | apply Z.ltb_lt | apply Z.geb_le | apply Z.gtb_lt ];
  vm_compute; reflexivity.

Lemma sum_squares_repeat (x : Z) (n : nat) :
  sum_squares (repeat x n) = Z.of_nat n * (x * x).
Proof. induction n; cbn [repeat sum_squares fold_right]; [lia|]. fold (sum_squares (repeat x n)). lia. Qed.

Lemma exact_rms_repeat (x : Z) (n : nat) :
  (0 < n)%nat ->
  exact_rms (repeat x n)
  = Some (Z.of_nat n * (x * x) # Z.to_pos (Z.of_nat n * 100000000)).
Proof.
  intros Hn. unfold exact_rms.
  rewrite sum_squares_repeat, len_repeat.
  destruct n; [lia | reflexivity].
Qed.

(** C6 at work: half a second of speech followed by 0.7 s of silence comes
    out as one chunk, and the buffer starts afresh. *)
Lemma add_audio_silence_boundary_witness :
  add_audio small_after_speech silence
  = (with_buffer small_after_speech [] 0, Some (speech ++ silence))
  /\ audio_chunk (fst (add_audio small_after_speech silence)) = []
  /\ current_silence_count (fst (add_audio small_after_speech silence)) = 0.
Proof.
  apply (add_audio_silence_boundary small_after_speech silence);
    decide_order.
Defined.

(** Speech that fills the buffer exactly to the maximum is kept. *)
Lemma speech_at_the_limit (n : nat) :
  Z.of_nat n = 480000 ->
  add_audio configured_audio_buffer (repeat 5000 n)
  = (with_buffer configured_audio_buffer (repeat 5000 n) 0, None).
Proof.
  intros Hn.
  assert (Hlevel : flt (rms (repeat 5000 n))
                       (silence_threshold configured_audio_buffer) = false).
  { cbn [rms exact_numpy]. rewrite exact_rms_repeat by lia. rewrite Hn.
    reflexivity. }
  rewrite add_audio_no_silence_rule; rewrite Hlevel.
  - apply force_split_within.
    cbn [audio_chunk with_buffer configured_audio_buffer new_AudioBuffer app
         sample_rate max_audio_chunk_duration].
    rewrite len_repeat. lia.
  - left. decide_order.
Qed.

(** Silence that overfills the buffer is discarded. *)
Lemma silence_over_the_limit (n : nat) :
  Z.of_nat n = 480001 ->
  add_audio configured_audio_buffer (repeat 0 n)
  = (configured_audio_buffer, None).
Proof.
  intros Hn.
  assert (Hquiet : flt (rms (repeat 0 n))
                       (silence_threshold configured_audio_buffer) = true).
  { cbn [rms exact_numpy]. rewrite exact_rms_repeat by lia. rewrite Hn.
    reflexivity. }
  assert (Hlow : flt (min_audio_level configured_audio_buffer)
                     (rms (audio_chunk configured_audio_buffer ++ repeat 0 n))
                 = false).
  { cbn [rms exact_numpy audio_chunk configured_audio_buffer new_AudioBuffer
         app]. rewrite exact_rms_repeat by lia. rewrite Hn. reflexivity. }
  rewrite add_audio_silence_rule; rewrite ?Hquiet.
  - rewrite Hlow. now rewrite force_split_empty.
  - rewrite len_repeat, Hn. decide_order.
  - cbn [audio_chunk configured_audio_buffer new_AudioBuffer app].
    rewrite len_repeat, Hn. decide_order.
Qed.

(** C7 fails as stated.  With the configured buffer, thirty seconds of speech
    bring the buffer to the maximum length and nothing is returned; and
    silence one sample longer than the maximum is discarded, not returned. *)
Lemma forced_split_counterexample :
  (len (audio_chunk configured_audio_buffer ++ thirty_seconds_of_speech)
   >= sample_rate configured_audio_buffer
      * max_audio_chunk_duration configured_audio_buffer
   /\ snd (add_audio configured_audio_buffer thirty_seconds_of_speech) = None)
  /\
  (len (audio_chunk configured_audio_buffer ++ long_silence)
   > sample_rate configured_audio_buffer
     * max_audio_chunk_duration configured_audio_buffer
   /\ snd (add_audio configured_audio_buffer long_silence) = None).
Proof.
  unfold thirty_seconds_of_speech, long_silence.
  cbn [audio_chunk configured_audio_buffer new_AudioBuffer app sample_rate
       max_audio_chunk_duration].
  rewrite !len_repeat, !Z2Nat.id by lia.
  split; split; try lia.
  - now rewrite speech_at_the_limit by (apply Z2Nat.id; lia).
  - now rewrite silence_over_the_limit by (apply Z2Nat.id; lia).
Qed.

(** At exactly the maximum the silence rule still decides: 29.3 s of speech
    and 0.7 s of silence fill the buffer to the maximum and come out as one
    chunk. *)
Lemma silence_at_the_limit :
  len (repeat 5000 293 ++ silence)
  = sample_rate small_audio_buffer * max_audio_chunk_duration small_audio_buffer
  /\ add_audio (with_buffer small_audio_buffer (repeat 5000 293) 0) silence
     = (with_buffer small_audio_buffer [] 0, Some (repeat 5000 293 ++ silence)).
Proof. split; vm_compute; reflexivity. Qed.

(** C7 at work: at ten samples per second the maximum is 300 samples.  The
    300th sample of uninterrupted speech fills the buffer, which is kept; the
    301st forces the split. *)
Lemma add_audio_forced_split_witness :
  add_audio (with_buffer small_audio_buffer (repeat 5000 299) 0) [5000]
  = (with_buffer small_audio_buffer (repeat 5000 299 ++ [5000]) 0, None)
  /\ add_audio (with_buffer small_audio_buffer (repeat 5000 300) 0) [5000]
     = (with_buffer small_audio_buffer [] 0, Some (repeat 5000 300 ++ [5000])).
Proof.
  split.
  - apply (proj1 (proj2 (proj2 (add_audio_forced_split
             (with_buffer small_audio_buffer (repeat 5000 299) 0) [5000])))).
    + apply Z.leb_le. vm_compute. reflexivity.
    + left. decide_order.
  - apply (proj1 (add_audio_forced_split
             (with_buffer small_audio_buffer (repeat 5000 300) 0) [5000])).
    + decide_order.
    + intros Hcount. exfalso. revert Hcount. apply Z.lt_nge. decide_order.
Defined.

(** ** The validity filter *)

Section FilterFacts.
Context `{Numpy}.
Local Open Scope result_scope.

Lemma same4_at_total (text : str) (i : Z) :
  0 <= i -> i + 3 < len text -> exists b, same4_at text i = Ok b.
Proof.
  intros H0 H3. unfold same4_at.
  rewrite !getitem_inside by lia. cbn [rbind].
  destruct (negb _); [eexists; reflexivity|].
  destruct (negb _); eexists; reflexivity.
Qed.

Lemma char_repetition_loop_total (self : WhisperTranscriber) (text : str)
    (indices : list Z) :
  (forall i, In i indices -> 0 <= i /\ i + 3 < len text) ->
  exists b, char_repetition_loop self text indices = Ok b.
Proof.
  induction indices as [|i rest IH]; intros Hin; cbn [char_repetition_loop].
  - eexists; reflexivity.
  - destruct (same4_at_total text i) as [b ->]; try apply Hin; try now left.
    cbn [rbind]. destruct (b && _); [eexists; reflexivity|].
    apply IH. intros j Hj. apply Hin. now right.
Qed.

Lemma all_same_as_total (words : list str) (i : Z) (js : list Z) :
  0 <= i ->
  (forall j, In j js -> 1 <= j /\ i + j < len words) ->
  exists b, all_same_as words i js = Ok b.
Proof.
  intros H0. induction js as [|j rest IH]; intros Hin; cbn [all_same_as].
  - eexists; reflexivity.
  - destruct (Hin j (or_introl eq_refl)) as [Hj1 Hj2].
    rewrite !getitem_inside by lia. cbn [rbind].
    destruct (str_eqb _ _); [|eexists; reflexivity].
    apply IH. intros k Hk. apply Hin. now right.
Qed.

Lemma all_same_as_true (words : list str) (i : Z) (js : list Z) (w : str) :
  0 <= i ->
  (forall j, In j js ->
     0 <= j /\ nth_error words (Z.to_nat i) = Some w
     /\ nth_error words (Z.to_nat (i + j)) = Some w) ->
  all_same_as words i js = Ok true.
Proof.
  intros H0. induction js as [|j rest IH]; intros Hin; cbn [all_same_as].
  - reflexivity.
  - destruct (Hin j (or_introl eq_refl)) as (Hj & Hi & Hij).
    assert (Hli : 0 <= i < len words).
    { assert (Z.to_nat i < List.length words)%nat
        by (apply nth_error_Some; rewrite Hi; discriminate).
      unfold len. lia. }
    assert (Hlij : 0 <= i + j < len words).
    { assert (Z.to_nat (i + j) < List.length words)%nat
        by (apply nth_error_Some; rewrite Hij; discriminate).
      unfold len. lia. }
    rewrite !getitem_inside by lia. cbn [rbind].
    rewrite (nth_error_nth _ _ _ Hi), (nth_error_nth _ _ _ Hij).
    rewrite str_eqb_refl.
    apply IH. intros k Hk. apply Hin. now right.
Qed.

(** The word loop reports a repetition that sits at one of its indices. *)
Lemma word_repetition_loop_hit (self : WhisperTranscriber) (words : list str)
    (indices : list Z) (i : Z) :
  (forall k, In k indices ->
     exists b, all_same_as words k (range2 1 (max_repetition_words self + 1))
               = Ok b) ->
  In i indices ->
  all_same_as words i (range2 1 (max_repetition_words self + 1)) = Ok true ->
  word_repetition_loop self words indices = Ok true.
Proof.
  induction indices as [|k rest IH]; intros Htotal Hin Hhit; [easy|].
  cbn [word_repetition_loop].
  destruct (Htotal k (or_introl eq_refl)) as [b Hb].
  destruct Hin as [-> | Hin].
  - now rewrite Hhit.
  - rewrite Hb. cbn [rbind]. destruct b; [reflexivity|].
    apply IH; auto. intros j Hj. apply Htotal. now right.
Qed.

Lemma same4_at_true (text : str) (i : Z) (c : char) :
  0 <= i ->
  (forall j, 0 <= j <= 3 -> nth_error text (Z.to_nat (i + j)) = Some c) ->
  same4_at text i = Ok true.
Proof.
  intros Hi Hrun.
  assert (Hin : forall j, 0 <= j <= 3 ->
            getitem no_char text (i + j) = Ok c).
  { intros j Hj. pose proof (Hrun j Hj) as Hnth.
    assert (Z.to_nat (i + j) < List.length text)%nat
      by (apply nth_error_Some; rewrite Hnth; discriminate).
    rewrite getitem_inside by (unfold len; lia).
    now rewrite (nth_error_nth _ _ _ Hnth). }
  unfold same4_at.
  rewrite <- (Z.add_0_r i) at 1.
  rewrite !Hin by lia. cbn [rbind].
  now rewrite N.eqb_refl.
Qed.

Lemma char_repetition_loop_hit (self : WhisperTranscriber) (text : str)
    (indices : list Z) (i : Z) :
  max_repetition_chars self = 4 ->
  (forall k, In k indices -> 0 <= k /\ k + 3 < len text) ->
  In i indices ->
  same4_at text i = Ok true ->
  char_repetition_loop self text indices = Ok true.
Proof.
  intros Hmax. induction indices as [|k rest IH]; intros Hrange Hin Hhit;
    [easy|].
  cbn [char_repetition_loop]. rewrite Hmax.
  destruct (same4_at_total text k) as [b Hb];
    try apply (Hrange k (or_introl eq_refl)).
  destruct Hin as [-> | Hin].
  - now rewrite Hhit.
  - rewrite Hb. cbn [rbind]. destruct b; [reflexivity|]. cbn [andb].
    apply IH; auto. intros j Hj. apply Hrange. now right.
Qed.

(** With [max_repetition_chars = 4], a run of four identical characters is
    rejected whenever at least one more character follows it. *)
Lemma four_char_run_rejected_inside (self : WhisperTranscriber) (text : str)
    (i : Z) (c : char) :
  max_repetition_chars self = 4 ->
  0 <= i ->
  i + 4 < len (strip text) ->
  (forall j, 0 <= j <= 3 ->
     nth_error (strip text) (Z.to_nat (i + j)) = Some c) ->
  is_valid_transcription self text = Ok false.
Proof.
  intros Hmax Hi Hlast Hrun. unfold is_valid_transcription.
  destruct (_ || _); [reflexivity|].
  destruct (len (strip text) >? max_text_length self); [reflexivity|].
  rewrite (char_repetition_loop_hit self (strip text) _ i); try assumption.
  - reflexivity.
  - intros k Hk. apply in_range in Hk. lia.
  - apply in_range. lia.
  - now apply same4_at_true with (c := c).
Qed.

(** C3, on the code.  Under the configured limits the four-character run of
    ["aaaa"] is accepted: the character loop runs over
    [range(len(text) - 4)], which is empty. *)
Theorem four_char_run_accepted (whisper : list sample -> result (list str)) :
  is_valid_transcription (configured_transcriber whisper) (u "aaaa") = Ok true.
Proof. reflexivity. Qed.

(** The run is caught when another character follows it, and missed when it
    ends the text. *)
Lemma four_char_run_positions (whisper : list sample -> result (list str)) :
  is_valid_transcription (configured_transcriber whisper) (u "aaaab") = Ok false
  /\ is_valid_transcription (configured_transcriber whisper) (u "baaaa") = Ok true.
Proof. split; reflexivity. Qed.

(** C4, as the code has it.  A text whose word list has at least
    [2 * max_repetition_words] words and contains [max_repetition_words + 1]
    consecutive identical words is rejected.  [max_repetition_chars] is
    assumed to be at least 3, so that the character loop stays inside the
    text. *)
Theorem repeated_words_rejected (self : WhisperTranscriber) (text : str)
    (i : Z) (w : str) :
  let words := split (strip text) in
  3 <= max_repetition_chars self ->
  max_repetition_words self * 2 <= len words ->
  0 <= i ->
  i + max_repetition_words self < len words ->
  (forall j, 0 <= j <= max_repetition_words self ->
     nth_error words (Z.to_nat (i + j)) = Some w) ->
  is_valid_transcription self text = Ok false.
Proof.
  intros words Hchars Hcount Hi Hlast Hsame.
  unfold is_valid_transcription.
  destruct (_ || _); [reflexivity|].
  destruct (len (strip text) >? max_text_length self); [reflexivity|].
  destruct (char_repetition_loop_total self (strip text)
              (range (len (strip text) - max_repetition_chars self)))
    as [hit ->].
  { intros k Hk. apply in_range in Hk. lia. }
  cbn [rbind]. destruct hit; [reflexivity|].
  fold words.
  replace (len words >=? max_repetition_words self * 2) with true
    by (symmetry; apply Z.geb_le; lia).
  rewrite (word_repetition_loop_hit self words _ i).
  - reflexivity.
  - intros k Hk. apply in_range in Hk. apply all_same_as_total; [lia|].
    intros j Hj. apply in_range2 in Hj. lia.
  - apply in_range. lia.
  - apply all_same_as_true with (w := w); [lia|].
    intros j Hj. apply in_range2 in Hj. repeat split; [lia| |].
    + specialize (Hsame 0). rewrite Z.add_0_r in Hsame. apply Hsame. lia.
    + apply Hsame. lia.
Qed.

End FilterFacts.

(** C4 fails as stated: ["go go go"] has three words, fewer than
    [2 * max_repetition_words = 4], so the word rule is skipped and the text
    is accepted. *)
Lemma three_words_counterexample :
  len (split (strip (u "go go go")))
  < 2 * max_repetition_words (configured_transcriber (fun _ => Ok []))
  /\ is_valid_transcription (configured_transcriber (fun _ => Ok []))
       (u "go go go") = Ok true.
Proof. split; reflexivity. Qed.

(** C4 at work: four words, the first three identical. *)
Lemma repeated_words_rejected_witness :
  is_valid_transcription (configured_transcriber (fun _ => Ok []))
    (u "go go go go") = Ok false.
Proof.
  apply (repeated_words_rejected
           (configured_transcriber (fun _ => Ok [])) (u "go go go go")
           0 (u "go")).
  - decide_order.
  - decide_order.
  - decide_order.
  - decide_order.
  - intros j Hj. cbn [max_repetition_words configured_transcriber] in Hj.
    assert (Hcases : j = 0 \/ j = 1 \/ j = 2) by lia.
    destruct Hcases as [-> | [-> | ->]]; reflexivity.
Defined.

(** ** Histories *)

Section HistoryFacts.
Context `{Numpy}.

Lemma puts_app (a b : list effect) : puts (a ++ b) = puts a ++ puts b.
Proof. apply flat_map_app. Qed.

Lemma gots_app (a b : list effect) : gots (a ++ b) = gots a ++ gots b.
Proof. apply flat_map_app. Qed.

Lemma appended_ids_app (a b : list effect) :
  appended_ids (a ++ b) = appended_ids a ++ appended_ids b.
Proof. apply flat_map_app. Qed.

Lemma replay_app (log : list TranscriptionRecord) (a b : list effect) :
  replay log (a ++ b) = replay (replay log a) b.
Proof. apply fold_left_app. Qed.

Lemma busy_after_app (busy : bool) (a b : list effect) :
  busy_after busy (a ++ b) = busy_after (busy_after busy a) b.
Proof. apply fold_left_app. Qed.

Lemma serial_app (a b : list effect) : forall busy,
  serial busy (a ++ b) <-> serial busy a /\ serial (busy_after busy a) b.
Proof.
  induction a as [|e a IH]; intros busy; cbn [app serial].
  - cbn. tauto.
  - destruct e; cbn [busy_after fold_left];
      try (fold (busy_after busy a); apply IH).
    + fold (busy_after true a). rewrite IH. tauto.
    + fold (busy_after false a). rewrite IH. tauto.
Qed.

End HistoryFacts.

Section TalkFacts.
Context `{Numpy} `{World}.

Lemma puts_chatter (l : list effect) : Forall chatter l -> puts l = [].
Proof.
  induction 1 as [|e l He _ IH]; [reflexivity|].
  destruct e; cbn in He; try contradiction; exact IH.
Qed.

Lemma gots_chatter (l : list effect) : Forall chatter l -> gots l = [].
Proof.
  induction 1 as [|e l He _ IH]; [reflexivity|].
  destruct e; cbn in He; try contradiction; exact IH.
Qed.

Lemma appended_ids_chatter (l : list effect) :
  Forall chatter l -> appended_ids l = [].
Proof.
  induction 1 as [|e l He _ IH]; [reflexivity|].
  destruct e; cbn in He; try contradiction; exact IH.
Qed.

Lemma replay_chatter (l : list effect) :
  Forall chatter l -> forall log, replay log l = log.
Proof.
  induction 1 as [|e l He _ IH]; intros log; [reflexivity|].
  destruct e; cbn in He; try contradiction; apply IH.
Qed.

Lemma busy_after_chatter (l : list effect) :
  Forall chatter l -> forall busy, busy_after busy l = busy.
Proof.
  induction 1 as [|e l He _ IH]; intros busy; [reflexivity|].
  destruct e; cbn in He; try contradiction; apply IH.
Qed.

Lemma serial_chatter (l : list effect) :
  Forall chatter l -> forall busy, serial busy l.
Proof.
  induction 1 as [|e l He _ IH]; intros busy; [exact I|].
  destruct e; cbn in He; try contradiction; apply IH.
Qed.

Lemma sent_in_chatter (l : list effect) (c : client) (m : message) :
  Forall chatter l -> In (Sent c m) l -> status_consistent m.
Proof.
  intros Hl Hin. rewrite Forall_forall in Hl. exact (Hl _ Hin).
Qed.

(** *** Handlers that only talk *)

Lemma after_talk_nothing (s : system) :
  after_talk s (clients (server s)) 0 [] = s.
Proof.
  destruct s as [[] w n h]. unfold after_talk, set_clients. cbn.
  now rewrite app_nil_r.
Qed.

Lemma after_talk_twice (s : system) cs n l cs' n' l' :
  after_talk (after_talk s cs n l) cs' n' l'
  = after_talk s cs' (n' + n) (l ++ l').
Proof.
  unfold after_talk. cbn. f_equal; [lia | apply eq_sym, app_assoc].
Qed.

Lemma talk_ret {A} (a : A) : talk_only (ret a).
Proof.
  intros s. exists (clients (server s)), 0%nat, [].
  split; [symmetry; apply after_talk_nothing | constructor].
Qed.

Lemma talk_raise {A} (e : exn) : talk_only (raise e : M A).
Proof.
  intros s. exists (clients (server s)), 0%nat, [].
  split; [symmetry; apply after_talk_nothing | constructor].
Qed.

Lemma talk_lift {A} (r : result A) : talk_only (lift r).
Proof.
  intros s. exists (clients (server s)), 0%nat, [].
  split; [symmetry; apply after_talk_nothing | constructor].
Qed.

Lemma talk_self : talk_only self.
Proof.
  intros s. exists (clients (server s)), 0%nat, [].
  split; [symmetry; apply after_talk_nothing | constructor].
Qed.

Lemma talk_time : talk_only time_time.
Proof.
  intros s. exists (clients (server s)), 1%nat, [].
  split; [|constructor].
  rewrite <- (after_talk_nothing s) at 1. reflexivity.
Qed.

Lemma talk_emit (e : effect) : chatter e -> talk_only (emit e).
Proof.
  intros He s. exists (clients (server s)), 0%nat, [e].
  split; [|now repeat constructor].
  rewrite <- (after_talk_nothing s) at 1. unfold after_talk, emit. cbn.
  now rewrite app_nil_r.
Qed.

Lemma talk_logger (line : log_line) : talk_only (logger line).
Proof. apply talk_emit. exact I. Qed.

Lemma talk_clients (f : list client -> list client) :
  talk_only (update (fun sv => set_clients (f (clients sv)) sv)).
Proof.
  intros s. exists (f (clients (server s))), 0%nat, [].
  split; [|constructor].
  unfold after_talk, update. cbn. now rewrite app_nil_r.
Qed.

Lemma talk_bind {A B} (m : M A) (k : A -> M B) :
  talk_only m -> (forall a, talk_only (k a)) -> talk_only (bind m k).
Proof.
  intros Hm Hk s. unfold bind.
  destruct (Hm s) as (cs & n & l & Hs & Hl).
  destruct (m s) as [[a|e] s1]; cbn [snd] in *; subst s1.
  - destruct (Hk a (after_talk s cs n l)) as (cs' & n' & l' & Hs' & Hl').
    rewrite Hs', after_talk_twice. do 3 eexists. split; [reflexivity|].
    now apply Forall_app.
  - now do 3 eexists.
Qed.

Lemma talk_try {A} (m : M A) (handler : exn -> M A) :
  talk_only m -> (forall e, talk_only (handler e)) ->
  talk_only (try_except m handler).
Proof.
  intros Hm Hh s. unfold try_except.
  destruct (Hm s) as (cs & n & l & Hs & Hl).
  destruct (m s) as [[a|e] s1]; cbn [snd] in *; subst s1.
  - now do 3 eexists.
  - destruct (Hh e (after_talk s cs n l)) as (cs' & n' & l' & Hs' & Hl').
    rewrite Hs', after_talk_twice. do 3 eexists. split; [reflexivity|].
    now apply Forall_app.
Qed.

Lemma talk_send (c : client) (m : message) :
  status_consistent m -> talk_only (send c m).
Proof.
  intros Hm. unfold send. apply talk_bind; [apply talk_lift|].
  intros _. now apply talk_emit.
Qed.

Lemma talk_send_to_each (m : message) (cs : list client) :
  status_consistent m ->
  forall disconnected, talk_only (send_to_each m cs disconnected).
Proof.
  intros Hm. induction cs as [|c rest IH]; intros disconnected;
    cbn [send_to_each].
  - apply talk_ret.
  - apply talk_bind; [|intros d; apply IH].
    apply talk_try.
    + apply talk_bind; [now apply talk_send | intros _; apply talk_ret].
    + intros []; first [apply talk_ret | apply talk_raise].
Qed.

Lemma talk_discard_each (disconnected : list client) :
  talk_only (discard_each disconnected).
Proof.
  induction disconnected as [|c rest IH]; cbn [discard_each].
  - apply talk_ret.
  - apply talk_bind; [|intros _; exact IH].
    apply (talk_clients (set_discard c)).
Qed.

Lemma talk_broadcast_message (m : message) :
  status_consistent m -> talk_only (broadcast_message m).
Proof.
  intros Hm. unfold broadcast_message.
  apply talk_bind; [apply talk_self|]. intros sv.
  destruct (negb _); [apply talk_ret|].
  apply talk_bind; [now apply talk_send_to_each|].
  intros d. apply talk_discard_each.
Qed.

Lemma queue_status_message_consistent (pending : Z) (processing : bool)
    (now : timestamp) :
  0 <= pending ->
  status_consistent (queue_status_message pending processing now).
Proof.
  intros Hp _. exists pending, processing. now repeat split.
Qed.

Lemma talk_broadcast_queue_status : talk_only broadcast_queue_status.
Proof.
  unfold broadcast_queue_status.
  apply talk_bind; [apply talk_self|]. intros sv.
  apply talk_bind; [apply talk_time|]. intros now.
  apply talk_broadcast_message, queue_status_message_consistent, len_nonneg.
Qed.

(** A message of another type than [queue_status] is consistent. *)
Lemma other_type_consistent (t : str) (rest : message) :
  str_eqb t (u "queue_status") = false ->
  status_consistent (("type"%string, JStr t) :: rest).
Proof.
  intros Ht Htype. cbn in Htype. injection Htype as ->.
  now rewrite str_eqb_refl in Ht.
Qed.

Lemma transcription_message_consistent (text : str) (t t' : timestamp)
    (queue_id : option Z) :
  status_consistent (transcription_message text t t' queue_id).
Proof. now apply other_type_consistent. Qed.

Lemma talk_register_client (c : client) : talk_only (register_client c).
Proof.
  apply talk_bind; [apply (talk_clients (set_add c))|].
  intros _. apply talk_logger.
Qed.

Lemma talk_unregister_client (c : client) : talk_only (unregister_client c).
Proof.
  apply talk_bind; [apply (talk_clients (set_discard c))|].
  intros _. apply talk_logger.
Qed.

Lemma talk_send_full_transcription (c : client) :
  talk_only (send_full_transcription c).
Proof.
  unfold send_full_transcription.
  apply talk_bind; [apply talk_self|]. intros sv.
  apply talk_try.
  - now apply talk_send, other_type_consistent.
  - intros []; first [apply talk_ret | apply talk_raise].
Qed.

Lemma talk_handle_summarize_request (c : client) (prompt text : json) :
  talk_only (handle_summarize_request c prompt text).
Proof.
  unfold handle_summarize_request. apply talk_try.
  - apply talk_bind; [apply talk_self|]. intros sv.
    apply talk_bind.
    { destruct (truthy text); [|apply talk_ret].
      apply talk_bind; [apply talk_lift|]. intros; apply talk_ret. }
    intros use_client_text.
    destruct (negb _).
    { now apply talk_send, other_type_consistent. }
    apply talk_bind; [now apply talk_send, other_type_consistent|].
    intros _. apply talk_bind.
    { destruct (is_available _); [|apply talk_ret].
      apply talk_try.
      - apply talk_bind; [now apply talk_send, other_type_consistent|].
        intros; apply talk_ret.
      - intros e. apply talk_bind; [apply talk_logger|].
        intros; apply talk_ret. }
    intros notion_result. now apply talk_send, other_type_consistent.
  - intros e. apply talk_bind; [apply talk_logger|].
    intros _. now apply talk_send, other_type_consistent.
Qed.

End TalkFacts.

(** ** Postconditions *)

Section PostFacts.
Context `{Numpy} `{World}.

Lemma post_bind {A B} (m : M A) (k : A -> M B) (s : system)
    (P : result B -> system -> Prop) :
  post m s (fun r s' => match r with
                        | Ok a => post (k a) s' P
                        | Raise e => P (Raise e) s'
                        end) ->
  post (bind m k) s P.
Proof. unfold post, bind. now destruct (m s) as [[a|e] s']. Qed.

Lemma post_try {A} (m : M A) (handler : exn -> M A) (s : system)
    (P : result A -> system -> Prop) :
  post m s (fun r s' => match r with
                        | Ok a => P (Ok a) s'
                        | Raise e => post (handler e) s' P
                        end) ->
  post (try_except m handler) s P.
Proof. unfold post, try_except. now destruct (m s) as [[a|e] s']. Qed.

Lemma post_talk {A} (m : M A) (s : system)
    (P : result A -> system -> Prop) :
  talk_only m ->
  (forall r cs n l, Forall chatter l -> P r (after_talk s cs n l)) ->
  post m s P.
Proof.
  intros Hm HP. unfold post.
  destruct (Hm s) as (cs & n & l & -> & Hl). now apply HP.
Qed.

End PostFacts.

Ltac post_step :=
  match goal with
  | |- post (bind _ _) _ _ => apply post_bind
  | |- post (try_except _ _) _ _ => apply post_try
  | |- post broadcast_queue_status _ _ =>
      apply (post_talk _ _ _ talk_broadcast_queue_status);
      intros [[]|?] ? ? ? ?; cbn [server worker ticks history after_talk]
  | |- post (unregister_client _) _ _ =>
      apply (post_talk _ _ _ (talk_unregister_client _));
      intros [[]|?] ? ? ? ?; cbn [server worker ticks history after_talk]
  | |- post (broadcast_message _) _ _ =>
      apply post_talk;
      [ apply talk_broadcast_message;
        first [ assumption
              | apply transcription_message_consistent
              | now apply other_type_consistent ]
      | intros [[]|?] ? ? ? ?; cbn [server worker ticks history after_talk] ]
  | |- post (worker_recover _) _ _ => unfold worker_recover
  | |- post (broadcast_transcription _ _ _) _ _ =>
      unfold broadcast_transcription
  | |- post (add_transcription_task _ _ _) _ _ =>
      unfold add_transcription_task
  | |- post clear_transcription _ _ => unfold clear_transcription
  | |- post (if ?b then _ else _) _ _ => destruct b eqn:?
  | |- post (match ?x with _ => _ end) _ _ => destruct x eqn:?
  | |- post ?m ?s ?P =>
      change (P (fst (m s)) (snd (m s)));
      cbn [fst snd self update emit logger set_worker time_time ret raise
           lift finish_transcription_task
           server worker ticks history after_talk]
  | |- match ?x with _ => _ end => destruct x eqn:?
  end.

Section ObservationSteps.
Context `{Numpy}.

Lemma puts_cons (e : effect) (h : list effect) :
  puts (e :: h) = match e with Put t => [t] | _ => [] end ++ puts h.
Proof. reflexivity. Qed.

Lemma gots_cons (e : effect) (h : list effect) :
  gots (e :: h) = match e with Got t => [t] | _ => [] end ++ gots h.
Proof. reflexivity. Qed.

Lemma appended_ids_cons (e : effect) (h : list effect) :
  appended_ids (e :: h)
  = match e with Appended _ (Some q) => [q] | _ => [] end ++ appended_ids h.
Proof. reflexivity. Qed.

Lemma replay_cons (log : list TranscriptionRecord) (e : effect)
    (h : list effect) :
  replay log (e :: h)
  = replay match e with
           | Appended item _ => log ++ [item]
           | Cleared => []
           | _ => log
           end h.
Proof. reflexivity. Qed.

Lemma busy_after_cons (busy : bool) (e : effect) (h : list effect) :
  busy_after busy (e :: h)
  = busy_after match e with
               | Submitted _ => true
               | Finished _ => false
               | _ => busy
               end h.
Proof. reflexivity. Qed.

Lemma puts_nil : puts [] = [].
Proof. reflexivity. Qed.

Lemma gots_nil : gots [] = [].
Proof. reflexivity. Qed.

Lemma appended_ids_nil : appended_ids [] = [].
Proof. reflexivity. Qed.

Lemma replay_nil (log : list TranscriptionRecord) : replay log [] = log.
Proof. reflexivity. Qed.

Lemma busy_after_nil (busy : bool) : busy_after busy [] = busy.
Proof. reflexivity. Qed.

End ObservationSteps.

Ltac observe :=
  rewrite ?puts_app, ?gots_app, ?appended_ids_app, ?replay_app,
    ?busy_after_app;
  repeat match goal with
  | Hl : Forall chatter ?l |- context [puts ?l] =>
      rewrite (puts_chatter l Hl)
  | Hl : Forall chatter ?l |- context [gots ?l] =>
      rewrite (gots_chatter l Hl)
  | Hl : Forall chatter ?l |- context [appended_ids ?l] =>
      rewrite (appended_ids_chatter l Hl)
  | Hl : Forall chatter ?l |- context [replay ?log ?l] =>
      rewrite (replay_chatter l Hl log)
  | Hl : Forall chatter ?l |- context [busy_after ?b ?l] =>
      rewrite (busy_after_chatter l Hl b)
  end;
  rewrite ?puts_cons, ?gots_cons, ?appended_ids_cons, ?replay_cons,
    ?busy_after_cons, ?puts_nil, ?gots_nil, ?appended_ids_nil, ?replay_nil,
    ?busy_after_nil;
  cbn beta iota; cbn [app]; rewrite ?app_nil_r.

Ltac project :=
  cbn [server worker ticks history
       clients audio_buffer transcriber summarizer notion_client
       full_transcription transcription_queue currently_processing
       queue_id_counter
       set_clients set_audio_buffer set_full_transcription
       set_transcription_queue set_currently_processing set_queue_id_counter
       is_busy in_flight after_talk task_queue_id].

Lemma subseq_refl {A} (l : list A) : subseq l l.
Proof. induction l; now constructor. Qed.

Lemma subseq_app_skip {A} (l l' : list A) (x : A) :
  subseq l l' -> subseq l (l' ++ [x]).
Proof.
  induction 1; cbn [app].
  - apply subseq_skip, subseq_nil.
  - now apply subseq_skip.
  - now apply subseq_keep.
Qed.

Lemma subseq_app_keep {A} (l l' : list A) (x : A) :
  subseq l l' -> subseq (l ++ [x]) (l' ++ [x]).
Proof.
  induction 1; cbn [app].
  - apply subseq_keep, subseq_nil.
  - now apply subseq_skip.
  - now apply subseq_keep.
Qed.

Ltac solve_status St :=
  let c := fresh "c" in
  let m := fresh "m" in
  let Hin := fresh "Hin" in
  intros c m Hin;
  repeat (apply in_app_or in Hin; destruct Hin as [Hin | Hin]);
  first
    [ exact (St _ _ Hin)
    | match goal with
      | Hl : Forall chatter ?l |- _ => exact (sent_in_chatter l _ _ Hl Hin)
      end
    | repeat (destruct Hin as [Hin | Hin]; [discriminate Hin|]);
      contradiction ].

Ltac solve_serial S B :=
  rewrite ?serial_app; observe; rewrite ?B; cbn [serial is_busy];
  repeat split;
  first [ exact S | reflexivity
        | match goal with
          | Hl : Forall chatter ?l |- _ => exact (serial_chatter l Hl _)
          end ].

Ltac solve_fifo F :=
  rewrite F;
  repeat match goal with
  | Heq : transcription_queue (server _) = _ |- _ => rewrite Heq
  end;
  rewrite <- ?app_assoc; reflexivity.

Ltac solve_appended G A :=
  eexists; rewrite ?app_nil_r; split;
  [ rewrite G; reflexivity
  | first [ exact A
          | rewrite map_app; cbn [map];
            first [ apply subseq_app_skip; exact A
                  | apply subseq_app_keep; exact A ] ] ].

Ltac solve_ids I C :=
  first
    [ exact I
    | rewrite map_app, length_app, seq_app, map_app, <- I;
      cbn [map seq List.length Nat.add task_queue_id]; rewrite C;
      do 2 f_equal; lia ].

Ltac solve_counter C :=
  first [ exact C | rewrite length_app, C; cbn [List.length]; lia ].

(** With [F I C L S B G A St] the fields of the invariant of the state the
    handler started from. *)
Ltac solve_invariant F I C L S B G A St :=
  constructor; project; observe;
  [ solve_fifo F
  | solve_ids I C
  | solve_counter C
  | rewrite ?L; reflexivity
  | solve_serial S B
  | first [ reflexivity | exact B ]
  | solve_appended G A
  | solve_status St ].

Section InvariantFacts.
Context `{Numpy} `{World}.

Lemma worker_take_invariant (s : system) :
  worker s = Waiting -> invariant s -> invariant (snd (worker_take s)).
Proof.
  intros Hw Hinv. change (post worker_take s (fun _ s' => invariant s')).
  unfold worker_take.
  repeat (post_step; cbn beta iota); try assumption.
  all: destruct Hinv as [F I C L S B [settled [G A]] St].
  all: rewrite Hw in B, G; cbn [is_busy in_flight] in B, G.
  all: rewrite app_nil_r in G.
  all: solve_invariant F I C L S B G A St.
Qed.

Lemma worker_resume_invariant (s : system) (task_data : task)
    (outcome : result str) :
  worker s = Transcribing task_data -> invariant s ->
  invariant (snd (worker_resume task_data outcome s)).
Proof.
  intros Hw Hinv.
  change (post (worker_resume task_data outcome) s (fun _ s' => invariant s')).
  unfold worker_resume.
  repeat (post_step; cbn beta iota); try assumption.
  all: destruct Hinv as [F I C L S B [settled [G A]] St].
  all: rewrite Hw in B, G; cbn [is_busy in_flight] in B, G.
  all: solve_invariant F I C L S B G A St.
Qed.

Lemma handle_audio_data_invariant (s : system) (audio_data : list sample) :
  invariant s -> invariant (snd (handle_audio_data audio_data s)).
Proof.
  intros Hinv.
  change (post (handle_audio_data audio_data) s (fun _ s' => invariant s')).
  unfold handle_audio_data.
  repeat (post_step; cbn beta iota); try assumption.
  all: destruct Hinv as [F I C L S B [settled [G A]] St].
  all: solve_invariant F I C L S B G A St.
Qed.

Lemma talk_invariant {A} (m : M A) (s : system) :
  talk_only m -> invariant s -> invariant (snd (m s)).
Proof.
  intros Hm Hinv. destruct (Hm s) as (cs & n & l & -> & Hl).
  destruct Hinv as [F I C L S B [settled [G A0]] St].
  solve_invariant F I C L S B G A0 St.
Qed.

Lemma clear_request_invariant (s : system) (m : message) :
  status_consistent m ->
  invariant s ->
  invariant (snd ((clear_transcription ;;; broadcast_message m)%monad s)).
Proof.
  intros Hm Hinv.
  change (post (clear_transcription ;;; broadcast_message m)%monad s
            (fun _ s' => invariant s')).
  repeat (post_step; cbn beta iota).
  all: destruct Hinv as [F I C L S B [settled [G A0]] St].
  all: solve_invariant F I C L S B G A0 St.
Qed.

Lemma on_message_invariant (s : system) (c : client) (m : inbound) :
  invariant s -> invariant (snd (on_message c m s)).
Proof.
  intros Hinv. destruct m as [audio_data | data | ]; cbn [on_message].
  - now apply handle_audio_data_invariant.
  - destruct data; try (now apply talk_invariant; [apply talk_raise|]).
    destruct (dict_get "type" d) as [[]|];
      try (now apply talk_invariant; [apply talk_ret|]).
    repeat match goal with
           | |- context [if ?b then _ else _] => destruct b
           end.
    + apply talk_invariant; [|assumption].
      now apply talk_send, other_type_consistent.
    + apply talk_invariant; [apply talk_send_full_transcription|assumption].
    + apply talk_invariant; [apply talk_handle_summarize_request|assumption].
    + apply clear_request_invariant; [|assumption].
      now apply other_type_consistent.
    + now apply talk_invariant; [apply talk_ret|].
  - now apply talk_invariant; [apply talk_logger|].
Qed.

Lemma receive_invariant (s : system) (c : client) (m : inbound) :
  invariant s -> invariant (snd (receive c m s)).
Proof.
  intros Hinv. unfold receive, try_except.
  pose proof (on_message_invariant s c m Hinv) as Hm.
  destruct (on_message c m s) as [[a|e] s1]; cbn [snd] in *; [assumption|].
  apply talk_invariant; [|assumption].
  apply talk_bind; [apply talk_logger|]. intros _.
  apply talk_unregister_client.
Qed.

Lemma step_invariant (s : system) (ev : event) :
  invariant s -> invariant (step s ev).
Proof.
  intros Hinv. unfold step. destruct ev; cbn [handle].
  - now apply talk_invariant; [apply talk_register_client|].
  - now apply receive_invariant.
  - now apply talk_invariant; [apply talk_unregister_client|].
  - destruct (worker s) eqn:Hw; try assumption.
    now apply worker_take_invariant.
  - destruct (worker s) eqn:Hw; try assumption.
    now apply worker_resume_invariant.
Qed.

Lemma start_invariant (ab : AudioBuffer) (tr : WhisperTranscriber)
    (su : GeminiSummarizer) (no : NotionClient) :
  invariant (start ab tr su no).
Proof.
  constructor; cbn; try reflexivity; try easy.
  exists []. split; [reflexivity | constructor].
Qed.

Lemma run_invariant (evs : list event) : forall s,
  invariant s -> invariant (run s evs).
Proof.
  induction evs as [|ev evs IH]; intros s Hinv; [assumption|].
  cbn [run fold_left]. apply IH. now apply step_invariant.
Qed.

End InvariantFacts.

(** ** The connection hub when peers only close *)

Section HubFacts.
Context `{Numpy} `{World}.

Lemma send_to_each_closes_only (m : message) (cs : list client) :
  (forall c, In c cs -> closes_only m c) ->
  forall disconnected s,
    send_to_each m cs disconnected s
    = (Ok (disconnected ++ filter (fun c => negb (delivers m c)) cs),
       {| server := server s; worker := worker s; ticks := ticks s;
          history := history s
                     ++ map (fun c => Sent c m) (filter (delivers m) cs) |}).
Proof.
  induction cs as [|c rest IH]; intros Hcs disconnected s.
  - cbn [send_to_each filter map]. unfold ret. rewrite !app_nil_r.
    now destruct s.
  - cbn [send_to_each filter map].
    pose proof (Hcs c (or_introl eq_refl)) as Hc. unfold closes_only in Hc.
    unfold bind at 1. unfold try_except, send, bind, lift, emit, ret.
    destruct (socket_send c m) as [[]|e] eqn:Hsend.
    + assert (Hd : delivers m c = true) by (unfold delivers; now rewrite Hsend).
      rewrite Hd. cbn [negb map].
      rewrite IH by (intros x Hx; apply Hcs; now right).
      cbn [server worker ticks history]. now rewrite <- app_assoc.
    + assert (Hd : delivers m c = false) by (unfold delivers; now rewrite Hsend).
      rewrite Hd, (Hc e eq_refl). cbn [negb].
      rewrite IH by (intros x Hx; apply Hcs; now right).
      now rewrite <- app_assoc.
Qed.

Lemma filter_after_discard (d : client) (rest l : list client) :
  filter (fun c => negb (existsb (Nat.eqb c) rest)) (set_discard d l)
  = filter (fun c => negb (existsb (Nat.eqb c) (d :: rest))) l.
Proof.
  unfold set_discard. induction l as [|x xs IH]; [reflexivity|].
  cbn [filter existsb] in *.
  destruct (Nat.eqb x d); cbn [negb orb filter]; [exact IH|].
  now rewrite IH.
Qed.

Lemma filter_all (l : list client) : filter (fun _ => true) l = l.
Proof. induction l as [|x xs IH]; cbn; congruence. Qed.

Lemma discard_each_clients (disconnected : list client) : forall s,
  discard_each disconnected s
  = (Ok tt,
     {| server :=
          set_clients
            (filter (fun c => negb (existsb (Nat.eqb c) disconnected))
               (clients (server s)))
            (server s);
        worker := worker s; ticks := ticks s; history := history s |}).
Proof.
  induction disconnected as [|d rest IH]; intros s.
  - cbn [discard_each existsb negb]. unfold ret. f_equal.
    rewrite filter_all. now destruct s as [[] w n h].
  - cbn [discard_each]. unfold bind, update. rewrite IH.
    cbn [server worker ticks history clients set_clients].
    now rewrite filter_after_discard.
Qed.

Lemma not_among_the_closed (m : message) (cs : list client) (c : client) :
  In c cs ->
  negb (existsb (Nat.eqb c) (filter (fun x => negb (delivers m x)) cs))
  = delivers m c.
Proof.
  intros Hin. destruct (delivers m c) eqn:Hc; cbn [negb].
  - apply negb_true_iff. apply not_true_is_false. intros Hex.
    apply existsb_exists in Hex as (x & Hx & Heq).
    apply Nat.eqb_eq in Heq. subst x.
    apply filter_In in Hx as [_ Hx]. now rewrite Hc in Hx.
  - apply negb_false_iff. apply existsb_exists. exists c. split.
    + apply filter_In. split; [assumption|]. now rewrite Hc.
    + apply Nat.eqb_refl.
Qed.

(** [broadcast_message] when the sends fail only because peers closed. *)
Lemma broadcast_message_closes_only (m : message) (s : system) :
  (forall c, In c (clients (server s)) -> closes_only m c) ->
  broadcast_message m s
  = (Ok tt,
     after_talk s (filter (delivers m) (clients (server s))) 0
       (map (fun c => Sent c m) (filter (delivers m) (clients (server s))))).
Proof.
  intros Hcs. unfold broadcast_message, bind at 1, self.
  destruct (clients (server s)) as [|c0 cs0] eqn:Hclients.
  - cbn [nonempty negb filter map]. unfold ret. f_equal.
    rewrite <- (after_talk_nothing s) at 1. now rewrite Hclients.
  - cbn [nonempty negb]. rewrite <- Hclients in *. unfold bind.
    rewrite send_to_each_closes_only by assumption.
    rewrite discard_each_clients. cbn [server worker ticks history app].
    unfold after_talk. cbn [Nat.add]. do 3 f_equal.
    apply filter_ext_in. intros c Hc. now apply not_among_the_closed.
Qed.

(** Whatever the network does, a broadcast sends nothing but its message. *)
Lemma send_to_each_sends (m : message) (cs : list client) :
  forall disconnected s, exists l,
    snd (send_to_each m cs disconnected s)
    = {| server := server s; worker := worker s; ticks := ticks s;
         history := history s ++ l |}
    /\ forall e, In e l -> exists c, e = Sent c m.
Proof.
  induction cs as [|c rest IH]; intros disconnected s.
  - exists []. cbn. rewrite app_nil_r. split; [now destruct s | easy].
  - cbn [send_to_each]. unfold bind at 1. unfold try_except, send, bind, lift,
      emit, ret, raise.
    destruct (socket_send c m) as [[]|e].
    + destruct (IH disconnected
                  {| server := server s; worker := worker s;
                     ticks := ticks s;
                     history := history s ++ [Sent c m] |})
        as (l & -> & Hl).
      exists (Sent c m :: l). cbn [server worker ticks history].
      rewrite <- app_assoc. split; [reflexivity|].
      intros e [<- | He]; [now exists c | now apply Hl].
    + destruct e.
      1, 2, 4: exists []; cbn [snd]; rewrite app_nil_r;
        split; [now destruct s | easy].
      apply IH.
Qed.

Lemma broadcast_message_sends (m : message) (s : system) :
  exists cs l,
    snd (broadcast_message m s) = after_talk s cs 0 l
    /\ forall e, In e l -> exists c, e = Sent c m.
Proof.
  unfold broadcast_message, bind at 1, self.
  destruct (negb (nonempty (clients (server s)))).
  - exists (clients (server s)), []. cbn [snd ret].
    split; [symmetry; apply after_talk_nothing | easy].
  - unfold bind.
    destruct (send_to_each_sends m (clients (server s)) [] s) as (l & Hs & Hl).
    destruct (send_to_each m (clients (server s)) [] s) as [[d|e] s1];
      cbn [snd] in Hs; subst s1.
    + rewrite discard_each_clients. cbn [snd server worker ticks history].
      now do 2 eexists.
    + exists (clients (server s)), l. split; [|assumption]. cbn [snd].
      unfold after_talk. cbn [Nat.add]. do 1 f_equal.
      now destruct (server s).
Qed.

Lemma broadcast_queue_status_sends (s : system) :
  exists cs l,
    snd (broadcast_queue_status s) = after_talk s cs 1 l
    /\ forall e, In e l -> exists c,
         e = Sent c (queue_status_message
                       (len (transcription_queue (server s)))
                       (currently_processing (server s))
                       (wall_clock (ticks s))).
Proof.
  unfold broadcast_queue_status, bind, self, time_time.
  match goal with
  | |- context [broadcast_message ?m ?s1] =>
      destruct (broadcast_message_sends m s1) as (cs & l & Hs & Hl)
  end.
  destruct (broadcast_message _ _) as [[[]|e] s2]; cbn [snd] in *; subst s2;
    now exists cs, l.
Qed.

(** C9.  When the sends of a broadcast fail only because peers have closed,
    the broadcast completes; exactly the connections whose send failed leave
    the registered set, and every registered connection whose send succeeds
    receives the message and stays registered. *)
Theorem broadcast_survives_closed_peers (m : message) (s : system) :
  (forall c, In c (clients (server s)) -> closes_only m c) ->
  let s' := snd (broadcast_message m s) in
  fst (broadcast_message m s) = Ok tt
  /\ clients (server s') = filter (delivers m) (clients (server s))
  /\ history s'
     = history s
       ++ map (fun c => Sent c m) (filter (delivers m) (clients (server s)))
  /\ (forall c, In c (clients (server s)) -> socket_send c m = Ok tt ->
        In (Sent c m) (history s') /\ In c (clients (server s')))
  /\ (forall c, socket_send c m = Raise ConnectionClosed ->
        ~ In c (clients (server s'))).
Proof.
  intros Hcs s'. subst s'. rewrite broadcast_message_closes_only by assumption.
  cbn [fst snd after_talk server history clients set_clients].
  split; [reflexivity|]. split; [reflexivity|]. split; [reflexivity|].
  split.
  - intros c Hin Hsend.
    assert (Hd : In c (filter (delivers m) (clients (server s)))).
    { apply filter_In. split; [assumption|]. unfold delivers.
      now rewrite Hsend. }
    split; [|assumption].
    apply in_or_app. right. now apply (in_map (fun c => Sent c m)).
  - intros c Hclosed Hin. apply filter_In in Hin as [_ Hd].
    unfold delivers in Hd. now rewrite Hclosed in Hd.
Qed.

End HubFacts.

(** C9 at work: of three viewers the second has closed; the first and the
    third receive the notice and stay, the second is dropped. *)
Lemma broadcast_survives_closed_peers_witness :
  fst (broadcast_message cleared_notice three_viewers) = Ok tt
  /\ clients (server (snd (broadcast_message cleared_notice three_viewers)))
     = [0; 3]%nat
  /\ history (snd (broadcast_message cleared_notice three_viewers))
     = history three_viewers
       ++ [Sent 0%nat cleared_notice; Sent 3%nat cleared_notice].
Proof.
  destruct (broadcast_survives_closed_peers cleared_notice three_viewers)
    as (Hok & Hclients & Hhistory & _).
  - intros c _ e. unfold closes_only.
    destruct c as [|[|c]]; cbn; congruence.
  - split; [exact Hok|]. split; [exact Hclients | exact Hhistory].
Defined.

(** ** The worker when peers only close *)

Section WorkerFacts.
Context `{Numpy} `{World}.
Hypothesis peers_only_close : forall c m, closes_only m c.

Lemma post_broadcast_message (m : message) (s : system)
    (P : result unit -> system -> Prop) :
  P (Ok tt)
    (after_talk s (filter (delivers m) (clients (server s))) 0
       (map (fun c => Sent c m) (filter (delivers m) (clients (server s))))) ->
  post (broadcast_message m) s P.
Proof.
  intros HP. unfold post.
  now rewrite broadcast_message_closes_only by (intros; apply peers_only_close).
Qed.

Lemma post_broadcast_queue_status (s : system)
    (P : result unit -> system -> Prop) :
  let status := queue_status_message (len (transcription_queue (server s)))
                  (currently_processing (server s)) (wall_clock (ticks s)) in
  P (Ok tt)
    (after_talk s (filter (delivers status) (clients (server s))) 1
       (map (fun c => Sent c status)
          (filter (delivers status) (clients (server s))))) ->
  post broadcast_queue_status s P.
Proof.
  intros status HP. unfold post, broadcast_queue_status, bind, self, time_time.
  rewrite broadcast_message_closes_only by (intros; apply peers_only_close).
  exact HP.
Qed.

Ltac exec_step :=
  match goal with
  | |- post (bind _ _) _ _ => apply post_bind
  | |- post (try_except _ _) _ _ => apply post_try
  | |- post broadcast_queue_status _ _ =>
      apply post_broadcast_queue_status;
      cbn [server worker ticks history after_talk]
  | |- post (broadcast_message _) _ _ =>
      apply post_broadcast_message;
      cbn [server worker ticks history after_talk]
  | |- post (broadcast_transcription _ _ _) _ _ =>
      unfold broadcast_transcription
  | |- post (if ?b then _ else _) _ _ => destruct b eqn:?
  | |- post (match ?x with _ => _ end) _ _ => destruct x eqn:?
  | |- post ?m ?s ?P =>
      change (P (fst (m s)) (snd (m s)));
      cbn [fst snd self update emit logger set_worker time_time ret raise
           lift finish_transcription_task
           server worker ticks history after_talk]
  | |- match ?x with _ => _ end => destruct x eqn:?
  end.

(** The worker takes the head of the queue and submits it to the engine. *)
Lemma worker_take_proceeds (s : system) (next : task) (rest : list task) :
  transcription_queue (server s) = next :: rest ->
  worker (snd (worker_take s)) = Transcribing next
  /\ transcription_queue (server (snd (worker_take s))) = rest.
Proof.
  intros Hq.
  change (post worker_take s
            (fun _ s' => worker s' = Transcribing next
                         /\ transcription_queue (server s') = rest)).
  unfold worker_take.
  apply post_bind. exec_step. cbn beta iota. rewrite Hq.
  repeat (exec_step; cbn beta iota; project).
  now split.
Qed.

(** C8.  When the engine call raises or returns no usable text (and sends
    fail only because peers have closed), the worker logs the failure, leaves
    transcript and queue as they are (the task is not put back), resets
    [currently_processing], broadcasts the queue status, marks the task done
    and waits for the next task, which it then takes from the head of the
    queue. *)
Theorem engine_failure_does_not_stop_worker (s : system) (task_data : task)
    (outcome : result str) :
  worker s = Transcribing task_data ->
  no_text outcome ->
  let s' := step s (EngineReturns outcome) in
  let status := queue_status_message (len (transcription_queue (server s)))
                  false (wall_clock (ticks s)) in
  worker s' = Waiting
  /\ currently_processing (server s') = false
  /\ transcription_queue (server s') = transcription_queue (server s)
  /\ full_transcription (server s') = full_transcription (server s)
  /\ history s'
     = history s
       ++ [Finished outcome; Logged (failure_line task_data outcome)]
       ++ map (fun c => Sent c status)
            (filter (delivers status) (clients (server s)))
       ++ [TaskDone]
  /\ (forall next rest,
        transcription_queue (server s) = next :: rest ->
        worker (step s' WorkerTakes) = Transcribing next).
Proof.
  intros Hw Hfail s' status.
  assert (Hpost : post (worker_resume task_data outcome) s
    (fun _ s1 =>
       worker s1 = Waiting
       /\ currently_processing (server s1) = false
       /\ transcription_queue (server s1) = transcription_queue (server s)
       /\ full_transcription (server s1) = full_transcription (server s)
       /\ history s1
          = history s
            ++ [Finished outcome; Logged (failure_line task_data outcome)]
            ++ map (fun c => Sent c status)
                 (filter (delivers status) (clients (server s)))
            ++ [TaskDone])).
  { unfold worker_resume.
    repeat (exec_step; cbn beta iota; project).
    all: try (cbn [no_text] in Hfail; congruence).
    all: repeat split; cbn [failure_line];
      rewrite <- ?app_assoc; reflexivity. }
  unfold post in Hpost.
  assert (Hs' : s' = snd (worker_resume task_data outcome s)).
  { subst s'. unfold step. cbn [handle]. now rewrite Hw. }
  rewrite <- Hs' in Hpost.
  destruct Hpost as (Hwait & Hflag & Hqueue & Hlog & Hhist).
  repeat split; try assumption.
  intros next rest Hq. unfold step. cbn [handle]. rewrite Hwait.
  apply (worker_take_proceeds s' next rest). now rewrite Hqueue.
Qed.

End WorkerFacts.

(** ** What becomes of an accepted text *)

Ltac find_in :=
  match goal with
  | |- In _ (_ ++ _) =>
      first [ apply in_or_app; left; find_in
            | apply in_or_app; right; find_in ]
  | |- In _ (_ :: _) => first [ left; reflexivity | right; find_in ]
  | H : In ?c ?cs, Hsend : socket_send ?c ?m = Ok tt
    |- In (Sent ?c ?m) (map _ (filter (delivers ?m) ?cs)) =>
      apply (in_map (fun c => Sent c m)); apply filter_In;
      split; [exact H | unfold delivers; now rewrite Hsend]
  end.

Section RecordingFacts.
Context `{Numpy} `{World}.

Lemma broadcast_message_nobody (m : message) (s : system) :
  clients (server s) = [] -> broadcast_message m s = (Ok tt, s).
Proof.
  intros Hnone. unfold broadcast_message, bind, self. now rewrite Hnone.
Qed.

Lemma post_broadcast_nobody (m : message) (s : system)
    (P : result unit -> system -> Prop) :
  clients (server s) = [] -> P (Ok tt) s -> post (broadcast_message m) s P.
Proof.
  intros Hnone HP. unfold post. now rewrite broadcast_message_nobody.
Qed.

Lemma post_broadcast_reachable (m : message) (s : system)
    (P : result unit -> system -> Prop) :
  (forall c, In c (clients (server s)) -> closes_only m c) ->
  P (Ok tt)
    (after_talk s (filter (delivers m) (clients (server s))) 0
       (map (fun c => Sent c m) (filter (delivers m) (clients (server s))))) ->
  post (broadcast_message m) s P.
Proof.
  intros Hm HP. unfold post. now rewrite broadcast_message_closes_only.
Qed.

(** The worker on a text that is not blank, with somebody registered: the
    record is appended whatever the sends do. *)
Lemma worker_resume_appends (s : system) (task_data : task) (text : str) :
  nonempty (strip text) = true ->
  clients (server s) <> [] ->
  let s' := snd (worker_resume task_data (Ok text) s) in
  let item := {| item_text := text;
                 item_timestamp := task_server_timestamp task_data |} in
  full_transcription (server s') = full_transcription (server s) ++ [item]
  /\ In (Appended item (Some (task_queue_id task_data))) (history s').
Proof.
  intros Htext Hclients s' item. subst s'.
  assert (Hnonempty : nonempty text = true).
  { destruct text; [discriminate Htext | reflexivity]. }
  assert (Hnc : nonempty (clients (server s)) = true).
  { destruct (clients (server s)); [contradiction | reflexivity]. }
  change (post (worker_resume task_data (Ok text)) s
            (fun _ s1 =>
               full_transcription (server s1)
               = full_transcription (server s) ++ [item]
               /\ In (Appended item (Some (task_queue_id task_data)))
                     (history s1))).
  unfold worker_resume.
  repeat (post_step; cbn beta iota; project).
  all: try match goal with
           | Hb : _ && _ = false |- _ =>
               rewrite ?Hnonempty, ?Htext, ?Hnc in Hb; discriminate Hb
           end.
  all: try discriminate.
  all: split; [reflexivity | find_in].
Qed.

(** The same, when the sends of the [transcription] message fail only
    because peers have closed: who can be reached receives it. *)
Lemma worker_resume_delivers (s : system) (task_data : task) (text : str) :
  nonempty (strip text) = true ->
  clients (server s) <> [] ->
  let m := transcription_message text (task_server_timestamp task_data)
             (wall_clock (ticks s)) (Some (task_queue_id task_data)) in
  (forall c, In c (clients (server s)) -> closes_only m c) ->
  forall c, In c (clients (server s)) -> socket_send c m = Ok tt ->
    In (Sent c m) (history (snd (worker_resume task_data (Ok text) s))).
Proof.
  intros Htext Hclients m Hm c Hc Hsend.
  assert (Hnonempty : nonempty text = true).
  { destruct text; [discriminate Htext | reflexivity]. }
  assert (Hnc : nonempty (clients (server s)) = true).
  { destruct (clients (server s)); [contradiction | reflexivity]. }
  change (post (worker_resume task_data (Ok text)) s
            (fun _ s1 => In (Sent c m) (history s1))).
  unfold worker_resume.
  repeat (first
            [ match goal with
              | |- post (broadcast_message
                           (transcription_message _ _ _ _)) _ _ =>
                  apply post_broadcast_reachable; [exact Hm|]
              end
            | post_step ];
          cbn beta iota; project).
  all: try match goal with
           | Hb : _ && _ = false |- _ =>
               rewrite ?Hnonempty, ?Htext, ?Hnc in Hb; discriminate Hb
           end.
  all: try discriminate.
  all: fold m; find_in.
Qed.

(** The worker on a text that is not blank, with nobody registered: the text
    is logged and dropped. *)
Lemma worker_resume_drops (s : system) (task_data : task) (text : str) :
  nonempty (strip text) = true ->
  clients (server s) = [] ->
  let s' := snd (worker_resume task_data (Ok text) s) in
  full_transcription (server s') = full_transcription (server s)
  /\ history s'
     = history s
       ++ [ Finished (Ok text);
            Logged (TranscriptionResult text);
            Logged (CompletedTask (task_queue_id task_data));
            TaskDone ].
Proof.
  intros Htext Hnone s'. subst s'.
  assert (Hnonempty : nonempty text = true).
  { destruct text; [discriminate Htext | reflexivity]. }
  change (post (worker_resume task_data (Ok text)) s
            (fun _ s1 =>
               full_transcription (server s1) = full_transcription (server s)
               /\ history s1
                  = history s
                    ++ [ Finished (Ok text);
                         Logged (TranscriptionResult text);
                         Logged (CompletedTask (task_queue_id task_data));
                         TaskDone ])).
  unfold worker_resume.
  repeat (first
            [ match goal with
              | |- post broadcast_queue_status _ _ =>
                  unfold broadcast_queue_status
              | |- post (broadcast_message _) _ _ =>
                  apply post_broadcast_nobody; [exact Hnone|]
              end
            | post_step ];
          cbn beta iota; project;
          rewrite ?Hnone, ?Hnonempty, ?Htext; cbn [nonempty andb]).
  all: try discriminate.
  all: split; [reflexivity | rewrite <- ?app_assoc; reflexivity].
Qed.

(** C2, as the code has it.  The engine returns a text that is not empty
    after trimming.
    - If at least one client is registered at that moment, the worker appends
      the record (the text with the task's [server_timestamp]) to the
      transcript, whatever the sends do, and broadcasts a [transcription]
      message with the text, the task's [server_timestamp] and its
      [queue_id]; provided the sends of that message fail only because peers
      have closed, every registered client that can be reached receives it.
    - If no client is registered, nothing is appended and nothing is sent:
      the result and the completion of the task are logged, and that is
      all. *)
Theorem accepted_text_is_recorded_and_broadcast (s : system)
    (task_data : task) (text : str) :
  worker s = Transcribing task_data ->
  nonempty (strip text) = true ->
  let s' := step s (EngineReturns (Ok text)) in
  let item := {| item_text := text;
                 item_timestamp := task_server_timestamp task_data |} in
  let m := transcription_message text (task_server_timestamp task_data)
             (wall_clock (ticks s)) (Some (task_queue_id task_data)) in
  (clients (server s) <> [] ->
   full_transcription (server s') = full_transcription (server s) ++ [item]
   /\ In (Appended item (Some (task_queue_id task_data))) (history s')
   /\ ((forall c, In c (clients (server s)) -> closes_only m c) ->
       forall c, In c (clients (server s)) -> socket_send c m = Ok tt ->
         In (Sent c m) (history s')))
  /\ (clients (server s) = [] ->
      full_transcription (server s') = full_transcription (server s)
      /\ history s'
         = history s
           ++ [ Finished (Ok text);
                Logged (TranscriptionResult text);
                Logged (CompletedTask (task_queue_id task_data));
                TaskDone ])
  /\ dict_get "type" m = Some (JStr (u "transcription"))
  /\ dict_get "text" m = Some (JStr text)
  /\ dict_get "server_timestamp" m
     = Some (JFloat (task_server_timestamp task_data))
  /\ dict_get "queue_id" m = Some (JInt (task_queue_id task_data)).
Proof.
  intros Hw Htext s' item m.
  assert (Hs' : s' = snd (worker_resume task_data (Ok text) s)).
  { subst s'. unfold step. cbn [handle]. now rewrite Hw. }
  rewrite Hs'. split; [|split].
  - intros Hclients.
    destruct (worker_resume_appends s task_data text Htext Hclients)
      as [Hlog Happended].
    split; [exact Hlog|]. split; [exact Happended|].
    now apply worker_resume_delivers.
  - intros Hnone. now apply worker_resume_drops.
  - now repeat split.
Qed.

End RecordingFacts.

Lemma sample_world_peers_only_close : forall c m, closes_only m c.
Proof. intros [|[|c]] m e; cbn; congruence. Qed.

(** C8 at work: the engine raises on the first task. *)
Lemma engine_failure_does_not_stop_worker_witness :
  let s' := step listening
              (EngineReturns (Raise (OtherException (u "engine down")))) in
  worker s' = Waiting
  /\ currently_processing (server s') = false
  /\ transcription_queue (server s') = []
  /\ full_transcription (server s') = [].
Proof.
  destruct (engine_failure_does_not_stop_worker sample_world_peers_only_close
              listening first_task
              (Raise (OtherException (u "engine down"))))
    as (Hwait & Hflag & Hqueue & Hlog & _).
  - reflexivity.
  - exact I.
  - repeat split; assumption.
Defined.

(** C2 fails as stated.  The viewer that streamed the audio has left before
    the engine returns "hello world": nothing is appended to the transcript
    and no [transcription] message is sent. *)
Lemma no_viewer_counterexample :
  worker abandoned = Transcribing first_task
  /\ transcribe sample_transcriber (task_audio_chunk first_task)
     = u "hello world"
  /\ nonempty (strip (u "hello world")) = true
  /\ full_transcription
       (server (step abandoned (EngineReturns (Ok (u "hello world"))))) = []
  /\ history (step abandoned (EngineReturns (Ok (u "hello world"))))
     = history abandoned
       ++ [ Finished (Ok (u "hello world"));
            Logged (TranscriptionResult (u "hello world"));
            Logged (CompletedTask 1);
            TaskDone ].
Proof. vm_compute. repeat split. Qed.

(** C2 at work: with the viewer still connected the record is appended and
    the viewer receives the message. *)
Lemma accepted_text_is_recorded_and_broadcast_witness :
  let s' := step listening (EngineReturns (Ok (u "hello world"))) in
  full_transcription (server s')
  = [ {| item_text := u "hello world"; item_timestamp := 1700000000 |} ]
  /\ In (Sent 7%nat
           (transcription_message (u "hello world") 1700000000 1700000003
              (Some 1)))
        (history s').
Proof.
  destruct (accepted_text_is_recorded_and_broadcast listening first_task
              (u "hello world"))
    as ((Hlog & _ & Hsent) & _).
  - vm_compute. reflexivity.
  - vm_compute. reflexivity.
  - vm_compute. discriminate.
  - split; [exact Hlog|].
    apply (Hsent (fun c _ => sample_world_peers_only_close c _) 7%nat).
    + vm_compute. now left.
    + reflexivity.
Defined.

(** ** Order of the transcript *)

Lemma subseq_In {A} (l l' : list A) (x : A) :
  subseq l l' -> In x l -> In x l'.
Proof.
  induction 1 as [|y l l' _ IH|y l l' _ IH]; intros Hin.
  - assumption.
  - right. now apply IH.
  - destruct Hin as [<- | Hin]; [now left | right; now apply IH].
Qed.

Lemma subseq_sorted {A} (R : A -> A -> Prop) (l l' : list A) :
  subseq l l' -> StronglySorted R l' -> StronglySorted R l.
Proof.
  induction 1 as [|y l l' Hsub IH|y l l' Hsub IH]; intros Hs.
  - constructor.
  - apply IH. now inversion Hs.
  - inversion Hs as [|? ? Hs' Hall]; subst. constructor; [now apply IH|].
    rewrite Forall_forall in *. intros x Hx. apply Hall.
    now apply (subseq_In l l').
Qed.

Lemma subseq_app_r {A} (l l' extra : list A) :
  subseq l l' -> subseq l (l' ++ extra).
Proof.
  intros Hsub. induction extra as [|x extra IH] using rev_ind.
  - now rewrite app_nil_r.
  - rewrite app_assoc. now apply subseq_app_skip.
Qed.

Lemma sorted_prefix {A} (R : A -> A -> Prop) (l l' : list A) :
  StronglySorted R (l ++ l') -> StronglySorted R l.
Proof.
  induction l as [|x l IH]; intros Hs; [constructor|].
  cbn [app] in Hs. inversion Hs as [|? ? Hs' Hall]; subst.
  constructor; [now apply IH|].
  rewrite Forall_forall in *. intros y Hy. apply Hall.
  apply in_or_app. now left.
Qed.

Lemma arrival_numbers_sorted (n : nat) : forall a,
  StronglySorted Z.lt (map Z.of_nat (seq a n)).
Proof.
  induction n as [|n IH]; intros a; cbn [seq map]; constructor.
  - apply IH.
  - apply Forall_forall. intros x Hx.
    apply in_map_iff in Hx as (k & <- & Hk). apply in_seq in Hk. lia.
Qed.

Section OrderFacts.
Context `{Numpy} `{World}.

(** C1.  In every execution of the server, whatever the interleaving of
    connections, audio frames, control messages and engine completions: the
    worker takes tasks off the queue in the order they were put on it; engine
    calls never overlap; the tasks carry the queue ids 1, 2, 3, ... in
    arrival order; and the entries of the transcript were appended in
    strictly increasing queue id order, the transcript being exactly what
    these appends (and the clears) leave behind. *)
Theorem transcript_order_is_arrival_order (ab : AudioBuffer)
    (tr : WhisperTranscriber) (su : GeminiSummarizer) (no : NotionClient)
    (evs : list event) :
  let s := run (start ab tr su no) evs in
  let h := history s in
  puts h = gots h ++ transcription_queue (server s)
  /\ serial false h
  /\ map task_queue_id (puts h)
     = map Z.of_nat (seq 1 (List.length (puts h)))
  /\ subseq (appended_ids h) (map task_queue_id (gots h))
  /\ StronglySorted Z.lt (appended_ids h)
  /\ full_transcription (server s) = replay [] h.
Proof.
  intros s h.
  destruct (run_invariant evs _ (start_invariant ab tr su no))
    as [F I C L S B [settled [G A]] St].
  fold s in F, I, C, L, S, B, G, A, St. fold h in F, I, C, L, S, B, G, A, St.
  assert (Hsub : subseq (appended_ids h) (map task_queue_id (gots h))).
  { rewrite G, map_app. now apply subseq_app_r. }
  repeat split; try assumption.
  apply (subseq_sorted Z.lt _ _ Hsub).
  apply (sorted_prefix Z.lt _ (map task_queue_id (transcription_queue (server s)))).
  rewrite <- map_app, <- F, I. apply arrival_numbers_sorted.
Qed.

(** C10.  [broadcast_queue_status] sends nothing but the status message built
    from the size of the queue and the processing flag at that moment; and in
    every execution, every [queue_status] message that was sent has a
    non-negative [pending_count] and a [processing_count] that is
    [pending_count + 1] when [currently_processing] is true and
    [pending_count] otherwise. *)
Theorem queue_status_counts_agree :
  (forall s, exists cs l,
      snd (broadcast_queue_status s) = after_talk s cs 1 l
      /\ forall e, In e l -> exists c,
           e = Sent c (queue_status_message
                         (len (transcription_queue (server s)))
                         (currently_processing (server s))
                         (wall_clock (ticks s))))
  /\ (forall ab tr su no evs c m,
        In (Sent c m) (history (run (start ab tr su no) evs)) ->
        dict_get "type" m = Some (JStr (u "queue_status")) ->
        exists pending processing,
          dict_get "pending_count" m = Some (JInt pending)
          /\ dict_get "currently_processing" m = Some (JBool processing)
          /\ dict_get "processing_count" m
             = Some (JInt (pending + if processing then 1 else 0))
          /\ 0 <= pending).
Proof.
  split.
  - intros s. apply broadcast_queue_status_sends.
  - intros ab tr su no evs c m Hin Htype.
    destruct (run_invariant evs _ (start_invariant ab tr su no))
      as [_ _ _ _ _ _ _ St].
    exact (St c m Hin Htype).
Qed.

End OrderFacts.

(** C10 at work: the status broadcast that follows the first enqueue. *)
Lemma queue_status_counts_agree_witness :
  exists pending processing,
    dict_get "pending_count" (queue_status_message 1 false 1700000001)
    = Some (JInt pending)
    /\ dict_get "currently_processing"
         (queue_status_message 1 false 1700000001)
       = Some (JBool processing)
    /\ dict_get "processing_count" (queue_status_message 1 false 1700000001)
       = Some (JInt (pending + if processing then 1 else 0))
    /\ 0 <= pending.
Proof.
  apply (proj2 (@queue_status_counts_agree exact_numpy sample_world)
           small_audio_buffer sample_transcriber
           failing_summarizer absent_notion first_utterance 7%nat).
  - vm_compute. do 4 right. left. reflexivity.
  - reflexivity.
Defined.

(** ** Summarization requests *)


Section SummaryFacts.
Context `{Numpy} `{World}.

(** What [summarize] returns when the model is missing or fails. *)
Lemma summarize_without_model (self : GeminiSummarizer) (text : str)
    (custom_prompt : json) :
  gemini_model self = None ->
  summarize self text custom_prompt
  = u "AI summarization not available (API key missing)".
Proof. intros Hm. unfold summarize. now rewrite Hm. Qed.

Lemma summarize_failure (self : GeminiSummarizer) (text : str)
    (custom_prompt : str) (generate_content : str -> result str) (e : exn) :
  gemini_model self = Some generate_content ->
  (forall prompt, generate_content prompt = Raise e) ->
  summarize self text (JStr custom_prompt)
  = u "Summarization error: " ++ exn_str e.
Proof.
  intros Hm Hfail. unfold summarize. rewrite Hm. cbn [py_strip rbind].
  now rewrite Hfail.
Qed.

Lemma save_summary_failure (self : NotionClient) (summary : str) (e : exn) :
  is_available self = true ->
  create_page self summary = Raise e ->
  save_summary self summary
  = JDict [ ("success", JBool false); ("message", JStr (exn_str e)) ]%string.
Proof.
  intros Ha Hc. unfold save_summary. now rewrite Ha, Hc.
Qed.


End SummaryFacts.



(* ================================================================== *)
(** * Part III.  Further properties of the code                        *)
(* ================================================================== *)

(** ** Stripping *)

Lemma lstrip_splits (t : str) :
  exists blank, t = blank ++ lstrip t /\ forallb isspace blank = true.
Proof.
  induction t as [|c t IH]; [now exists []|].
  cbn [lstrip]. destruct (isspace c) eqn:Hc.
  - destruct IH as (blank & Ht & Hb). exists (c :: blank). split.
    + cbn [app]. now rewrite <- Ht.
    + cbn [forallb]. now rewrite Hc.
  - now exists [].
Qed.

Lemma lstrip_fixed (t : str) :
  lstrip t = t <-> t = [] \/ exists c t', t = c :: t' /\ isspace c = false.
Proof.
  split.
  - intros Hfix. destruct t as [|c t']; [now left|]. right.
    exists c, t'. split; [reflexivity|].
    cbn [lstrip] in Hfix. destruct (isspace c); [|reflexivity].
    exfalso. destruct (lstrip_splits t') as (blank & Ht & _).
    assert (Hlen : List.length t'
                   = (List.length blank + List.length (lstrip t'))%nat)
      by (rewrite Ht at 1; apply length_app).
    rewrite Hfix in Hlen. cbn [List.length] in Hlen. lia.
  - intros [-> | (c & t' & -> & Hc)]; [reflexivity|].
    cbn [lstrip]. now rewrite Hc.
Qed.

Lemma lstrip_idempotent (t : str) : lstrip (lstrip t) = lstrip t.
Proof.
  induction t as [|c t IH]; [reflexivity|].
  cbn [lstrip]. destruct (isspace c) eqn:Hc; [exact IH|].
  cbn [lstrip]. now rewrite Hc.
Qed.

(** What [strip] returns has nothing left to strip. *)
Lemma strip_clean (t : str) : clean (strip t).
Proof.
  unfold clean, strip, rstrip. rewrite rev_involutive. split.
  - destruct (lstrip_splits (rev (lstrip t))) as (blank & Hrev & _).
    set (b := lstrip (rev (lstrip t))) in *.
    apply lstrip_fixed. destruct (rev b) as [|c r'] eqn:Hb; [now left|].
    right. exists c, r'. split; [reflexivity|].
    assert (Ha : lstrip t = c :: r' ++ rev blank).
    { rewrite <- (rev_involutive (lstrip t)), Hrev, rev_app_distr, Hb.
      reflexivity. }
    pose proof (lstrip_idempotent t) as Hidem. rewrite Ha in Hidem.
    cbn [lstrip] in Hidem. destruct (isspace c); [|reflexivity].
    exfalso. destruct (lstrip_splits (r' ++ rev blank)) as (blank' & Hs & _).
    assert (Hlen : List.length (r' ++ rev blank)
                   = (List.length blank'
                      + List.length (lstrip (r' ++ rev blank)))%nat)
      by (rewrite Hs at 1; apply length_app).
    rewrite Hidem in Hlen. cbn [List.length] in Hlen. lia.
  - apply lstrip_idempotent.
Qed.

Lemma strip_of_clean (t : str) : clean t -> strip t = t.
Proof.
  intros [Hl Hr]. unfold strip, rstrip. rewrite Hl, Hr.
  apply rev_involutive.
Qed.

Lemma strip_idempotent (t : str) : strip (strip t) = strip t.
Proof. apply strip_of_clean, strip_clean. Qed.

(** ** Patterns *)

Lemma matches_nil_nullable (r : regex) (t : str) :
  matches r t -> t = [] -> nullable r = true.
Proof.
  induction 1 as [ | p c Hp | r s t t' _ IHr _ IHs | r s t _ IH | r s t _ IH
                 | r | r t t' _ _ _ _ ]; intros Hnil; cbn [nullable];
    try reflexivity; try discriminate.
  - apply app_eq_nil in Hnil as [-> ->]. now rewrite IHr, IHs.
  - now rewrite IH.
  - rewrite IH by assumption. apply orb_true_r.
Qed.

Lemma matches_deriv (r : regex) (t : str) :
  matches r t -> forall c t', t = c :: t' -> matches (deriv c r) t'.
Proof.
  induction 1 as [ | p x Hp | r s t1 t2 Hr IHr Hs IHs | r s t _ IH
                 | r s t _ IH | r | r t1 t2 Hr IHr Hs IHs ];
    intros c t' Heq; cbn [deriv]; try discriminate.
  - injection Heq as -> <-. rewrite Hp. constructor.
  - destruct t1 as [|x t1'].
    + cbn [app] in Heq. subst t2.
      rewrite (matches_nil_nullable r [] Hr eq_refl).
      apply matches_alt_r. now apply IHs.
    + cbn [app] in Heq. injection Heq as -> <-.
      assert (Hd : matches (Cat (deriv c r) s) (t1' ++ t2))
        by (constructor; [now apply IHr | assumption]).
      destruct (nullable r); [now apply matches_alt_l | assumption].
  - apply matches_alt_l. now apply IH.
  - apply matches_alt_r. now apply IH.
  - destruct t1 as [|x t1'].
    + cbn [app] in Heq. now apply IHs.
    + cbn [app] in Heq. injection Heq as -> <-.
      constructor; [now apply IHr | assumption].
Qed.

(** The derivative matcher accepts every text of the language. *)
Lemma matches_fullmatch (t : str) : forall r,
  matches r t -> fullmatch r t = true.
Proof.
  unfold fullmatch. induction t as [|c t IH]; intros r Hm; cbn [derivs].
  - now apply (matches_nil_nullable r []).
  - apply IH. now apply (matches_deriv r (c :: t)).
Qed.

Lemma matches_anchored (r : regex) (t : str) :
  matches r t -> re_match_anchored r t = true.
Proof.
  intros Hm. unfold re_match_anchored. apply matches_fullmatch.
  rewrite <- (app_nil_r t). constructor; [assumption|].
  apply matches_alt_l. constructor.
Qed.

Lemma matches_star_class (p : char -> bool) (t : str) :
  forallb p t = true -> matches (Star (Cls p)) t.
Proof.
  induction t as [|c t IH]; intros Hall; [constructor|].
  cbn [forallb] in Hall. apply andb_true_iff in Hall as [Hc Ht].
  change (c :: t) with ([c] ++ t).
  constructor; [now constructor | now apply IH].
Qed.

Lemma matches_plus_class (p : char -> bool) (t : str) :
  t <> [] -> forallb p t = true -> matches (Plus (Cls p)) t.
Proof.
  intros Hne Hall. destruct t as [|c t]; [contradiction|].
  cbn [forallb] in Hall. apply andb_true_iff in Hall as [Hc Ht].
  change (c :: t) with ([c] ++ t). unfold Plus.
  constructor; [now constructor | now apply matches_star_class].
Qed.

Lemma matches_literal (f : char -> char -> bool) (w t : str) :
  Forall2 (fun c x => f c x = true) w t -> matches (Lit f w) t.
Proof.
  induction 1 as [|c x w t Hc _ IH]; cbn [Lit]; [constructor|].
  change (x :: t) with ([x] ++ t).
  constructor; [now constructor | assumption].
Qed.

Lemma matches_one_of (rs : list regex) (r : regex) (t : str) :
  In r rs -> matches r t -> matches (AltL rs) t.
Proof.
  induction rs as [|r0 rs IH]; intros Hin Hm; [contradiction|].
  destruct Hin as [-> | Hin].
  - destruct rs; [assumption | now apply matches_alt_l].
  - destruct rs as [|r1 rs']; [contradiction|].
    cbn [AltL]. apply matches_alt_r. now apply IH.
Qed.

Lemma literal_matches_itself (w : str) : Forall2 (fun c x => exactly c x = true) w w.
Proof.
  induction w as [|c w IH]; constructor; [|assumption].
  unfold exactly. apply N.eqb_refl.
Qed.

(** ** More on the validity filter *)

Section FilterLaws.
Context `{Numpy}.
Local Open Scope result_scope.

Lemma word_repetition_loop_total (self : WhisperTranscriber)
    (words : list str) (indices : list Z) :
  (forall k, In k indices ->
     exists b, all_same_as words k (range2 1 (max_repetition_words self + 1))
               = Ok b) ->
  exists b, word_repetition_loop self words indices = Ok b.
Proof.
  induction indices as [|k rest IH]; intros Htotal;
    cbn [word_repetition_loop]; [eexists; reflexivity|].
  destruct (Htotal k (or_introl eq_refl)) as [b ->]. cbn [rbind].
  destruct b; [eexists; reflexivity|].
  apply IH. intros j Hj. apply Htotal. now right.
Qed.

(** X1.  With [max_repetition_chars] at least 3 the filter returns a verdict
    for every text: none of its index expressions leaves the text or the word
    list. *)
Theorem is_valid_transcription_total (self : WhisperTranscriber) (text : str) :
  3 <= max_repetition_chars self ->
  exists verdict, is_valid_transcription self text = Ok verdict.
Proof.
  intros Hchars. unfold is_valid_transcription.
  destruct (_ || _); [eexists; reflexivity|].
  destruct (len (strip text) >? max_text_length self); [eexists; reflexivity|].
  destruct (char_repetition_loop_total self (strip text)
              (range (len (strip text) - max_repetition_chars self)))
    as [hit ->].
  { intros k Hk. apply in_range in Hk. lia. }
  cbn [rbind]. destruct hit; [eexists; reflexivity|].
  destruct (len (split (strip text)) >=? max_repetition_words self * 2).
  - destruct (word_repetition_loop_total self (split (strip text))
                (range (len (split (strip text)) - max_repetition_words self)))
      as [hit ->].
    { intros k Hk. apply in_range in Hk. apply all_same_as_total; [lia|].
      intros j Hj. apply in_range2 in Hj. lia. }
    cbn [rbind]. destruct hit; [eexists; reflexivity|].
    destruct (existsb _ _); eexists; reflexivity.
  - cbn [rbind]. destruct (existsb _ _); eexists; reflexivity.
Qed.

(** A text that one of the noise patterns matches is never accepted. *)
Lemma noise_match_rejects (self : WhisperTranscriber) (text : str)
    (pattern : regex) :
  In pattern noise_patterns ->
  re_match_anchored pattern (strip text) = true ->
  is_valid_transcription self text <> Ok true.
Proof.
  intros Hin Hmatch. unfold is_valid_transcription.
  assert (Hnoise : existsb (fun p => re_match_anchored p (strip text))
                     noise_patterns = true).
  { apply existsb_exists. now exists pattern. }
  rewrite Hnoise.
  destruct (_ || _); [discriminate|].
  destruct (len (strip text) >? max_text_length self); [discriminate|].
  destruct (char_repetition_loop _ _ _) as [[|]|e]; cbn [rbind];
    try discriminate.
  destruct (if len (split (strip text)) >=? max_repetition_words self * 2
            then _ else _) as [[|]|e]; cbn [rbind]; discriminate.
Qed.

Lemma accepted_text_not_blank (self : WhisperTranscriber) (text : str) :
  is_valid_transcription self text = Ok true -> strip text <> [].
Proof.
  intros Hvalid Hblank.
  apply (noise_match_rejects self text (Star (Cls isspace)));
    [ | now rewrite Hblank | assumption ].
  cbn. tauto.
Qed.

(** X2.  Whatever the configured limits, an accepted text has visible
    characters, and its trimmed length lies between [min_text_length] and
    [max_text_length]. *)
Theorem accepted_text_is_visible (self : WhisperTranscriber) (text : str) :
  is_valid_transcription self text = Ok true ->
  text <> []
  /\ strip text <> []
  /\ min_text_length self <= len (strip text) <= max_text_length self.
Proof.
  intros Hvalid.
  pose proof (accepted_text_not_blank self text Hvalid) as Hvisible.
  unfold is_valid_transcription in Hvalid.
  destruct text as [|c text']; [discriminate Hvalid|].
  cbn [orb] in Hvalid.
  destruct (len (strip (c :: text')) <? min_text_length self) eqn:Hmin;
    [discriminate Hvalid|].
  destruct (len (strip (c :: text')) >? max_text_length self) eqn:Hmax;
    [discriminate Hvalid|].
  apply Z.ltb_ge in Hmin. rewrite Z.gtb_ltb in Hmax. apply Z.ltb_ge in Hmax.
  repeat split; try assumption. discriminate.
Qed.

(** X3.  When [min_text_length] is at least 1, whitespace around a text does
    not change the verdict. *)
Theorem verdict_ignores_surrounding_whitespace (self : WhisperTranscriber)
    (text : str) :
  1 <= min_text_length self ->
  is_valid_transcription self (strip text) = is_valid_transcription self text.
Proof.
  intros Hmin. unfold is_valid_transcription. rewrite strip_idempotent.
  destruct text as [|c text']; [reflexivity|].
  destruct (strip (c :: text')) as [|x r] eqn:Hstrip; [|reflexivity].
  cbn [orb]. change (len (@nil char)) with 0.
  replace (0 <? min_text_length self) with true; [reflexivity|].
  symmetry. apply Z.ltb_lt. lia.
Qed.

(** X4.  A text made only of decimal digits, only of the listed symbols, or
    only of the listed single kana is never accepted. *)
Theorem noise_only_text_never_accepted (self : WhisperTranscriber)
    (text : str) :
  strip text <> [] ->
  forallb is_decimal (strip text) = true
  \/ forallb is_symbol (strip text) = true
  \/ forallb is_kana_single (strip text) = true ->
  is_valid_transcription self text <> Ok true.
Proof.
  intros Hne [Hall | [Hall | Hall]].
  - apply (noise_match_rejects self text (Plus (Cls is_decimal)));
      [cbn; tauto|]. now apply matches_anchored, matches_plus_class.
  - apply (noise_match_rejects self text (Plus (Cls is_symbol)));
      [cbn; tauto|]. now apply matches_anchored, matches_plus_class.
  - apply (noise_match_rejects self text (Plus (Cls is_kana_single)));
      [cbn; tauto|]. now apply matches_anchored, matches_plus_class.
Qed.

(** X5.  A text that is one of the English filler words in any mixture of
    upper and lower case, or one of the Japanese filler words, is never
    accepted. *)
Theorem filler_word_never_accepted (self : WhisperTranscriber) (text : str) :
  (exists word, In word english_fillers
                /\ Forall2 (fun c x => ci c x = true) word (strip text))
  \/ In (strip text) kana_fillers ->
  is_valid_transcription self text <> Ok true.
Proof.
  intros [(word & Hin & Hcase) | Hin].
  - apply (noise_match_rejects self text
             (Cat (AltL (map (Lit ci) english_fillers))
                  (Star (Cls isspace)))); [cbn; tauto|].
    apply matches_anchored. rewrite <- (app_nil_r (strip text)).
    constructor; [|constructor].
    apply (matches_one_of _ (Lit ci word)); [now apply in_map|].
    now apply matches_literal.
  - apply (noise_match_rejects self text
             (Cat (AltL (map (Lit exactly) kana_fillers))
                  (Star (Cls isspace)))); [cbn; tauto|].
    apply matches_anchored. rewrite <- (app_nil_r (strip text)).
    constructor; [|constructor].
    apply (matches_one_of _ (Lit exactly (strip text))); [now apply in_map|].
    apply matches_literal, literal_matches_itself.
Qed.

(** X6.  Whatever the model returns or raises, [transcribe] returns either
    the empty string or a text that the filter accepts, that has no
    surrounding whitespace and is not empty; the worker's own test
    [text and text.strip()] then only asks whether the result is empty. *)
Theorem transcribe_returns_nothing_or_accepted_text
    (self : WhisperTranscriber) (audio_chunk : list sample) :
  let text := transcribe self audio_chunk in
  (text = []
   \/ (is_valid_transcription self text = Ok true
       /\ strip text = text /\ text <> []))
  /\ nonempty text && nonempty (strip text) = nonempty text.
Proof.
  cbn zeta.
  assert (Hcases : transcribe self audio_chunk = []
    \/ (is_valid_transcription self (transcribe self audio_chunk) = Ok true
        /\ strip (transcribe self audio_chunk) = transcribe self audio_chunk
        /\ transcribe self audio_chunk <> [])).
  { unfold transcribe. destruct (model self audio_chunk) as [segments|e];
      cbn [rbind]; [|now left].
    destruct (is_valid_transcription self (strip (List.concat segments)))
      as [[|]|e] eqn:Hvalid; cbn [rbind]; [|now left|now left].
    right. split; [assumption|]. split; [apply strip_idempotent|].
    rewrite <- strip_idempotent.
    now apply (accepted_text_not_blank self). }
  split; [exact Hcases|].
  destruct Hcases as [-> | (_ & -> & Hne)]; [reflexivity|].
  now destruct (transcribe self audio_chunk).
Qed.

End FilterLaws.

(** X1 at work, and what happens below the bound: with
    [max_repetition_chars = 2] the comparison reads past the end of
    ["xaaa"]. *)
Lemma is_valid_transcription_total_witness :
  (exists verdict,
      is_valid_transcription (configured_transcriber (fun _ => Ok []))
        (u "hello world") = Ok verdict)
  /\ is_valid_transcription
       {| model := fun _ => Ok []; min_text_length := 2;
          max_text_length := 2000; max_repetition_chars := 2;
          max_repetition_words := 2 |} (u "xaaa") = Raise IndexError.
Proof.
  split; [|reflexivity].
  apply (is_valid_transcription_total
           (configured_transcriber (fun _ => Ok [])) (u "hello world")).
  decide_order.
Defined.

Lemma accepted_text_is_visible_witness :
  u "hello world" <> []
  /\ strip (u "hello world") <> []
  /\ 2 <= len (strip (u "hello world")) <= 2000.
Proof.
  apply (accepted_text_is_visible (configured_transcriber (fun _ => Ok []))
           (u "hello world")).
  reflexivity.
Defined.

Lemma verdict_ignores_surrounding_whitespace_witness :
  is_valid_transcription (configured_transcriber (fun _ => Ok []))
    (strip (u "  hello world "))
  = is_valid_transcription (configured_transcriber (fun _ => Ok []))
      (u "  hello world ").
Proof.
  apply (verdict_ignores_surrounding_whitespace
           (configured_transcriber (fun _ => Ok [])) (u "  hello world ")).
  decide_order.
Defined.

Lemma noise_only_text_never_accepted_witness :
  is_valid_transcription (configured_transcriber (fun _ => Ok []))
    (u "12345") <> Ok true.
Proof.
  apply (noise_only_text_never_accepted
           (configured_transcriber (fun _ => Ok [])) (u "12345")).
  - discriminate.
  - left. reflexivity.
Defined.

Lemma filler_word_never_accepted_witness :
  is_valid_transcription (configured_transcriber (fun _ => Ok []))
    (u "Hmm") <> Ok true.
Proof.
  apply (filler_word_never_accepted
           (configured_transcriber (fun _ => Ok [])) (u "Hmm")).
  left. exists (u "hmm"). split.
  - cbn. tauto.
  - repeat constructor.
Defined.

(** ** More on the segmenter *)

Lemma subseq_nil_l {A} (l : list A) : subseq [] l.
Proof. induction l; now constructor. Qed.

Lemma subseq_app_l {A} (prefix l l' : list A) :
  subseq l l' -> subseq l (prefix ++ l').
Proof.
  intros Hsub. induction prefix as [|x prefix IH]; [assumption|].
  cbn [app]. now apply subseq_skip.
Qed.

Lemma subseq_app_both {A} (prefix l l' : list A) :
  subseq l l' -> subseq (prefix ++ l) (prefix ++ l').
Proof.
  intros Hsub. induction prefix as [|x prefix IH]; [assumption|].
  cbn [app]. now apply subseq_keep.
Qed.

Section SegmenterLaws.
Context `{Numpy}.

(** The four ways a call of [add_audio] can end. *)
Lemma add_audio_cases (self : AudioBuffer) (audio_data : list sample) :
  let count := if flt (rms audio_data) (silence_threshold self)
               then current_silence_count self + len audio_data else 0 in
  let chunk := audio_chunk self ++ audio_data in
  let limit := sample_rate self * max_audio_chunk_duration self in
  add_audio self audio_data = (with_buffer self [] 0, Some chunk)
  \/ (add_audio self audio_data = (with_buffer self [] 0, None) /\ 0 <= limit)
  \/ (add_audio self audio_data = (with_buffer self chunk count, None)
      /\ len chunk <= limit)
  \/ (add_audio self audio_data = (with_buffer self [] 0, Some [])
      /\ limit < 0).
Proof.
  intros count chunk limit. unfold add_audio.
  cbn [current_silence_count audio_chunk silence_frames min_chunk_length
       min_audio_level with_buffer].
  fold count. fold chunk.
  destruct ((count >=? silence_frames self)
            && (len chunk >=? min_chunk_length self)).
  - destruct (flt (min_audio_level self) (rms chunk)); [now left|].
    unfold force_split.
    cbn [audio_chunk sample_rate max_audio_chunk_duration with_buffer].
    change (len (@nil sample)) with 0. fold limit.
    destruct (0 >? limit) eqn:Hlimit.
    + right. right. right. split; [reflexivity|]. apply Z.gtb_lt in Hlimit.
      lia.
    + right. left. split; [reflexivity|]. rewrite Z.gtb_ltb in Hlimit.
      apply Z.ltb_ge in Hlimit. lia.
  - unfold force_split.
    cbn [audio_chunk sample_rate max_audio_chunk_duration with_buffer].
    fold limit. destruct (len chunk >? limit) eqn:Hlimit; [now left|].
    right. right. left. split; [reflexivity|]. rewrite Z.gtb_ltb in Hlimit.
    apply Z.ltb_ge in Hlimit. lia.
Qed.

(** X7.  With a maximum chunk length that is not negative, a chunk that
    [add_audio] returns is always the whole accumulated buffer, and the
    buffer and the silence counter start afresh; when nothing is returned the
    buffer is either kept whole or emptied.  The thresholds of the buffer
    never change. *)
Theorem add_audio_never_cuts_a_chunk (self : AudioBuffer)
    (audio_data : list sample) :
  0 <= sample_rate self * max_audio_chunk_duration self ->
  let after := fst (add_audio self audio_data) in
  match snd (add_audio self audio_data) with
  | Some chunk =>
      chunk = audio_chunk self ++ audio_data
      /\ audio_chunk after = [] /\ current_silence_count after = 0
  | None =>
      audio_chunk after = audio_chunk self ++ audio_data
      \/ (audio_chunk after = [] /\ current_silence_count after = 0)
  end
  /\ sample_rate after = sample_rate self
  /\ silence_threshold after = silence_threshold self
  /\ min_audio_level after = min_audio_level self
  /\ max_audio_chunk_duration after = max_audio_chunk_duration self
  /\ silence_frames after = silence_frames self
  /\ min_chunk_length after = min_chunk_length self.
Proof.
  intros Hlimit after. subst after.
  destruct (add_audio_cases self audio_data)
    as [-> | [[-> _] | [[-> _] | [_ Hneg]]]]; cbn; try tauto.
  lia.
Qed.

(** X8.  Started from a buffer within the maximum chunk length and fed
    batches of at most [batch_limit] samples, the segmenter keeps its buffer
    within the maximum after every call, and hands out chunks of at most the
    maximum plus [batch_limit] samples. *)
Theorem feed_keeps_buffer_and_chunks_bounded (batches : list (list sample))
    (batch_limit : Z) : forall self : AudioBuffer,
  0 <= sample_rate self * max_audio_chunk_duration self ->
  len (audio_chunk self) <= sample_rate self * max_audio_chunk_duration self ->
  Forall (fun audio_data => len audio_data <= batch_limit) batches ->
  len (audio_chunk (fst (feed self batches)))
  <= sample_rate self * max_audio_chunk_duration self
  /\ Forall (fun chunk =>
               len chunk
               <= sample_rate self * max_audio_chunk_duration self
                  + batch_limit)
       (snd (feed self batches)).
Proof.
  induction batches as [|audio_data rest IH]; intros self Hlimit Hbuf Hall.
  - cbn. split; [assumption | constructor].
  - inversion Hall as [|? ? Hbatch Hrest]; subst. cbn [feed].
    assert (Hacc : len (audio_chunk self ++ audio_data)
                   <= sample_rate self * max_audio_chunk_duration self
                      + batch_limit)
      by (rewrite len_app; lia).
    assert (Hreset : len (audio_chunk (with_buffer self [] 0))
                     <= sample_rate self * max_audio_chunk_duration self)
      by (cbn [audio_chunk with_buffer];
          change (len (@nil sample)) with 0; lia).
    destruct (add_audio_cases self audio_data)
      as [-> | [[-> _] | [[-> Hkept] | [_ Hneg]]]]; [| | |lia].
    + destruct (IH (with_buffer self [] 0) Hlimit Hreset Hrest) as [Hb Hc].
      destruct (feed (with_buffer self [] 0) rest) as [self' outs].
      cbn [fst snd] in *. split; [exact Hb|]. constructor; assumption.
    + destruct (IH (with_buffer self [] 0) Hlimit Hreset Hrest) as [Hb Hc].
      destruct (feed (with_buffer self [] 0) rest) as [self' outs].
      cbn [fst snd] in *. split; assumption.
    + match goal with
      | |- context [feed ?mid rest] =>
          destruct (IH mid Hlimit Hkept Hrest) as [Hb Hc];
          destruct (feed mid rest) as [self' outs]
      end.
      cbn [fst snd] in *. split; assumption.
Qed.

(** X9.  The silence counter is never negative and never exceeds the number
    of buffered samples: this holds after every call once it holds before
    the first. *)
Theorem feed_keeps_silence_count_within_buffer
    (batches : list (list sample)) : forall self : AudioBuffer,
  0 <= current_silence_count self <= len (audio_chunk self) ->
  0 <= current_silence_count (fst (feed self batches))
    <= len (audio_chunk (fst (feed self batches))).
Proof.
  induction batches as [|audio_data rest IH]; intros self Hcount;
    [exact Hcount|].
  cbn [feed].
  assert (Hnext : forall mid out,
            add_audio self audio_data = (mid, out) ->
            0 <= current_silence_count mid <= len (audio_chunk mid)).
  { intros mid out Hadd.
    destruct (add_audio_cases self audio_data)
      as [Heq | [[Heq _] | [[Heq _] | [Heq _]]]];
      rewrite Heq in Hadd; injection Hadd as <- _; cbn; try lia.
    rewrite len_app. pose proof (len_nonneg audio_data).
    destruct (flt _ _); lia. }
  destruct (add_audio self audio_data) as [mid out].
  specialize (IH mid (Hnext mid out eq_refl)).
  destruct (feed mid rest) as [self' outs]. exact IH.
Qed.

(** X10.  The chunks handed out, in order, followed by what is left in the
    buffer, are the buffered and fed samples in their original order with
    zero or more stretches removed: no sample is duplicated, reordered or
    invented. *)
Theorem feed_preserves_sample_order (batches : list (list sample)) :
  forall self : AudioBuffer,
    subseq (List.concat (snd (feed self batches))
            ++ audio_chunk (fst (feed self batches)))
           (audio_chunk self ++ List.concat batches).
Proof.
  induction batches as [|audio_data rest IH]; intros self.
  - cbn. rewrite app_nil_r. apply subseq_refl.
  - cbn [feed List.concat]. rewrite app_assoc.
    destruct (add_audio_cases self audio_data)
      as [-> | [[-> _] | [[-> _] | [-> _]]]].
    + specialize (IH (with_buffer self [] 0)).
      destruct (feed (with_buffer self [] 0) rest) as [self' outs].
      cbn [fst snd List.concat audio_chunk with_buffer app] in *.
      rewrite <- app_assoc. now apply subseq_app_both.
    + specialize (IH (with_buffer self [] 0)).
      destruct (feed (with_buffer self [] 0) rest) as [self' outs].
      cbn [fst snd audio_chunk with_buffer app] in *.
      now apply subseq_app_l.
    + match goal with
      | |- context [feed ?mid rest] =>
          specialize (IH mid); destruct (feed mid rest) as [self' outs]
      end.
      cbn [fst snd audio_chunk with_buffer] in *. exact IH.
    + specialize (IH (with_buffer self [] 0)).
      destruct (feed (with_buffer self [] 0) rest) as [self' outs].
      cbn [fst snd List.concat audio_chunk with_buffer app] in *.
      now apply subseq_app_l.
Qed.

End SegmenterLaws.

Lemma add_audio_never_cuts_a_chunk_witness :
  snd (add_audio small_after_speech silence) = Some (speech ++ silence)
  /\ audio_chunk (fst (add_audio small_after_speech silence)) = []
  /\ current_silence_count (fst (add_audio small_after_speech silence)) = 0.
Proof.
  pose proof (add_audio_never_cuts_a_chunk small_after_speech silence)
    as Hcases.
  cbn zeta in Hcases.
  change (snd (add_audio small_after_speech silence))
    with (Some (speech ++ silence)) in Hcases at 1.
  destruct Hcases as [(Hchunk & Hbuf & Hcount) _]; [decide_order|].
  repeat split; assumption.
Defined.

Lemma feed_keeps_buffer_and_chunks_bounded_witness :
  len (audio_chunk (fst (feed small_audio_buffer [speech; silence]))) <= 300
  /\ Forall (fun chunk => len chunk <= 300 + 7)
       (snd (feed small_audio_buffer [speech; silence])).
Proof.
  apply (@feed_keeps_buffer_and_chunks_bounded exact_numpy
           [speech; silence] 7
           small_audio_buffer).
  - decide_order.
  - decide_order.
  - repeat constructor; decide_order.
Defined.

Lemma feed_keeps_silence_count_within_buffer_witness :
  0 <= current_silence_count (fst (feed small_audio_buffer [speech; [0; 0]]))
    <= len (audio_chunk (fst (feed small_audio_buffer [speech; [0; 0]]))).
Proof.
  apply (@feed_keeps_silence_count_within_buffer exact_numpy
           [speech; [0; 0]]
           small_audio_buffer).
  split; decide_order.
Defined.

(** ** More on the server *)

Section ServerLaws.
Context `{Numpy} `{World}.

Lemma talk_keeps_flag {A} (m : M A) (s : system) :
  talk_only m ->
  currently_processing (server (snd (m s))) = currently_processing (server s)
  /\ worker (snd (m s)) = worker s.
Proof.
  intros Hm. destruct (Hm s) as (cs & n & l & -> & _). now split.
Qed.



Lemma handle_audio_data_flag (s : system) (audio_data : list sample) :
  currently_processing (server (snd (handle_audio_data audio_data s)))
  = currently_processing (server s)
  /\ worker (snd (handle_audio_data audio_data s)) = worker s.
Proof.
  change (post (handle_audio_data audio_data) s
            (fun _ s' => currently_processing (server s')
                         = currently_processing (server s)
                         /\ worker s' = worker s)).
  unfold handle_audio_data.
  repeat (post_step; cbn beta iota); project; now split.
Qed.

Lemma on_message_flag (s : system) (c : client) (m : inbound) :
  currently_processing (server (snd (on_message c m s)))
  = currently_processing (server s)
  /\ worker (snd (on_message c m s)) = worker s.
Proof.
  destruct m as [audio_data | data | ]; cbn [on_message].
  - apply handle_audio_data_flag.
  - destruct data; try (apply talk_keeps_flag, talk_raise).
    destruct (dict_get "type" d) as [[]|];
      try (apply talk_keeps_flag, talk_ret).
    destruct (str_eqb s0 (u "ping")).
    { apply talk_keeps_flag. now apply talk_send, other_type_consistent. }
    destruct (str_eqb s0 (u "get_full_transcription")).
    { apply talk_keeps_flag, talk_send_full_transcription. }
    destruct (str_eqb s0 (u "summarize")).
    { apply talk_keeps_flag, talk_handle_summarize_request. }
    destruct (str_eqb s0 (u "clear_transcription")).
    { match goal with
      | |- context [snd (?m s)] =>
          change (post m s
                    (fun _ s' => currently_processing (server s')
                                 = currently_processing (server s)
                                 /\ worker s' = worker s))
      end.
      repeat (post_step; cbn beta iota); project; now split. }
    apply talk_keeps_flag, talk_ret.
  - apply talk_keeps_flag, talk_logger.
Qed.



(** X12.  A binary frame never ends the connection's handler: whatever goes
    wrong while the audio is processed is logged inside
    [handle_audio_data]. *)
Theorem audio_frame_never_ends_the_connection (s : system) (c : client)
    (audio_data : list sample) :
  fst (handle_audio_data audio_data s) = Ok tt
  /\ receive c (Binary audio_data) s = handle_audio_data audio_data s.
Proof.
  assert (Hok : fst (handle_audio_data audio_data s) = Ok tt).
  { unfold handle_audio_data, try_except.
    match goal with
    | |- context [match ?m s with _ => _ end] =>
        destruct (m s) as [[[]|e] s1]
    end; reflexivity. }
  split; [exact Hok|].
  unfold receive, try_except. cbn [on_message].
  destruct (handle_audio_data audio_data s) as [[a|e] s1];
    [reflexivity | discriminate Hok].
Qed.


(** *** Control messages *)

Lemma receive_unfold (s : system) (c : client) (m : inbound) :
  step s (Receive c m)
  = match on_message c m s with
    | (Ok _, s1) => s1
    | (Raise e, s1) =>
        disconnected s1 c
          [Logged (match e with
                   | ConnectionClosed => ClientConnectionClosed
                   | _ => ClientProcessingError e
                   end)]
    end.
Proof.
  unfold step. cbn [handle]. unfold receive, try_except.
  destruct (on_message c m s) as [[a|e] s1]; [reflexivity|].
  unfold disconnected, unregister_client. unfold bind, logger, emit, update.
  cbn [fst snd server worker ticks history]. now rewrite <- app_assoc.
Qed.

Lemma with_history_same (s : system) : with_history s (history s) = s.
Proof. now destruct s. Qed.

Lemma disconnected_app (s : system) (c : client) (h lines : list effect) :
  disconnected (with_history s (history s ++ h)) c lines
  = disconnected s c (h ++ lines).
Proof.
  unfold disconnected, with_history. cbn [server worker ticks history].
  now rewrite <- !app_assoc.
Qed.

(** X14.  A [ping] is answered with a [pong] and changes nothing else; when
    the answer cannot be sent the connection's handler ends and the client is
    unregistered. *)
Theorem ping_is_answered_or_ends_the_connection (s : system) (c : client)
    (data : message) :
  dict_get "type" data = Some (JStr (u "ping")) ->
  step s (Receive c (Text (JDict data)))
  = match socket_send c pong with
    | Ok _ => with_history s (history s ++ [Sent c pong])
    | Raise e =>
        disconnected s c
          [Logged (match e with
                   | ConnectionClosed => ClientConnectionClosed
                   | _ => ClientProcessingError e
                   end)]
    end.
Proof.
  intros Htype. rewrite receive_unfold. cbn [on_message]. cbv zeta.
  rewrite Htype. change (str_eqb (u "ping") (u "ping")) with true. cbv iota.
  unfold send, bind, lift, emit. fold pong.
  destruct (socket_send c pong) as [[]|e]; reflexivity.
Qed.

(** X15.  A [get_full_transcription] request only reads: the reply carries
    the transcript joined by spaces and its length, and the server is left as
    it was.  A connection that has closed is passed over in silence, and the
    client stays registered. *)
Theorem full_transcription_request_only_reads (s : system) (c : client)
    (data : message) :
  dict_get "type" data = Some (JStr (u "get_full_transcription")) ->
  let reply := full_transcription_message (server s) in
  step s (Receive c (Text (JDict data)))
  = match socket_send c reply with
    | Ok _ => with_history s (history s ++ [Sent c reply])
    | Raise ConnectionClosed => s
    | Raise e => disconnected s c [Logged (ClientProcessingError e)]
    end.
Proof.
  intros Htype reply. rewrite receive_unfold. cbn [on_message]. cbv zeta.
  rewrite Htype.
  change (str_eqb (u "get_full_transcription") (u "ping")) with false.
  change (str_eqb (u "get_full_transcription") (u "get_full_transcription"))
    with true.
  cbv iota.
  unfold send_full_transcription, bind at 1, self, try_except, send, bind,
    lift, emit.
  fold (full_transcription_message (server s)). fold reply.
  destruct (socket_send c reply) as [[]|[]]; reflexivity.
Qed.

(** X16.  A control message whose [type] is missing, is not a string or is
    none of the four known types is ignored: nothing is sent, logged or
    changed. *)
Theorem unknown_message_is_ignored (s : system) (c : client)
    (data : message) :
  unknown_type data ->
  step s (Receive c (Text (JDict data))) = s.
Proof.
  unfold unknown_type. intros Htype. rewrite receive_unfold.
  cbn [on_message]. cbv zeta.
  destruct (dict_get "type" data) as [[]|]; try reflexivity.
  destruct Htype as (-> & -> & -> & ->). reflexivity.
Qed.

(** X17.  A text frame whose JSON value is not an object makes [data.get]
    raise; the error is logged, the handler of the connection ends and the
    client is unregistered.  Nothing else changes. *)
Theorem non_object_message_ends_the_connection (s : system) (c : client)
    (data : json) :
  (forall d, data <> JDict d) ->
  step s (Receive c (Text data))
  = disconnected s c [Logged (ClientProcessingError AttributeError)].
Proof.
  intros Hdata. rewrite receive_unfold.
  destruct data; try reflexivity. now contradiction (Hdata d).
Qed.


Lemma summarize_closed (s : system) (c : client) (prompt text : json) :
  (forall m, socket_send c m = Raise ConnectionClosed) ->
  exists e,
    handle_summarize_request c prompt text s
    = (Raise ConnectionClosed,
       with_history s (history s ++ [Logged (SummarizationError e)])).
Proof.
  intros Hclosed.
  assert (Hsend : forall m s1, send c m s1 = (Raise ConnectionClosed, s1)).
  { intros m s1. unfold send, bind, lift. now rewrite Hclosed. }
  unfold handle_summarize_request, try_except, bind at 1, self.
  destruct (truthy text) eqn:Htruthy.
  - destruct text as [ | b | n | t | t | d ];
      try (exists AttributeError; unfold bind, lift; cbn [py_strip];
           unfold logger, emit; cbn [server worker ticks history];
           rewrite Hsend; reflexivity).
    exists ConnectionClosed. unfold bind, lift, ret. cbn [py_strip].
    destruct (negb _); rewrite !Hsend; unfold logger, emit;
      cbn [server worker ticks history]; rewrite Hsend; reflexivity.
  - exists ConnectionClosed. unfold bind, ret.
    destruct (negb _); rewrite !Hsend; unfold logger, emit;
      cbn [server worker ticks history]; rewrite Hsend; reflexivity.
Qed.

(** X19.  A [summarize] request from a client whose connection has closed
    sends nothing: the failure is logged by the request handler, whose own
    error reply fails in turn, and the connection's handler ends with the
    client unregistered. *)
Theorem summarize_on_closed_connection (s : system) (c : client)
    (data : message) :
  dict_get "type" data = Some (JStr (u "summarize")) ->
  (forall m, socket_send c m = Raise ConnectionClosed) ->
  exists e,
    step s (Receive c (Text (JDict data)))
    = disconnected s c
        [Logged (SummarizationError e); Logged ClientConnectionClosed].
Proof.
  intros Htype Hclosed. rewrite receive_unfold. cbn [on_message]. cbv zeta.
  rewrite Htype.
  change (str_eqb (u "summarize") (u "ping")) with false.
  change (str_eqb (u "summarize") (u "get_full_transcription")) with false.
  change (str_eqb (u "summarize") (u "summarize")) with true.
  cbv iota.
  match goal with
  | |- context [handle_summarize_request c ?p ?t s] =>
      destruct (summarize_closed s c p t Hclosed) as (e & ->)
  end.
  exists e. now rewrite disconnected_app.
Qed.

End ServerLaws.

(** ** Who is registered *)

Lemma subseq_trans {A} (l1 l2 l3 : list A) :
  subseq l1 l2 -> subseq l2 l3 -> subseq l1 l3.
Proof.
  intros H12 H23. revert l1 H12.
  induction H23 as [ | x l l' _ IH | x l l' _ IH]; intros l1 H12.
  - exact H12.
  - apply subseq_skip. now apply IH.
  - inversion H12; subst.
    + apply subseq_skip. now apply IH.
    + apply subseq_keep. now apply IH.
Qed.

Lemma subseq_NoDup {A} (l l' : list A) :
  subseq l l' -> NoDup l' -> NoDup l.
Proof.
  induction 1 as [ | y l l' Hs IH | y l l' Hs IH]; intros Hnd.
  - constructor.
  - inversion Hnd; subst. now apply IH.
  - inversion Hnd; subst. constructor; [|now apply IH].
    intros Hin. now apply (subseq_In _ _ _ Hs) in Hin.
Qed.

Lemma subseq_filter {A} (f : A -> bool) (l : list A) : subseq (filter f l) l.
Proof.
  induction l as [|x l IH]; cbn [filter]; [constructor|].
  destruct (f x); now constructor.
Qed.

Lemma set_add_NoDup (c : client) (cs : list client) :
  NoDup cs -> NoDup (set_add c cs).
Proof.
  intros Hnd. unfold set_add. destruct (existsb (Nat.eqb c) cs) eqn:Hex;
    [assumption|].
  apply NoDup_app; [assumption | repeat constructor; easy |].
  intros x Hx [-> | []].
  assert (Hc : existsb (Nat.eqb x) cs = true).
  { apply existsb_exists. exists x. split; [assumption | apply Nat.eqb_refl]. }
  congruence.
Qed.

Lemma set_add_In (c x : client) (cs : list client) :
  In x (set_add c cs) -> x = c \/ In x cs.
Proof.
  unfold set_add. destruct (existsb (Nat.eqb c) cs); [now right|].
  intros Hin. apply in_app_or in Hin as [Hin | [<- | []]]; auto.
Qed.

Lemma set_discard_In (c x : client) (cs : list client) :
  In x (set_discard c cs) -> x <> c /\ In x cs.
Proof.
  unfold set_discard. intros Hin. apply filter_In in Hin as [Hin Hx].
  split; [|assumption]. intros ->. now rewrite Nat.eqb_refl in Hx.
Qed.

Create HintDb hub.

Section HubLaws.
Context `{Numpy} `{World}.

Lemma hub_same {A} (m : M A) :
  (forall s, server (snd (m s)) = server s) -> keeps_hub m.
Proof. intros Hm s. rewrite Hm. apply subseq_refl. Qed.

Lemma hub_ret {A} (a : A) : keeps_hub (ret a).
Proof. now apply hub_same. Qed.

Lemma hub_raise {A} (e : exn) : keeps_hub (raise e : M A).
Proof. now apply hub_same. Qed.

Lemma hub_lift {A} (r : result A) : keeps_hub (lift r).
Proof. now apply hub_same. Qed.

Lemma hub_self : keeps_hub self.
Proof. now apply hub_same. Qed.

Lemma hub_time : keeps_hub time_time.
Proof. now apply hub_same. Qed.

Lemma hub_emit (e : effect) : keeps_hub (emit e).
Proof. now apply hub_same. Qed.

Lemma hub_logger (line : log_line) : keeps_hub (logger line).
Proof. now apply hub_same. Qed.

Lemma hub_set_worker (w : worker_state) : keeps_hub (set_worker w).
Proof. now apply hub_same. Qed.

Lemma hub_update (f : WebSocketServer -> WebSocketServer) :
  (forall sv, subseq (clients (f sv)) (clients sv)) -> keeps_hub (update f).
Proof. intros Hf s. apply Hf. Qed.

Lemma hub_bind {A B} (m : M A) (k : A -> M B) :
  keeps_hub m -> (forall a, keeps_hub (k a)) -> keeps_hub (bind m k).
Proof.
  intros Hm Hk s. unfold bind. specialize (Hm s).
  destruct (m s) as [[a|e] s1]; cbn [snd] in *; [|exact Hm].
  eapply subseq_trans; [apply Hk | exact Hm].
Qed.

Lemma hub_try {A} (m : M A) (handler : exn -> M A) :
  keeps_hub m -> (forall e, keeps_hub (handler e)) ->
  keeps_hub (try_except m handler).
Proof.
  intros Hm Hh s. unfold try_except. specialize (Hm s).
  destruct (m s) as [[a|e] s1]; cbn [snd] in *; [exact Hm|].
  eapply subseq_trans; [apply Hh | exact Hm].
Qed.

Lemma hub_discard (c : client) :
  keeps_hub (update (fun sv => set_clients (set_discard c (clients sv)) sv)).
Proof. apply hub_update. intros sv. apply subseq_filter. Qed.

Lemma hub_field (f : WebSocketServer -> WebSocketServer) :
  (forall sv, clients (f sv) = clients sv) -> keeps_hub (update f).
Proof. intros Hf. apply hub_update. intros sv. rewrite Hf. apply subseq_refl. Qed.

#[local] Hint Resolve hub_ret hub_raise hub_lift hub_self hub_time hub_emit
  hub_logger hub_set_worker hub_discard hub_bind hub_try : hub.
#[local] Hint Extern 1 (keeps_hub (update _)) =>
  (apply hub_field; reflexivity) : hub.
#[local] Hint Extern 4 (keeps_hub (if ?b then _ else _)) => destruct b : hub.
#[local] Hint Extern 4 (keeps_hub (match ?x with _ => _ end)) =>
  destruct x : hub.

Lemma hub_send (c : client) (m : message) : keeps_hub (send c m).
Proof. unfold send. auto with hub. Qed.

#[local] Hint Resolve hub_send : hub.

Lemma hub_send_to_each (m : message) (cs : list client) :
  forall disconnected, keeps_hub (send_to_each m cs disconnected).
Proof.
  induction cs as [|c rest IH]; intros disconnected; cbn [send_to_each];
    auto 8 with hub.
Qed.

Lemma hub_discard_each (disconnected : list client) :
  keeps_hub (discard_each disconnected).
Proof.
  induction disconnected as [|c rest IH]; cbn [discard_each]; auto with hub.
Qed.

#[local] Hint Resolve hub_send_to_each hub_discard_each : hub.

Lemma hub_broadcast_message (m : message) : keeps_hub (broadcast_message m).
Proof. unfold broadcast_message. auto 8 with hub. Qed.

#[local] Hint Resolve hub_broadcast_message : hub.

Lemma hub_broadcast_queue_status : keeps_hub broadcast_queue_status.
Proof. unfold broadcast_queue_status. auto 8 with hub. Qed.

#[local] Hint Resolve hub_broadcast_queue_status : hub.

Lemma hub_broadcast_transcription (text : str)
    (server_timestamp : option timestamp) (queue_id : option Z) :
  keeps_hub (broadcast_transcription text server_timestamp queue_id).
Proof.
  unfold broadcast_transcription, finish_transcription_task.
  auto 12 with hub.
Qed.

Lemma hub_send_full_transcription (c : client) :
  keeps_hub (send_full_transcription c).
Proof. unfold send_full_transcription. auto 8 with hub. Qed.

Lemma hub_handle_summarize_request (c : client) (prompt text : json) :
  keeps_hub (handle_summarize_request c prompt text).
Proof.
  unfold handle_summarize_request.
  apply hub_try; [|auto with hub].
  apply hub_bind; [auto with hub|]. intros sv.
  apply hub_bind; [destruct (truthy text); auto with hub|].
  intros use_client_text.
  destruct (negb _); [auto with hub|].
  apply hub_bind; [auto with hub|]. intros _.
  apply hub_bind; [destruct (is_available _); auto 8 with hub|].
  auto with hub.
Qed.

Lemma hub_handle_audio_data (audio_data : list sample) :
  keeps_hub (handle_audio_data audio_data).
Proof.
  unfold handle_audio_data, add_transcription_task.
  apply hub_try; [|auto with hub].
  apply hub_bind; [auto with hub|]. intros sv.
  destruct (add_audio _ _) as [buffer [chunk|]]; auto 12 with hub.
Qed.

#[local] Hint Resolve hub_broadcast_transcription hub_send_full_transcription
  hub_handle_summarize_request hub_handle_audio_data : hub.

Lemma hub_on_message (c : client) (m : inbound) : keeps_hub (on_message c m).
Proof.
  destruct m as [audio_data | data | ]; cbn [on_message]; auto with hub.
  destruct data; auto with hub.
  cbv zeta. unfold clear_transcription.
  destruct (dict_get "type" d) as [[]|]; auto with hub.
  repeat match goal with
         | |- keeps_hub (if ?b then _ else _) => destruct b
         end; auto 8 with hub.
Qed.

Lemma hub_unregister_client (c : client) : keeps_hub (unregister_client c).
Proof. unfold unregister_client. auto with hub. Qed.

Lemma hub_receive (c : client) (m : inbound) : keeps_hub (receive c m).
Proof.
  unfold receive.
  apply hub_try; [apply hub_on_message|]. intros e.
  apply hub_bind; [auto with hub | intros _; apply hub_unregister_client].
Qed.

Lemma hub_worker_recover (e : exn) : keeps_hub (worker_recover e).
Proof. unfold worker_recover. auto 8 with hub. Qed.

#[local] Hint Resolve hub_worker_recover : hub.

Lemma hub_worker_take : keeps_hub worker_take.
Proof.
  unfold worker_take. apply hub_bind; [auto with hub|]. intros sv.
  destruct (transcription_queue sv); auto 12 with hub.
Qed.

Lemma hub_worker_resume (task_data : task) (outcome : result str) :
  keeps_hub (worker_resume task_data outcome).
Proof.
  unfold worker_resume.
  apply hub_bind; [auto with hub|]. intros _.
  apply hub_try; [|auto 8 with hub].
  apply hub_bind; [|auto 8 with hub].
  apply hub_try; [|auto with hub].
  apply hub_bind; [auto with hub|]. intros text.
  destruct (_ && _); auto with hub.
Qed.

(** Every event but [Connect] leaves the registered clients among those
    that were registered. *)
Lemma step_keeps_hub (s : system) (ev : event) :
  (forall c, ev <> Connect c) ->
  subseq (clients (server (step s ev))) (clients (server s)).
Proof.
  intros Hev. unfold step. destruct ev; cbn [handle].
  - now contradiction (Hev c).
  - apply hub_receive.
  - apply hub_unregister_client.
  - destruct (worker s); first [apply hub_worker_take | apply subseq_refl].
  - destruct (worker s); first [apply hub_worker_resume | apply subseq_refl].
Qed.

Lemma still_connected_later (c : client) (evs : list event) (ev : event) :
  still_connected c evs -> ev <> Disconnect c ->
  still_connected c (evs ++ [ev]).
Proof.
  intros (before & after & -> & Hafter) Hev.
  exists before, (after ++ [ev]). split.
  - now rewrite <- app_assoc.
  - intros Hin. apply in_app_or in Hin as [Hin | [Heq | []]]; auto.
Qed.

Lemma run_snoc (s : system) (evs : list event) (ev : event) :
  run s (evs ++ [ev]) = step (run s evs) ev.
Proof. unfold run. now rewrite fold_left_app. Qed.

(** X20.  In every execution the registered clients are distinct, and each
    of them has connected and has not disconnected since: no handler other
    than [register_client] ever adds a client, and a disconnection always
    removes it. *)
Theorem registered_clients_are_connected (ab : AudioBuffer)
    (tr : WhisperTranscriber) (su : GeminiSummarizer) (no : NotionClient)
    (evs : list event) :
  let s := run (start ab tr su no) evs in
  NoDup (clients (server s))
  /\ forall c, In c (clients (server s)) -> still_connected c evs.
Proof.
  cbn zeta. induction evs as [|ev evs IH] using rev_ind.
  - split; [constructor | intros c []].
  - rewrite run_snoc. destruct IH as [Hnd Hin].
    set (s := run (start ab tr su no) evs) in *.
    assert (Hother : (forall c, ev <> Connect c) ->
              (forall c, ev <> Disconnect c) ->
              NoDup (clients (server (step s ev)))
              /\ forall c, In c (clients (server (step s ev))) ->
                           still_connected c (evs ++ [ev])).
    { intros Hc Hd. pose proof (step_keeps_hub s ev Hc) as Hsub. split.
      - now apply (subseq_NoDup _ _ Hsub).
      - intros c Hc'. apply still_connected_later; [|apply Hd].
        apply Hin. now apply (subseq_In _ _ _ Hsub). }
    destruct ev as [c0 | c0 m | c0 | | outcome];
      try (apply Hother; intros; discriminate).
    + unfold step. cbn. split; [now apply set_add_NoDup|].
      intros c Hc. apply set_add_In in Hc as [-> | Hc].
      * exists evs, []. split; [reflexivity | easy].
      * apply still_connected_later; [now apply Hin | discriminate].
    + unfold step. cbn. split.
      * apply (subseq_NoDup _ (clients (server s))); [|assumption].
        apply subseq_filter.
      * intros c Hc. apply set_discard_In in Hc as [Hne Hc].
        apply still_connected_later; [now apply Hin|].
        intros Heq. injection Heq as ->. now apply Hne.
Qed.

End HubLaws.

(** *** The control messages at work *)

(** X14 at work: the viewer of the first utterance pings. *)
Lemma ping_is_answered_or_ends_the_connection_witness :
  step listening (Receive 7%nat (Text (JDict (request "ping"))))
  = with_history listening (history listening ++ [Sent 7%nat pong]).
Proof.
  exact (@ping_is_answered_or_ends_the_connection exact_numpy sample_world
           listening 7%nat (request "ping") eq_refl).
Defined.

(** X15 at work: the second of the three viewers has closed; its request
    leaves no trace. *)
Lemma full_transcription_request_only_reads_witness :
  step three_viewers
    (Receive 1%nat (Text (JDict (request "get_full_transcription"))))
  = three_viewers.
Proof.
  exact (@full_transcription_request_only_reads exact_numpy sample_world
           three_viewers 1%nat (request "get_full_transcription") eq_refl).
Defined.

(** X16 at work: a message of a type the server does not know. *)
Lemma unknown_message_is_ignored_witness :
  step three_viewers (Receive 0%nat (Text (JDict (request "subscribe"))))
  = three_viewers.
Proof.
  apply (@unknown_message_is_ignored exact_numpy sample_world).
  vm_compute. repeat split.
Defined.

(** X17 at work: the frame [5] ends the connection of the viewer. *)
Lemma non_object_message_ends_the_connection_witness :
  step listening (Receive 7%nat (Text (JInt 5)))
  = disconnected listening 7%nat
      [Logged (ClientProcessingError AttributeError)].
Proof.
  apply (@non_object_message_ends_the_connection exact_numpy sample_world).
  intros d. discriminate.
Defined.


(** X19 at work: the viewer that has closed asks for a summary. *)
Lemma summarize_on_closed_connection_witness :
  exists e,
    step three_viewers (Receive 1%nat (Text (JDict (request "summarize"))))
    = disconnected three_viewers 1%nat
        [Logged (SummarizationError e); Logged ClientConnectionClosed].
Proof.
  apply (@summarize_on_closed_connection exact_numpy sample_world
           three_viewers 1%nat (request "summarize") eq_refl).
  intros m. reflexivity.
Defined.

(** X20 at work: the third viewer is registered, and has connected. *)
Lemma registered_clients_are_connected_witness :
  still_connected 3%nat [Connect 0%nat; Connect 1%nat; Connect 3%nat].
Proof.
  apply (proj2 (@registered_clients_are_connected exact_numpy sample_world
                  small_audio_buffer sample_transcriber failing_summarizer
                  absent_notion [Connect 0%nat; Connect 1%nat; Connect 3%nat])).
  vm_compute. auto.
Defined.

(** ** The prompt of a summary *)

Lemma summarize_blank_prompt (self : GeminiSummarizer) (text p : str) :
  strip p = [] ->
  summarize self text (JStr p) = summarize self text (JStr []).
Proof.
  intros Hp. unfold summarize. destruct (gemini_model self); [|reflexivity].
  cbn [py_strip rbind]. rewrite Hp. reflexivity.
Qed.

Section PromptLaws.
Context `{Numpy} `{World}.

Lemma bind_ext {A B} (m : M A) (k k' : A -> M B) (s : system) :
  (forall a s1, k a s1 = k' a s1) -> bind m k s = bind m k' s.
Proof. intros Hk. unfold bind. now destruct (m s) as [[a|e] s1]. Qed.

Lemma try_ext {A} (m m' : M A) (handler : exn -> M A) (s : system) :
  m s = m' s -> try_except m handler s = try_except m' handler s.
Proof. intros Hm. unfold try_except. now rewrite Hm. Qed.

Lemma handle_summarize_request_blank_prompt (s : system) (c : client)
    (p : str) (text : json) :
  strip p = [] ->
  handle_summarize_request c (JStr p) text s
  = handle_summarize_request c (JStr []) text s.
Proof.
  intros Hp. unfold handle_summarize_request. apply try_ext.
  apply bind_ext. intros sv s1. apply bind_ext. intros use_client_text s2.
  cbv zeta. now rewrite !(summarize_blank_prompt _ _ p Hp).
Qed.

(** X21.  A [summarize] request whose [prompt] is blank is served exactly
    like one without a [prompt]: the summarizer falls back on its default
    prompt. *)
Theorem blank_prompt_is_no_prompt (s : system) (c : client)
    (data data' : message) (p : str) :
  dict_get "type" data = Some (JStr (u "summarize")) ->
  dict_get "type" data' = Some (JStr (u "summarize")) ->
  dict_get "text" data = dict_get "text" data' ->
  dict_get "prompt" data = Some (JStr p) ->
  strip p = [] ->
  dict_get "prompt" data' = None ->
  step s (Receive c (Text (JDict data)))
  = step s (Receive c (Text (JDict data'))).
Proof.
  intros Htype Htype' Htext Hprompt Hp Hprompt'.
  rewrite !receive_unfold. cbn [on_message]. cbv zeta.
  rewrite Htype, Htype', Htext, Hprompt, Hprompt'.
  change (str_eqb (u "summarize") (u "ping")) with false.
  change (str_eqb (u "summarize") (u "get_full_transcription")) with false.
  change (str_eqb (u "summarize") (u "summarize")) with true.
  cbv iota.
  now rewrite handle_summarize_request_blank_prompt.
Qed.

End PromptLaws.

(** X21 at work: a prompt of two spaces. *)
Lemma blank_prompt_is_no_prompt_witness :
  step summarizing_system
    (Receive 0%nat
       (Text (JDict [ ("type", JStr (u "summarize"));
                      ("prompt", JStr (u "  "));
                      ("text", JStr (u "hello world")) ]%string)))
  = step summarizing_system
      (Receive 0%nat
         (Text (JDict [ ("type", JStr (u "summarize"));
                        ("text", JStr (u "hello world")) ]%string))).
Proof.
  apply (@blank_prompt_is_no_prompt exact_numpy sample_world
           summarizing_system 0%nat _ _ (u "  ")); reflexivity.
Defined.

(** ** The worker never dies when peers only close *)

Section WorkerLaws.
Context `{Numpy} `{World}.
Hypothesis peers_only_close : forall c m, closes_only m c.

Ltac live_step :=
  match goal with
  | |- post broadcast_queue_status _ _ =>
      apply (post_broadcast_queue_status peers_only_close);
      cbn [server worker ticks history after_talk]
  | |- post (broadcast_message _) _ _ =>
      apply (post_broadcast_message peers_only_close);
      cbn [server worker ticks history after_talk]
  | _ => post_step
  end.

Lemma worker_take_lives (s : system) :
  worker s = Waiting -> worker (snd (worker_take s)) <> Stopped.
Proof.
  intros Hw.
  change (post worker_take s (fun _ s' => worker s' <> Stopped)).
  unfold worker_take.
  repeat (live_step; cbn beta iota; project).
  all: try discriminate.
  all: rewrite Hw; discriminate.
Qed.

Lemma worker_resume_lives (s : system) (task_data : task)
    (outcome : result str) :
  worker (snd (worker_resume task_data outcome s)) <> Stopped.
Proof.
  change (post (worker_resume task_data outcome) s
            (fun _ s' => worker s' <> Stopped)).
  unfold worker_resume.
  repeat (live_step; cbn beta iota; project).
  all: discriminate.
Qed.

Lemma step_lives (s : system) (ev : event) :
  worker s <> Stopped -> worker (step s ev) <> Stopped.
Proof.
  intros Hlive. unfold step. destruct ev; cbn [handle].
  - destruct (talk_keeps_flag (register_client c) s
                (talk_register_client c)) as [_ ->]. exact Hlive.
  - unfold receive, try_except.
    destruct (on_message_flag s c m) as [_ Hw].
    destruct (on_message c m s) as [[a|e] s1]; cbn [snd] in *.
    + now rewrite Hw.
    + match goal with
      | |- context [snd (?h s1)] =>
          destruct (talk_keeps_flag h s1) as [_ ->]
      end.
      * apply talk_bind; [apply talk_logger|]. intros _.
        apply talk_unregister_client.
      * now rewrite Hw.
  - destruct (talk_keeps_flag (unregister_client c) s
                (talk_unregister_client c)) as [_ ->]. exact Hlive.
  - destruct (worker s) eqn:Hw; cbn [snd]; try (rewrite Hw; exact Hlive).
    now apply worker_take_lives.
  - destruct (worker s) eqn:Hw; cbn [snd]; try (rewrite Hw; exact Hlive).
    apply worker_resume_lives.
Qed.

(** X22.  When sends fail only because peers have closed, the worker
    coroutine never ends: whatever the clients send and whatever the engine
    returns or raises, the worker is either waiting for a task or awaiting
    the engine. *)
Theorem worker_never_stops (ab : AudioBuffer) (tr : WhisperTranscriber)
    (su : GeminiSummarizer) (no : NotionClient) (evs : list event) :
  worker (run (start ab tr su no) evs) <> Stopped.
Proof.
  assert (Hgen : forall s, worker s <> Stopped ->
                           worker (run s evs) <> Stopped).
  { induction evs as [|ev evs IH]; intros s Hs; [exact Hs|].
    cbn [run fold_left]. apply IH. now apply step_lives. }
  apply Hgen. discriminate.
Qed.

End WorkerLaws.

(** X22 at work: the engine fails on the first utterance. *)
Lemma worker_never_stops_witness :
  worker (run sample_system
            (first_utterance
             ++ [EngineReturns (Raise (OtherException (u "engine down")))]))
  <> Stopped.
Proof.
  exact (worker_never_stops sample_world_peers_only_close
           small_audio_buffer sample_transcriber failing_summarizer
           absent_notion
           (first_utterance
            ++ [EngineReturns (Raise (OtherException (u "engine down")))])).
Defined.

(** ** The title of a Notion page *)

Lemma in_lstrip (x : char) (t : str) : In x (lstrip t) -> In x t.
Proof.
  intros Hin. destruct (lstrip_splits t) as (blank & Ht & _).
  rewrite Ht. apply in_or_app. now right.
Qed.

Lemma in_strip (x : char) (t : str) : In x (strip t) -> In x t.
Proof.
  unfold strip, rstrip. intros Hin.
  apply in_lstrip. apply in_rev. apply in_lstrip. now apply in_rev.
Qed.

Lemma in_remove_from (old : str) (x : char) (t : str) : forall skip,
  In x (remove_from old skip t) -> In x t.
Proof.
  induction t as [|c t IH]; intros skip Hin; [exact Hin|].
  cbn [remove_from] in Hin. destruct skip as [|k].
  - destruct (startswith old (c :: t)).
    + right. exact (IH _ Hin).
    + destruct Hin as [-> | Hin]; [now left | right; exact (IH _ Hin)].
  - right. exact (IH _ Hin).
Qed.

Lemma in_remove (old : str) (x : char) (t : str) :
  In x (remove old t) -> In x t.
Proof.
  unfold remove. destruct old; [easy | apply in_remove_from].
Qed.

Lemma in_skipn_str (n : nat) (x : char) (t : str) :
  In x (skipn n t) -> In x t.
Proof.
  intros Hin. rewrite <- (firstn_skipn n t). apply in_or_app. now right.
Qed.

Lemma in_clean_heading (x : char) (line : str) :
  In x (clean_heading line) -> In x line.
Proof.
  unfold clean_heading. intros Hin.
  repeat first [ apply in_strip in Hin | apply in_remove in Hin ].
  exact (in_skipn_str _ _ _ Hin).
Qed.

Lemma lstrip_chars_splits (chars t : str) :
  exists dropped, t = dropped ++ lstrip_chars chars t.
Proof.
  induction t as [|c t IH]; [now exists []|].
  cbn [lstrip_chars]. destruct (existsb (N.eqb c) chars).
  - destruct IH as (dropped & Ht). exists (c :: dropped).
    cbn [app]. now rewrite <- Ht.
  - now exists [].
Qed.

Lemma rstrip_chars_prefix (chars t : str) :
  exists dropped, t = rstrip_chars chars t ++ dropped.
Proof.
  unfold rstrip_chars.
  destruct (lstrip_chars_splits chars (rev t)) as (dropped & Ht).
  exists (rev dropped).
  rewrite <- rev_app_distr, <- Ht. symmetry. apply rev_involutive.
Qed.

Lemma split_lines_no_newline (t : str) :
  Forall (fun line => ~ In 10%N line) (split_lines t).
Proof.
  induction t as [|c t IH]; cbn [split_lines].
  - constructor; [easy | constructor].
  - destruct (c =? 10)%N eqn:Hc.
    + constructor; [easy | exact IH].
    + destruct (split_lines t) as [|line lines]; [repeat constructor|].
      * intros [Heq | []]. subst c. discriminate Hc.
      * inversion IH as [|? ? Hline Hlines]; subst.
        constructor; [|exact Hlines].
        intros [Heq | Hin]; [subst c; discriminate Hc | now apply Hline].
Qed.

Lemma split_lines_one (line : str) :
  ~ In 10%N line -> split_lines line = [line].
Proof.
  induction line as [|c line IH]; intros Hline; [reflexivity|].
  cbn [split_lines]. destruct (c =? 10)%N eqn:Hc.
  - apply N.eqb_eq in Hc. subst c. exfalso. apply Hline. now left.
  - rewrite IH; [reflexivity|]. intros Hin. apply Hline. now right.
Qed.

Lemma split_lines_first (line rest : str) :
  ~ In 10%N line ->
  split_lines (line ++ 10%N :: rest) = line :: split_lines rest.
Proof.
  induction line as [|c line IH]; intros Hline; [reflexivity|].
  cbn [split_lines app]. destruct (c =? 10)%N eqn:Hc.
  - apply N.eqb_eq in Hc. subst c. exfalso. apply Hline. now left.
  - rewrite IH; [reflexivity|]. intros Hin. apply Hline. now right.
Qed.

Lemma clean_starts_visibly (t : str) :
  clean t -> t <> [] -> exists c rest, t = c :: rest /\ isspace c = false.
Proof.
  intros [Hl _] Hne. apply lstrip_fixed in Hl as [-> | Hl];
    [contradiction | exact Hl].
Qed.

Lemma startswith_app (p t : str) : startswith p (p ++ t) = true.
Proof.
  induction p as [|x p IH]; [reflexivity|].
  cbn [startswith app]. now rewrite N.eqb_refl.
Qed.

Lemma startswith_longer (p q t : str) :
  startswith (p ++ q) t = true -> startswith p t = true.
Proof.
  revert t. induction p as [|x p IH]; intros t Hs; [reflexivity|].
  destruct t as [|y t]; [discriminate Hs|].
  cbn [startswith app] in *. apply andb_true_iff in Hs as [Hxy Hs].
  rewrite Hxy. now apply IH.
Qed.

Lemma contains_longer (p q t : str) :
  contains p t = false -> contains (p ++ q) t = false.
Proof.
  induction t as [|c t IH]; cbn [contains]; intros Hc.
  - apply orb_false_iff in Hc as [Hs _]. apply orb_false_iff. split;
      [|reflexivity].
    destruct (startswith (p ++ q) []) eqn:Hpq; [|reflexivity].
    apply startswith_longer in Hpq. congruence.
  - apply orb_false_iff in Hc as [Hs Hc]. apply orb_false_iff. split;
      [|now apply IH].
    destruct (startswith (p ++ q) (c :: t)) eqn:Hpq; [|reflexivity].
    apply startswith_longer in Hpq. congruence.
Qed.

Lemma remove_from_absent (old t : str) :
  contains old t = false -> remove_from old 0 t = t.
Proof.
  induction t as [|c t IH]; [reflexivity|].
  cbn [contains remove_from]. intros Hc.
  apply orb_false_iff in Hc as [Hs Hc]. cbn [startswith] in Hs.
  rewrite Hs. now rewrite IH.
Qed.

Lemma remove_absent (old t : str) :
  contains old t = false -> remove old t = t.
Proof.
  intros Hc. unfold remove. destruct old; [reflexivity|].
  now apply remove_from_absent.
Qed.

(** What the loop returns, for lines without a line feed. *)
Lemma extract_title_loop_presentable (lines : list str) (title : str) :
  Forall (fun line => ~ In 10%N line) lines ->
  extract_title_loop lines = Some title ->
  0 < len title < 100
  /\ ~ In 10%N title
  /\ exists c rest, title = c :: rest /\ isspace c = false.
Proof.
  induction lines as [|raw rest IH]; intros Hlines Hres; [discriminate Hres|].
  inversion Hlines as [|? ? Hraw Hrest]; subst.
  cbn [extract_title_loop] in Hres. cbv zeta in Hres.
  set (line := strip raw) in *.
  assert (Hline : ~ In 10%N line).
  { intros Hin. apply Hraw. now apply in_strip. }
  destruct (negb (nonempty line)) eqn:Hblank; [now apply IH|].
  assert (Hplain :
    (if negb (startswith (u "#") line) && negb (startswith (u "*") line)
        && negb (startswith (u "-") line)
     then
       if existsb (fun pattern => contains pattern line) skip_patterns
       then extract_title_loop rest
       else if (len line >? 5) && (len line <? 80)
            then if nonempty (rstrip_chars end_punctuation line)
                 then Some (rstrip_chars end_punctuation line)
                 else extract_title_loop rest
            else extract_title_loop rest
     else extract_title_loop rest) = Some title ->
    0 < len title < 100
    /\ ~ In 10%N title
    /\ exists c rest, title = c :: rest /\ isspace c = false).
  { clear Hres. intros Hres.
    destruct (_ && _ && _); [|now apply IH].
    destruct (existsb _ skip_patterns); [now apply IH|].
    destruct (_ && _) eqn:Hlen; [|now apply IH].
    destruct (nonempty (rstrip_chars end_punctuation line)) eqn:Hne;
      [|now apply IH].
    injection Hres as <-.
    destruct (rstrip_chars_prefix end_punctuation line) as (dropped & Hpre).
    set (title := rstrip_chars end_punctuation line) in *.
    apply andb_true_iff in Hlen as [_ Hlen]. apply Z.ltb_lt in Hlen.
    assert (Hshort : len title <= len line).
    { pose proof (f_equal len Hpre) as Hsum. rewrite len_app in Hsum.
      pose proof (len_nonneg dropped). lia. }
    destruct title as [|c title'] eqn:Htitle; [discriminate Hne|].
    split; [|split].
    - unfold len in *. cbn [List.length] in *. lia.
    - intros Hin. apply Hline. rewrite Hpre. apply in_or_app. now left.
    - exists c, title'. split; [reflexivity|].
      destruct (clean_starts_visibly line (strip_clean raw))
        as (c0 & line' & Hl & Hc0).
      { intros Hnil. rewrite Hnil in Hpre. discriminate Hpre. }
      rewrite Hl in Hpre. cbn [app] in Hpre. injection Hpre as <- _.
      exact Hc0. }
  destruct (startswith (u "# ") line); [|exact (Hplain Hres)].
  destruct (existsb _ generic_titles); [now apply IH|].
  destruct (_ && _ && _) eqn:Hok; [|exact (Hplain Hres)].
  injection Hres as <-.
  apply andb_true_iff in Hok as [Hok Hmax].
  apply andb_true_iff in Hok as [Hne Hmin].
  apply Z.ltb_lt in Hmax. rewrite Z.gtb_ltb in Hmin. apply Z.ltb_lt in Hmin.
  split; [lia|]. split.
  - intros Hin. apply Hline. exact (in_clean_heading _ _ Hin).
  - apply clean_starts_visibly.
    + unfold clean_heading. apply strip_clean.
    + intros Hnil. rewrite Hnil in Hne. discriminate Hne.
Qed.

(** X23.  A title that [_extract_title_from_summary] returns is fit for a
    page: it is not empty, has fewer than 100 characters, lies on one line
    and does not begin with whitespace. *)
Theorem extracted_title_is_presentable (summary_text title : str) :
  _extract_title_from_summary summary_text = Some title ->
  0 < len title < 100
  /\ ~ In 10%N title
  /\ exists c rest, title = c :: rest /\ isspace c = false.
Proof.
  unfold _extract_title_from_summary.
  apply extract_title_loop_presentable, split_lines_no_newline.
Qed.

(** X24.  A summary that begins with a heading line [# title], as the default
    prompt asks for, gets that title, provided the title has between 3 and 99
    characters and no surrounding whitespace, contains none of the pieces
    that the clean-up removes and none of the generic words. *)
Theorem heading_becomes_the_title (title rest : str) :
  clean title ->
  2 < len title < 100 ->
  ~ In 10%N title ->
  (forall piece,
      In piece [katakana_title; u "Title"; u ":"; [65306%N]; u "<"; u ">"] ->
      contains piece title = false) ->
  (forall generic, In generic generic_titles ->
                   contains generic title = false) ->
  rest = [] \/ (exists body, rest = 10%N :: body) ->
  _extract_title_from_summary (u "# " ++ title ++ rest) = Some title.
Proof.
  intros Hclean Hlen Hline Hpieces Hgeneric Hrest.
  assert (Hne : title <> []).
  { intros ->. change (len (@nil char)) with 0 in Hlen. lia. }
  destruct (clean_starts_visibly title Hclean Hne) as (c & t' & Ht & Hc).
  set (line := u "# " ++ title).
  assert (Hline' : ~ In 10%N line).
  { intros [Heq | [Heq | Hin]]; [discriminate Heq | discriminate Heq|].
    now apply Hline. }
  assert (Hstrip : strip line = line).
  { apply strip_of_clean. split; [reflexivity|].
    unfold line. rewrite rev_app_distr.
    destruct Hclean as [_ Hr]. apply lstrip_fixed in Hr as [Hr | Hr].
    - exfalso. apply Hne. rewrite <- (rev_involutive title), Hr. reflexivity.
    - destruct Hr as (x & r & -> & Hx). cbn [app lstrip]. now rewrite Hx. }
  assert (Hheading : clean_heading line = title).
  { unfold clean_heading.
    change (skipn 2 line) with title.
    rewrite (strip_of_clean title Hclean).
    rewrite (remove_absent katakana_title title) by (apply Hpieces; cbn; tauto).
    rewrite (remove_absent (u "Title") title) by (apply Hpieces; cbn; tauto).
    rewrite (strip_of_clean title Hclean).
    rewrite (remove_absent (u ":") title) by (apply Hpieces; cbn; tauto).
    rewrite (remove_absent [65306%N] title) by (apply Hpieces; cbn; tauto).
    rewrite (strip_of_clean title Hclean).
    rewrite (remove_absent (u "<") title) by (apply Hpieces; cbn; tauto).
    rewrite (remove_absent (u ">") title) by (apply Hpieces; cbn; tauto).
    rewrite (strip_of_clean title Hclean).
    rewrite remove_absent
      by (apply contains_longer, Hpieces; cbn; tauto).
    apply (strip_of_clean title Hclean). }
  assert (Hloop : forall lines, extract_title_loop (line :: lines) = Some title).
  { intros lines. cbn [extract_title_loop]. cbv zeta.
    rewrite Hstrip. unfold line at 1. rewrite Ht at 1.
    cbn [nonempty negb app].
    change (startswith (u "# ") line) with (startswith (u "# ") (u "# " ++ title)).
    rewrite startswith_app, Hheading.
    replace (existsb (fun generic => contains generic title) generic_titles)
      with false.
    2:{ symmetry. apply not_true_is_false. intros Hex.
        apply existsb_exists in Hex as (g & Hg & Hc').
        rewrite (Hgeneric g Hg) in Hc'. discriminate Hc'. }
    replace (nonempty title) with true by (now rewrite Ht).
    replace (len title >? 2) with true by (symmetry; apply Z.gtb_lt; lia).
    replace (len title <? 100) with true by (symmetry; apply Z.ltb_lt; lia).
    reflexivity. }
  unfold _extract_title_from_summary.
  rewrite app_assoc. fold line.
  destruct Hrest as [-> | (body & ->)].
  - rewrite app_nil_r, split_lines_one by exact Hline'. apply Hloop.
  - rewrite split_lines_first by exact Hline'. apply Hloop.
Qed.

(** X23 at work, on the summary of a weekly meeting. *)
Lemma extracted_title_is_presentable_witness :
  0 < len (u "Weekly sync") < 100 /\ ~ In 10%N (u "Weekly sync").
Proof.
  destruct (extracted_title_is_presentable
              (u "# Weekly sync" ++ 10%N :: 10%N :: u "## Agenda")
              (u "Weekly sync"))
    as (Hlen & Hline & _).
  - vm_compute. reflexivity.
  - split; [exact Hlen | exact Hline].
Defined.

(** X24 at work: the same summary. *)
Lemma heading_becomes_the_title_witness :
  _extract_title_from_summary
    (u "# " ++ u "Weekly sync" ++ 10%N :: 10%N :: u "## Agenda")
  = Some (u "Weekly sync").
Proof.
  apply (heading_becomes_the_title (u "Weekly sync")).
  - split; reflexivity.
  - split; vm_compute; reflexivity.
  - vm_compute. intuition discriminate.
  - intros piece Hin. cbn [In] in Hin.
    repeat destruct Hin as [<- | Hin]; try reflexivity. destruct Hin.
  - intros generic Hin. unfold generic_titles in Hin. cbn [In] in Hin.
    repeat destruct Hin as [<- | Hin]; try reflexivity. destruct Hin.
  - right. eexists. reflexivity.
Defined.
